(** * SQL safety validation and execution guard: a shallow embedding

    This development embeds the two modules that guard the execution of a
    machine generated SQL text:

    - [validator.py]      (class [SQLValidator]): the policy validator and
      the complexity estimator;
    - [query_executor.py] (class [QueryExecutor]): the limit rewrite and
      the shape of the execution result;

    and the code that puts them to work:

    - [schema_service.py] ([get_schema_for_validation]): the dictionary
      the validator is given;
    - [app.py] (the routes [/api/execute-sql] and [/api/query] with
      their helpers): what is validated, what is executed and what is
      left of the application state.  The request, the schema
      extraction, the index, the generator and the database server are
      section variables.

    Python [str] values are modelled as Rocq [string]s.  The embedding
    covers ASCII text: [upper], [isspace], and the regular expression
    classes [\s], [\d], [\w] are the ASCII restrictions of Python's
    Unicode aware versions; characters above code 127 are left alone by
    [upper] and belong to no class.

    Resource limits of the interpreter (recursion depth, the bound on the
    digits of an integer literal) are not modelled.

    The validator works on the token tree built by the third party
    library [sqlparse].  The tree type below has the attributes the
    validator reads ([ttype], [value], [tokens], the group class); the
    library entry points ([sqlparse.parse], [get_real_name]) are section
    variables. *)

From Stdlib Require Import ZArith Ascii String List Bool Lia DecimalString DecimalPos.
From stdpp Require Import base option list gmap strings.

Import ListNotations.
Local Open Scope list_scope.
Local Open Scope string_scope.
#[local] Arguments String.append : simpl nomatch.
#[local] Set Warnings "-register-all".

(* ===================================================================== *)
(** ** Python string primitives                                           *)
(* ===================================================================== *)

Module PyStr.

(** ASCII code of a character. *)
Definition code (a : ascii) : nat := nat_of_ascii a.

(** [str.isspace] on one character (ASCII range): TAB, LF, VT, FF, CR,
    the four separators FS, GS, RS, US and the blank. *)
Definition isspace (a : ascii) : bool :=
  let n := code a in
  (((9 <=? n) && (n <=? 13)) || ((28 <=? n) && (n <=? 31)) || (n =? 32))%nat.

Definition isdigit (a : ascii) : bool :=
  let n := code a in ((48 <=? n) && (n <=? 57))%nat.

Definition islower (a : ascii) : bool :=
  let n := code a in ((97 <=? n) && (n <=? 122))%nat.

Definition isupper (a : ascii) : bool :=
  let n := code a in ((65 <=? n) && (n <=? 90))%nat.

(** A word character of the regular expression class [\w]. *)
Definition isword (a : ascii) : bool :=
  islower a || isupper a || isdigit a || (code a =? 95)%nat.

Definition upper_char (a : ascii) : ascii :=
  if islower a then ascii_of_nat (code a - 32) else a.

(** [s.upper()] *)
Fixpoint upper (s : string) : string :=
  match s with
  | EmptyString => EmptyString
  | String a s' => String (upper_char a) (upper s')
  end.

(** [s.startswith(p)] *)
Fixpoint startswith (s p : string) : bool :=
  match p, s with
  | EmptyString, _ => true
  | String b p', String a s' => Ascii.eqb a b && startswith s' p'
  | String _ _, EmptyString => false
  end.

(** [needle in s] *)
Fixpoint contains (needle s : string) : bool :=
  startswith s needle ||
  match s with
  | EmptyString => false
  | String _ s' => contains needle s'
  end.

(** [s.endswith(p)] *)
Fixpoint endswith (s p : string) : bool :=
  String.eqb s p ||
  match s with
  | EmptyString => false
  | String _ s' => endswith s' p
  end.

(** [s[:-1]] *)
Fixpoint drop_last (s : string) : string :=
  match s with
  | EmptyString => EmptyString
  | String a EmptyString => EmptyString
  | String a s' => String a (drop_last s')
  end.

(** [s.lstrip(chars)], [s.rstrip(chars)], [s.strip(chars)] with the
    character set given as a predicate. *)
Fixpoint lstrip_by (f : ascii -> bool) (s : string) : string :=
  match s with
  | EmptyString => EmptyString
  | String a s' => if f a then lstrip_by f s' else s
  end.

Fixpoint rstrip_by (f : ascii -> bool) (s : string) : string :=
  match s with
  | EmptyString => EmptyString
  | String a s' =>
      match rstrip_by f s' with
      | EmptyString => if f a then EmptyString else String a EmptyString
      | r => String a r
      end
  end.

Definition strip_by (f : ascii -> bool) (s : string) : string :=
  rstrip_by f (lstrip_by f s).

(** [s.strip()] *)
Definition strip : string -> string := strip_by isspace.

(** Membership of a character in a set written as a string, for
    [s.strip(chars)]. *)
Fixpoint char_in (chars : string) (a : ascii) : bool :=
  match chars with
  | EmptyString => false
  | String c chars' => Ascii.eqb a c || char_in chars' a
  end.

(** [s.split(sep)] for a one character separator. *)
Fixpoint split_on (sep : ascii) (s : string) : list string :=
  match s with
  | EmptyString => [EmptyString]
  | String a s' =>
      if Ascii.eqb a sep then EmptyString :: split_on sep s'
      else match split_on sep s' with
           | [] => [String a EmptyString]
           | p :: ps => String a p :: ps
           end
  end.

(** [str(n)] for an integer, and [int(s)] for a string of digits (the
    interpreter's bound on the number of digits is not modelled). *)
Definition str_of_Z (z : Z) : string := NilZero.string_of_int (Z.to_int z).
Definition str_of_nat (n : nat) : string := str_of_Z (Z.of_nat n).

Definition int_of_digits (s : string) : Z :=
  match NilEmpty.uint_of_string s with
  | Some u => Z.of_uint u
  | None => 0%Z
  end.

(** All characters of [s] satisfy [f]. *)
Fixpoint all_chars (f : ascii -> bool) (s : string) : bool :=
  match s with
  | EmptyString => true
  | String a s' => f a && all_chars f s'
  end.

(** Last character, if any, with a default for the empty string. *)
Fixpoint last_char (d : option ascii) (s : string) : option ascii :=
  match s with
  | EmptyString => d
  | String a s' => last_char (Some a) s'
  end.

Definition first_char (s : string) : option ascii :=
  match s with
  | EmptyString => None
  | String a _ => Some a
  end.

(** [s[n:]] *)
Fixpoint drop (n : nat) (s : string) : string :=
  match n, s with
  | O, _ => s
  | S n', String _ s' => drop n' s'
  | S _, EmptyString => EmptyString
  end.

(** The character is there and is not in the set [f]. *)
Definition class_not (f : ascii -> bool) (o : option ascii) : bool :=
  match o with
  | Some a => negb (f a)
  | None => false
  end.

Definition isdigit_opt (o : option ascii) : bool :=
  match o with
  | Some a => isdigit a
  | None => false
  end.

End PyStr.

(* ===================================================================== *)
(** ** The fragment of Python's [re] used by the two modules              *)
(* ===================================================================== *)

(** The patterns of the source are sequences of literal characters, the
    assertion [\b], and the greedy repetitions [\s+] and [\d+], possibly
    captured by a group.  Matching is the backtracking search of [re]:
    leftmost start, longest repetition first.  None of the patterns of
    the source matches the empty string. *)

Module Re.

Import PyStr.

Inductive charclass : Type :=
| Space   (* \s *)
| Digit.  (* \d *)

Definition in_class (c : charclass) (a : ascii) : bool :=
  match c with
  | Space => isspace a
  | Digit => isdigit a
  end.

Inductive atom : Type :=
| Chr (c : ascii)                          (* a literal character      *)
| Rep1 (cls : charclass) (captured : bool) (* cls+   or   (cls+)       *)
| WordB.                                   (* \b                       *)

Definition regex : Type := list atom.

(** A literal string as a pattern. *)
Fixpoint lits (s : string) : regex :=
  match s with
  | EmptyString => []
  | String a s' => Chr a :: lits s'
  end.

(** Literal comparison, under [re.IGNORECASE] when [ic] is set. *)
Definition chr_eq (ic : bool) (c a : ascii) : bool :=
  if ic then Ascii.eqb (upper_char a) (upper_char c) else Ascii.eqb a c.

Definition isword_opt (o : option ascii) : bool :=
  match o with
  | Some a => isword a
  | None => false
  end.

(** [\b]: exactly one of the two neighbours is a word character. *)
Definition at_boundary (prev : option ascii) (s : string) : bool :=
  xorb (isword_opt prev) (isword_opt (first_char s)).

(** The result of a match attempt at a position: the number of characters
    consumed and the texts of the captured groups, in order. *)
Definition matched : Type := nat * list string.

(** [cls+] followed by the continuation [k]: one character of the class
    is required, then the longest run is tried first and given back one
    character at a time.  Returns the length of the run and the result of
    the continuation. *)
Fixpoint rep1 (cls : charclass) (k : option ascii -> string -> option matched)
    (s : string) : option (nat * matched) :=
  match s with
  | String a s' =>
      if in_class cls a then
        match rep1 cls k s' with
        | Some (m, r) => Some (S m, r)
        | None =>
            match k (Some a) s' with
            | Some r => Some (1, r)
            | None => None
            end
        end
      else None
  | EmptyString => None
  end.

(** Match the pattern at the head of [s]; [prev] is the character before
    it, if any. *)
Fixpoint match_here (ic : bool) (p : regex) (prev : option ascii) (s : string)
    {struct p} : option matched :=
  match p with
  | [] => Some (0, [])
  | Chr c :: p' =>
      match s with
      | String a s' =>
          if chr_eq ic c a then
            match match_here ic p' (Some a) s' with
            | Some (n, g) => Some (S n, g)
            | None => None
            end
          else None
      | EmptyString => None
      end
  | WordB :: p' =>
      if at_boundary prev s then match_here ic p' prev s else None
  | Rep1 cls captured :: p' =>
      match rep1 cls (match_here ic p') s with
      | Some (m, (n, g)) =>
          Some (m + n, if captured then substring 0 m s :: g else g)
      | None => None
      end
  end.

(** [re.search]: the leftmost position where the pattern matches, as
    (start, length, groups). *)
Fixpoint search_from (ic : bool) (p : regex) (prev : option ascii) (s : string)
    : option (nat * nat * list string) :=
  match match_here ic p prev s with
  | Some (n, g) => Some (0, n, g)
  | None =>
      match s with
      | String a s' =>
          match search_from ic p (Some a) s' with
          | Some (i, n, g) => Some (S i, n, g)
          | None => None
          end
      | EmptyString => None
      end
  end.

Definition search (ic : bool) (p : regex) (s : string) : option (nat * nat * list string) :=
  search_from ic p None s.

(** [re.findall]: the texts of the non-overlapping matches, scanning left
    to right; [skip] counts the characters of the current match still to
    be passed over. *)
Fixpoint findall_go (ic : bool) (p : regex) (prev : option ascii) (skip : nat)
    (s : string) : list string :=
  match skip with
  | S k =>
      match s with
      | String a s' => findall_go ic p (Some a) k s'
      | EmptyString => []
      end
  | O =>
      match match_here ic p prev s with
      | Some (n, _) =>
          substring 0 n s ::
          match s with
          | String a s' => findall_go ic p (Some a) (pred n) s'
          | EmptyString => []
          end
      | None =>
          match s with
          | String a s' => findall_go ic p (Some a) 0 s'
          | EmptyString => []
          end
      end
  end.

Definition findall (ic : bool) (p : regex) (s : string) : list string :=
  findall_go ic p None 0 s.

(** [re.sub] with a replacement text free of escapes: every
    non-overlapping match is replaced, the text between matches is
    copied. *)
Fixpoint sub_go (ic : bool) (p : regex) (repl : string) (prev : option ascii)
    (skip : nat) (s : string) : string :=
  match skip with
  | S k =>
      match s with
      | String a s' => sub_go ic p repl (Some a) k s'
      | EmptyString => EmptyString
      end
  | O =>
      match match_here ic p prev s with
      | Some (n, _) =>
          repl ++
          match s with
          | String a s' =>
              match n with
              | O => String a (sub_go ic p repl (Some a) 0 s')
              | S k => sub_go ic p repl (Some a) k s'
              end
          | EmptyString => EmptyString
          end
      | None =>
          match s with
          | String a s' => String a (sub_go ic p repl (Some a) 0 s')
          | EmptyString => EmptyString
          end
      end
  end.

Definition sub (ic : bool) (p : regex) (repl : string) (s : string) : string :=
  sub_go ic p repl None 0 s.

(** Membership of an optional character in a class; the ends of the text
    belong to no class. *)
Definition class_opt (cls : charclass) (o : option ascii) : bool :=
  match o with
  | Some a => in_class cls a
  | None => false
  end.

(** The pattern matches at no position of [x] in the text [x ++ y] that
    follows the character [prev]. *)
Definition no_match_within (ic : bool) (p : regex) (prev : option ascii)
    (x y : string) : Prop :=
  forall a1 a2, x = a1 ++ a2 -> a2 <> "" ->
    match_here ic p (last_char prev a1) (a2 ++ y) = None.

(** [m.group(i)] for [i >= 1]. *)
Definition group (g : list string) (i : nat) : string := nth (pred i) g EmptyString.

End Re.

(* ===================================================================== *)
(** ** query_executor.py                                                   *)
(* ===================================================================== *)

Module Executor.

Import PyStr Re.

(** [r'LIMIT\s+(\d+)'], searched in the upper-cased text. *)
Definition limit_search_re : regex :=
  (lits "LIMIT" ++ [Rep1 Space false; Rep1 Digit true])%list.

(** [r'LIMIT\s+\d+'], substituted under [re.IGNORECASE]. *)
Definition limit_sub_re : regex :=
  (lits "LIMIT" ++ [Rep1 Space false; Rep1 Digit false])%list.

(** [QueryExecutor._add_limit_clause]; [max_rows] is [self.max_rows]. *)
Definition add_limit_clause (max_rows : Z) (sql_query : string) : string :=
  let sql_upper := strip (upper sql_query) in
  let sql_query :=
    if endswith sql_query ";" then strip (drop_last sql_query) else sql_query in
  if negb (contains "LIMIT" sql_upper) then
    sql_query ++ " LIMIT " ++ str_of_Z max_rows
  else
    match search false limit_search_re sql_upper with
    | Some (_, _, g) =>
        let limit_value := int_of_digits (group g 1) in
        if (limit_value >? max_rows)%Z then
          sub true limit_sub_re ("LIMIT " ++ str_of_Z max_rows) sql_query
        else sql_query
    | None => sql_query
    end.

(** A row of a [DictCursor] is a dictionary from column name to value, in
    the column order reported by the database; values are kept as text. *)
Definition row : Type := list (string * string).

(** The exceptions [execute_query] tells apart. *)
Inductive exn : Type :=
| TimeoutException (msg : string)
| PyMySQLError (msg : string)      (* pymysql.Error and its subclasses *)
| OtherException (msg : string).

Definition exn_str (e : exn) : string :=
  match e with
  | TimeoutException m | PyMySQLError m | OtherException m => m
  end.

(** What the database side does during one call.  [pymysql.connect]
    either returns a connection or raises.  With a connection, the body
    of the inner [try] runs under the alarm set by [timeout], whose
    handler raises [TimeoutException] between any two steps:
    - [Fetched rows]: [cursor.execute] and [cursor.fetchall] return the
      rows, the block is left and the connection is closed without
      exception;
    - [QueryRaises e]: [e] is raised in [cursor.execute] or in
      [cursor.fetchall];
    - [BlockRaises e]: [e] is raised before [cursor.execute] is called,
      on entering [timeout] ([signal.signal] raises outside the main
      thread) or in [connection.cursor()];
    - [Interrupted rows done e]: the rows are fetched and [e] is raised
      later in the block, when [done] of the assignments to [result]
      are made (the alarm, or [cursor.close()] on leaving the block);
    - [CloseRaises executed e]: the block ends, with the query executed
      or not, and [connection.close()] in the [finally] clause raises
      [e]. *)
Inductive connect_reply : Type :=
| Connected
| ConnectRaises (e : exn).

Inductive query_reply : Type :=
| Fetched (rows : list row)
| QueryRaises (e : exn)
| BlockRaises (e : exn)
| Interrupted (rows : list row) (done : nat) (e : exn)
| CloseRaises (executed : bool) (e : exn).

Record database : Type := {
  db_connect : connect_reply;
  db_run : string -> query_reply
}.

(** The effects on the connection, in order. *)
Inductive effect : Type :=
| EConnect
| EExecute (limited_query : string)
| EClose.

(** The dictionary returned by [execute_query]; the seven keys are set on
    every path. *)
Record ExecutionResult : Type := {
  success : bool;
  data : list row;
  columns : list string;
  row_count : nat;
  execution_time_ms : Z;
  truncated : bool;
  error : option string
}.

Definition failure (time_ms : Z) (msg : string) : ExecutionResult :=
  {| success := false; data := []; columns := []; row_count := 0;
     execution_time_ms := time_ms; truncated := false; error := Some msg |}.

(** The handlers of the outer [try]. *)
Definition outer_handlers (time_ms : Z) (e : exn) : ExecutionResult :=
  match e with
  | PyMySQLError m => failure time_ms ("Database error: " ++ m)
  | _ => failure time_ms ("Execution error: " ++ exn_str e)
  end.

(** The handler [except TimeoutException] of the inner [try], followed
    by the assignment of the execution time. *)
Definition timed_out (query_timeout time_ms : Z) (result : ExecutionResult)
    : ExecutionResult :=
  {| success := success result; data := data result;
     columns := columns result; row_count := row_count result;
     execution_time_ms := time_ms;
     truncated := truncated result;
     error := Some ("Query exceeded timeout of " ++ str_of_Z query_timeout
                    ++ " seconds")%string |}.

(** The assignments to [result] that follow [cursor.fetchall], in the
    order of the source. *)
Definition assignments (max_rows : Z) (rows : list row)
    : list (ExecutionResult -> ExecutionResult) :=
  match rows with
  | first :: _ =>
      [ (fun r => {| success := success r; data := rows; columns := columns r;
                     row_count := row_count r;
                     execution_time_ms := execution_time_ms r;
                     truncated := truncated r; error := error r |});
        (fun r => {| success := success r; data := data r; columns := map fst first;
                     row_count := row_count r;
                     execution_time_ms := execution_time_ms r;
                     truncated := truncated r; error := error r |});
        (fun r => {| success := success r; data := data r; columns := columns r;
                     row_count := length rows;
                     execution_time_ms := execution_time_ms r;
                     truncated := truncated r; error := error r |});
        (fun r => {| success := success r; data := data r; columns := columns r;
                     row_count := row_count r;
                     execution_time_ms := execution_time_ms r;
                     truncated := (max_rows <=? Z.of_nat (length rows))%Z;
                     error := error r |});
        (fun r => {| success := true; data := data r; columns := columns r;
                     row_count := row_count r;
                     execution_time_ms := execution_time_ms r;
                     truncated := truncated r; error := error r |}) ]
  | [] =>
      [ (fun r => {| success := true; data := data r; columns := columns r;
                     row_count := row_count r;
                     execution_time_ms := execution_time_ms r;
                     truncated := truncated r; error := error r |}) ]
  end.

(** [QueryExecutor.execute_query].  [elapsed_ms] is the value of
    [int((time.time() - start_time) * 1000)] when the result is built.
    The second component lists the effects on the connection. *)
Definition execute_query (max_rows query_timeout : Z) (db : database)
    (elapsed_ms : Z) (sql_query : string) : ExecutionResult * list effect :=
  let limited_query := add_limit_clause max_rows sql_query in
  match db_connect db with
  | ConnectRaises e => (outer_handlers elapsed_ms e, [])
  | Connected =>
      let result :=
        {| success := false; data := []; columns := []; row_count := 0;
           execution_time_ms := 0; truncated := false; error := None |} in
      match db_run db limited_query with
      | Fetched rows =>
          let result :=
            match rows with
            | first :: _ =>
                {| success := success result;
                   data := rows;
                   columns := map fst first;
                   row_count := length rows;
                   execution_time_ms := execution_time_ms result;
                   truncated := (max_rows <=? Z.of_nat (length rows))%Z;
                   error := error result |}
            | [] => result
            end in
          let result :=
            {| success := true; data := data result; columns := columns result;
               row_count := row_count result;
               execution_time_ms := elapsed_ms;
               truncated := truncated result; error := error result |} in
          (result, [EConnect; EExecute limited_query; EClose])
      | QueryRaises (TimeoutException _) =>
          let result :=
            {| success := success result; data := data result;
               columns := columns result; row_count := row_count result;
               execution_time_ms := elapsed_ms;
               truncated := truncated result;
               error := Some ("Query exceeded timeout of " ++ str_of_Z query_timeout
                              ++ " seconds")%string |} in
          (result, [EConnect; EExecute limited_query; EClose])
      | QueryRaises e =>
          (outer_handlers elapsed_ms e, [EConnect; EExecute limited_query; EClose])
      | BlockRaises (TimeoutException _) =>
          (timed_out query_timeout elapsed_ms result, [EConnect; EClose])
      | BlockRaises e =>
          (outer_handlers elapsed_ms e, [EConnect; EClose])
      | Interrupted rows done (TimeoutException _) =>
          let result :=
            fold_left (fun r assign => assign r)
              (firstn done (assignments max_rows rows)) result in
          (timed_out query_timeout elapsed_ms result,
           [EConnect; EExecute limited_query; EClose])
      | Interrupted rows done e =>
          (outer_handlers elapsed_ms e, [EConnect; EExecute limited_query; EClose])
      | CloseRaises executed e =>
          (outer_handlers elapsed_ms e,
           if executed then [EConnect; EExecute limited_query; EClose]
           else [EConnect; EClose])
      end
  end.

End Executor.

(* ===================================================================== *)
(** ** The token tree of sqlparse, as the validator reads it               *)
(* ===================================================================== *)

Module Sqlparse.

Import PyStr.

(** Token types ([sqlparse.tokens]).  The validator compares a type by
    identity ([ttype is Keyword]), so the sub-types of a type are separate
    constructors. *)
Inductive ttype : Type :=
| Keyword
| DML            (* Keyword.DML *)
| DDL            (* Keyword.DDL *)
| KeywordOther   (* any other sub-type of Keyword *)
| Name
| Wildcard
| Punctuation
| Operator
| Comparison     (* Operator.Comparison *)
| NumberInteger  (* Literal.Number.Integer *)
| StringSingle   (* Literal.String.Single *)
| Whitespace     (* Text.Whitespace *)
| Newline        (* Text.Whitespace.Newline *)
| CommentSingle  (* Comment.Single *)
| CommentMultiline
| OtherType.

(** Classes of grouped tokens ([sqlparse.sql]). *)
Inductive group_class : Type :=
| Statement
| Identifier
| IdentifierList
| Parenthesis
| Where
| ComparisonGroup
| Function
| CommentGroup
| OtherGroup.

(** A token is a leaf with a type and a text, or a group ([TokenList])
    with its children; the [ttype] of a group is [None]. *)
Inductive token : Type :=
| Leaf (ty : ttype) (value : string)
| Group (cls : group_class) (tokens : list token).

Definition ttype_of (t : token) : option ttype :=
  match t with
  | Leaf ty _ => Some ty
  | Group _ _ => None
  end.

Definition ttype_eqb (a b : ttype) : bool :=
  match a, b with
  | Keyword, Keyword | DML, DML | DDL, DDL | KeywordOther, KeywordOther
  | Name, Name | Wildcard, Wildcard | Punctuation, Punctuation
  | Operator, Operator | Comparison, Comparison
  | NumberInteger, NumberInteger | StringSingle, StringSingle
  | Whitespace, Whitespace | Newline, Newline
  | CommentSingle, CommentSingle | CommentMultiline, CommentMultiline
  | OtherType, OtherType => true
  | _, _ => false
  end.

(** [token.ttype is ty] *)
Definition ttype_is (t : token) (ty : ttype) : bool :=
  match ttype_of t with
  | Some ty' => ttype_eqb ty' ty
  | None => false
  end.

(** [token.ttype is None] *)
Definition ttype_is_none (t : token) : bool :=
  match ttype_of t with
  | Some _ => false
  | None => true
  end.

(** [token.tokens]; a leaf has no such attribute and the validator never
    asks a leaf for it. *)
Definition tokens_of (t : token) : list token :=
  match t with
  | Leaf _ _ => []
  | Group _ ts => ts
  end.

(** [hasattr(token, 'tokens')] *)
Definition has_tokens (t : token) : bool :=
  match t with
  | Leaf _ _ => false
  | Group _ _ => true
  end.

(** [isinstance(token, cls)] for a group class. *)
Definition isinstance (t : token) (c : group_class) : bool :=
  match t, c with
  | Group Statement _, Statement | Group Identifier _, Identifier
  | Group IdentifierList _, IdentifierList | Group Parenthesis _, Parenthesis
  | Group Where _, Where | Group ComparisonGroup _, ComparisonGroup
  | Group Function _, Function | Group CommentGroup _, CommentGroup
  | Group OtherGroup _, OtherGroup => true
  | _, _ => false
  end.

(** [str(token)]: the text of a leaf, the concatenated texts of the
    leaves of a group. *)
Fixpoint str (t : token) : string :=
  match t with
  | Leaf _ v => v
  | Group _ ts => fold_right (fun t' rest => str t' ++ rest) EmptyString ts
  end.

(** [token.value] *)
Definition value_of (t : token) : string := str t.

(** [token.is_whitespace] *)
Definition is_whitespace (t : token) : bool :=
  ttype_is t Whitespace || ttype_is t Newline.

Definition is_comment (t : token) : bool :=
  ttype_is t CommentSingle || ttype_is t CommentMultiline || isinstance t CommentGroup.

(** [tlist.token_first(skip_ws=True, skip_cm=True)] *)
Definition token_first (t : token) : option token :=
  List.find (fun tk => negb (is_whitespace tk || is_comment tk)) (tokens_of t).

(** [IdentifierList.get_identifiers()]: the children that are neither
    whitespace nor a comma. *)
Definition get_identifiers (t : token) : list token :=
  List.filter
    (fun tk => negb (is_whitespace tk ||
                     (ttype_is tk Punctuation && String.eqb (value_of tk) ",")))
    (tokens_of t).

End Sqlparse.

(* ===================================================================== *)
(** ** Exceptions                                                          *)
(* ===================================================================== *)

(** A computation returns a value or raises an exception [e], kept as the
    text of [str(e)]. *)
Module Exc.

Inductive outcome (A : Type) : Type :=
| Ret (a : A)
| Raise (msg : string).

Arguments Ret {A} a.
Arguments Raise {A} msg.

Definition bind {A B : Type} (c : outcome A) (k : A -> outcome B) : outcome B :=
  match c with
  | Ret a => k a
  | Raise m => Raise m
  end.

(** [try: c  except Exception as e: h(str(e))] *)
Definition try_except {A : Type} (c : outcome A) (h : string -> outcome A) : outcome A :=
  match c with
  | Ret a => Ret a
  | Raise m => h m
  end.

End Exc.

#[global] Instance outcome_bind : MBind Exc.outcome :=
  fun A B k c => Exc.bind c k.

(* ===================================================================== *)
(** ** validator.py                                                        *)
(* ===================================================================== *)

Module Validator.

Import PyStr Re Sqlparse Exc.

(** One entry of [schema_info]. *)
Record table_info : Type := {
  columns : list string;
  primary_key : option string;
  foreign_keys : gmap string string
}.

(** Values stored in the dictionary returned by [estimate_cost]. *)
Inductive pyval : Type :=
| PInt (z : Z)
| PBool (b : bool).

(** [x in l] for a list of strings. *)
Definition str_in (x : string) (l : list string) : bool :=
  existsb (String.eqb x) l.

(** The characters stripped from a name: backtick (96), double quote (34)
    and the square brackets (91, 93). *)
Definition quote_char (a : ascii) : bool :=
  let n := code a in ((n =? 96) || (n =? 34) || (n =? 91) || (n =? 93))%nat.

(** [name.strip(chars)] with the four characters above. *)
Definition strip_quotes (s : string) : string :=
  strip_by quote_char s.

(** [l.append(x)] *)
Definition append {A : Type} (l : list A) (x : A) : list A := (l ++ [x])%list.

(** *** Joins *)

Definition qualified_join (q : string) : regex :=
  (WordB :: lits q ++ [Rep1 Space false] ++ lits "JOIN" ++ [WordB])%list.

(** [join_patterns] *)
Definition join_patterns : list regex :=
  [ qualified_join "INNER";               (* \bINNER\s+JOIN\b *)
    qualified_join "LEFT";                (* \bLEFT\s+JOIN\b  *)
    qualified_join "RIGHT";               (* \bRIGHT\s+JOIN\b *)
    qualified_join "FULL";                (* \bFULL\s+JOIN\b  *)
    qualified_join "CROSS";               (* \bCROSS\s+JOIN\b *)
    (WordB :: lits "JOIN" ++ [WordB])%list (* \bJOIN\b         *) ].

(** [SQLValidator._count_joins] *)
Definition count_joins (statement : token) : nat :=
  let sql_str := upper (str statement) in
  fold_left
    (fun join_count pattern => join_count + length (findall false pattern sql_str))
    join_patterns 0.

(** *** Subquery depth *)

(** The test applied to [token_str = str(token).strip()]. *)
Definition subquery_test (token_str : string) : bool :=
  startswith token_str "(" && contains "SELECT" (upper token_str).

(** [SQLValidator._count_subquery_depth]; the method is entered with a
    group only (the statement, then tokens that have [tokens]). *)
Fixpoint count_subquery_depth (statement : token) (current_depth : nat)
    {struct statement} : nat :=
  match statement with
  | Leaf _ _ => current_depth
  | Group _ ts =>
      fold_left
        (fun max_depth token =>
           if ttype_is_none token then
             if has_tokens token then
               let token_str := strip (str token) in
               if subquery_test token_str then
                 let depth := count_subquery_depth token (current_depth + 1) in
                 Nat.max max_depth depth
               else
                 let depth := count_subquery_depth token current_depth in
                 Nat.max max_depth depth
             else max_depth
           else max_depth)
        ts current_depth
  end.

(** *** Statement kind *)

(** [SQLValidator._is_select_only] *)
Definition is_select_only (statement : token) : bool :=
  match token_first statement with
  | None => false
  | Some first_token =>
      ttype_is first_token DML && String.eqb (upper (value_of first_token)) "SELECT"
  end.

(** *** Dangerous patterns *)

Definition dangerous_patterns : list (regex * string) :=
  [ (lits "--", "SQL comments not allowed");
    (lits "/*", "Multi-line comments not allowed");
    ((WordB :: lits "EXEC" ++ [WordB])%list, "EXEC command not allowed");
    ((WordB :: lits "EXECUTE" ++ [WordB])%list, "EXECUTE command not allowed");
    ((WordB :: lits "INTO" ++ [Rep1 Space false] ++ lits "OUTFILE" ++ [WordB])%list,
     "INTO OUTFILE not allowed");
    ((WordB :: lits "LOAD_FILE" ++ [WordB])%list, "LOAD_FILE not allowed") ].

(** [SQLValidator._check_dangerous_patterns] *)
Definition check_dangerous_patterns (sql_query : string) : list string :=
  let sql_upper := upper sql_query in
  let errors :=
    if contains ";" (drop_last sql_query)
    then ["Multiple SQL statements not allowed"] else [] in
  fold_left
    (fun errors pm =>
       match search false (fst pm) sql_upper with
       | Some _ => append errors (snd pm)
       | None => errors
       end)
    dangerous_patterns errors.

(** *** Column references *)

(** [SQLValidator._parse_identifier]: [Some (table, column)] with
    [table = None] for an unqualified name, or [None]. *)
Definition parse_identifier (identifier : token) : option (option string * string) :=
  let name := str identifier in
  if contains "." name then
    match split_on "." name with
    | [p0; p1] => Some (Some (strip_quotes p0), strip_quotes p1)
    | _ => None
    end
  else
    let column := strip_quotes name in
    if negb (str_in (upper column) ["SELECT"; "FROM"; "WHERE"; "AS"; "*"])
    then Some (None, column)
    else None.

(** [SQLValidator._extract_columns] *)
Definition extract_columns (statement : token) : list (option string * string) :=
  fold_left
    (fun columns token =>
       if isinstance token IdentifierList then
         fold_left
           (fun columns identifier =>
              match parse_identifier identifier with
              | Some col => append columns col
              | None => columns
              end)
           (get_identifiers token) columns
       else if isinstance token Identifier then
         match parse_identifier token with
         | Some col => append columns col
         | None => columns
         end
       else columns)
    (tokens_of statement) [].

(** Truth value of [table] in [if table]: neither [None] nor empty. *)
Definition truthy (table : option string) : bool :=
  match table with
  | Some EmptyString | None => false
  | Some _ => true
  end.

Section WithLibrary.

(** [sqlparse.parse]: the statements of a text. *)
Variable sqlparse_parse : string -> outcome (list token).

(** [identifier.get_real_name()], which raises [AttributeError] on a token
    that is no group. *)
Variable get_real_name : token -> outcome (option string).

(** [self.schema_info], [self.max_joins], [self.max_subquery_depth] *)
Variable schema_info : gmap string table_info.
Variable max_joins : Z.
Variable max_subquery_depth : Z.

(** [SQLValidator._check_complexity] *)
Definition check_complexity (statement : token) : list string :=
  let errors := [] in
  let join_count := count_joins statement in
  let errors :=
    if (Z.of_nat join_count >? max_joins)%Z then
      append errors ("Too many JOINs: " ++ str_of_nat join_count ++
                     " (max allowed: " ++ str_of_Z max_joins ++ ")")
    else errors in
  let subquery_depth := count_subquery_depth statement 0 in
  let errors :=
    if (Z.of_nat subquery_depth >? max_subquery_depth)%Z then
      append errors ("Subquery nesting too deep: " ++ str_of_nat subquery_depth ++
                     " (max allowed: " ++ str_of_Z max_subquery_depth ++ ")")
    else errors in
  errors.

(** [SQLValidator._get_table_name] *)
Definition get_table_name (identifier : token) : outcome (option string) :=
  name ← get_real_name identifier;
  match name with
  | Some (String a n) => Ret (Some (strip_quotes (String a n)))
  | _ => Ret None
  end.

(** [tables.append(table_name)] under [if table_name] *)
Definition append_table (tables : list string) (table_name : option string) : list string :=
  match table_name with
  | Some (String a n) => append tables (String a n)
  | _ => tables
  end.

(** The inner loop over [token.get_identifiers()]. *)
Fixpoint tables_of_identifiers (ids : list token) (tables : list string)
    : outcome (list string) :=
  match ids with
  | [] => Ret tables
  | identifier :: rest =>
      table_name ← get_table_name identifier;
      tables_of_identifiers rest (append_table tables table_name)
  end.

(** The loop of [SQLValidator._extract_tables]. *)
Fixpoint extract_tables_loop (toks : list token) (from_seen : bool)
    (tables : list string) : outcome (list string) :=
  match toks with
  | [] => Ret tables
  | token :: rest =>
      tables ←
        (if from_seen then
           if isinstance token IdentifierList then
             tables_of_identifiers (get_identifiers token) tables
           else if isinstance token Identifier then
             table_name ← get_table_name token;
             Ret (append_table tables table_name)
           else Ret tables
         else Ret tables);
      let from_seen := if from_seen then false else from_seen in
      let from_seen :=
        if ttype_is token Keyword && String.eqb (upper (value_of token)) "FROM"
        then true else from_seen in
      let from_seen :=
        if ttype_is token Keyword && contains "JOIN" (upper (value_of token))
        then true else from_seen in
      extract_tables_loop rest from_seen tables
  end.

(** [SQLValidator._extract_tables] *)
Definition extract_tables (statement : token) : outcome (list string) :=
  extract_tables_loop (tokens_of statement) false [].

(** The loop "Validate tables". *)
Definition check_tables (tables : list string) (errors : list string) : list string :=
  fold_left
    (fun errors table =>
       match schema_info !! table with
       | None => append errors ("Table '" ++ table ++ "' not found in schema")
       | Some _ => errors
       end)
    tables errors.

(** The search "check all tables" with its [found] flag and [break]. *)
Fixpoint found_in_any (items : list (string * table_info)) (column : string) : bool :=
  match items with
  | [] => false
  | (_, tbl_info) :: rest =>
      if str_in column (columns tbl_info) then true
      else found_in_any rest column
  end.

(** The body of the loop "Validate columns" for one reference. *)
Definition check_column (errors : list string) (ref : option string * string)
    : list string :=
  let '(table, column) := ref in
  if truthy table && bool_decide (is_Some (schema_info !! default "" table)) then
    match schema_info !! default "" table with
    | Some tbl_info =>
        if negb (str_in column (columns tbl_info)) then
          append errors ("Column '" ++ column ++ "' not found in table '" ++
                         default "" table ++ "'")
        else errors
    | None => errors
    end
  else if negb (truthy table) then
    let found := found_in_any (map_to_list schema_info) column in
    if negb found then
      append errors ("Column '" ++ column ++ "' not found in any table")
    else errors
  else errors.

Definition check_columns (cols : list (option string * string)) (errors : list string)
    : list string :=
  fold_left check_column cols errors.

(** [SQLValidator._validate_schema].  The only step that can raise is the
    extraction of the tables, which precedes every [append]. *)
Definition validate_schema (statement : token) : list string :=
  let errors := [] in
  match
    (tables ← extract_tables statement;
     let errors := check_tables tables errors in
     let cols := extract_columns statement in
     let errors := check_columns cols errors in
     Ret errors)
  with
  | Ret errors => errors
  | Raise e => append errors ("Schema validation failed: " ++ e)
  end.

(** [SQLValidator.validate] *)
Definition validate (sql_query : string) : outcome (bool * list string) :=
  let errors := [] in
  try_except
    (parsed ← sqlparse_parse sql_query;
     match parsed with
     | [] => Ret (false, ["Invalid SQL syntax"])
     | statement :: _ =>
         let errors :=
           if negb (is_select_only statement)
           then append errors "Only SELECT queries are allowed" else errors in
         let complexity_errors := check_complexity statement in
         let errors := (errors ++ complexity_errors)%list in
         let schema_errors := validate_schema statement in
         let errors := (errors ++ schema_errors)%list in
         let danger_errors := check_dangerous_patterns sql_query in
         let errors := (errors ++ danger_errors)%list in
         let is_valid := Nat.eqb (length errors) 0 in
         Ret (is_valid, errors)
     end)
    (fun e => Ret (false, ["Validation failed: " ++ e])).

(** [SQLValidator._calculate_complexity_score] *)
Definition calculate_complexity_score (statement : token) : nat :=
  let score := 1 in
  let score := score + count_joins statement * 2 in
  let score := score + count_subquery_depth statement 0 * 3 in
  let sql_str := upper (str statement) in
  let score := if contains "GROUP BY" sql_str then score + 2 else score in
  let score := if contains "ORDER BY" sql_str then score + 1 else score in
  let score := if contains "DISTINCT" sql_str then score + 1 else score in
  score.

(** [SQLValidator.estimate_cost]; [parse(sql_query)[0]] raises
    [IndexError] on an empty result, and the bare [except] catches
    everything. *)
Definition estimate_cost (sql_query : string) : outcome (gmap string pyval) :=
  try_except
    (statements ← sqlparse_parse sql_query;
     parsed ← match statements with
              | [] => Raise "tuple index out of range"
              | st :: _ => Ret st
              end;
     Ret (<["join_count" := PInt (Z.of_nat (count_joins parsed))]>
          (<["subquery_depth" := PInt (Z.of_nat (count_subquery_depth parsed 0))]>
          (<["has_aggregation" := PBool (contains "GROUP BY" (upper sql_query))]>
          (<["has_order" := PBool (contains "ORDER BY" (upper sql_query))]>
          (<["estimated_complexity" :=
               PInt (Z.of_nat (calculate_complexity_score parsed))]> ∅))))))
    (fun _ => Ret (<["estimated_complexity" := PInt 0]> ∅)).

End WithLibrary.

End Validator.

(* ===================================================================== *)
(** ** schema_service.py                                                   *)
(* ===================================================================== *)

Module SchemaService.

(** One entry of [table_info['columns']], with the keys [extract_schema]
    gives it. *)
Record column_info : Type := {
  name : string;
  type : string;
  nullable : bool;
  default_value : option string;      (* 'default' *)
  is_primary_key : bool;
  is_foreign_key : bool;
  foreign_key_ref : option string
}.

(** One entry of [schema['tables']]. *)
Record table_schema : Type := {
  columns : list column_info;
  primary_key : option string;
  row_count : Z;
  size_bytes : Z;
  comment : string
}.

(** The dictionary returned by [extract_schema]. *)
Record schema : Type := {
  database_name : string;
  tables : gmap string table_schema;
  extracted_at : string
}.

(** One entry of the dictionary built for the validator; a foreign key
    maps to the value stored under [foreign_key_ref], which may be
    [None]. *)
Record validation_entry : Type := {
  v_columns : list string;
  v_primary_key : option string;
  v_foreign_keys : gmap string (option string)
}.

(** The loop "Add foreign key information" on one table. *)
Definition add_foreign_keys (cols : list column_info) (entry : validation_entry)
    : validation_entry :=
  fold_left
    (fun entry col =>
       if is_foreign_key col then
         {| v_columns := v_columns entry;
            v_primary_key := v_primary_key entry;
            v_foreign_keys := <[name col := foreign_key_ref col]> (v_foreign_keys entry) |}
       else entry)
    cols entry.

(** [SchemaService.get_schema_for_validation] *)
Definition get_schema_for_validation (schema : schema) : gmap string validation_entry :=
  map_fold
    (fun table_name table_info validation_schema =>
       let entry :=
         {| v_columns := map name (columns table_info);
            v_primary_key := primary_key table_info;
            v_foreign_keys := ∅ |} in
       <[table_name := add_foreign_keys (columns table_info) entry]> validation_schema)
    ∅ (tables schema).

(** The entry as [SQLValidator] holds it; the validator reads the key
    [columns] only. *)
Definition table_info_of (entry : validation_entry) : Validator.table_info :=
  {| Validator.columns := v_columns entry;
     Validator.primary_key := v_primary_key entry;
     Validator.foreign_keys := omap id (v_foreign_keys entry) |}.

Definition schema_info_of (validation_schema : gmap string validation_entry)
    : gmap string Validator.table_info :=
  table_info_of <$> validation_schema.

End SchemaService.

(* ===================================================================== *)
(** ** app.py                                                              *)
(* ===================================================================== *)

Module App.

Import PyStr Sqlparse Exc Executor.

(** The connection parameters kept in [APP_STATE]. *)
Record connection_params : Type := {
  host : string;
  port : Z;
  user : string;
  password : string;
  database_name : string           (* 'database' *)
}.

(** [APP_STATE] *)
Record app_state : Type := {
  st_connection_params : option connection_params;
  st_schema : option SchemaService.schema;
  st_rag_loaded : bool;
  st_connection_id : Z
}.

(** What [request.get_json()] yields: an object, whose fields are texts
    or values of another type, or a value of another type (named by its
    Python type, as [None] is by [NoneType]). *)
Inductive json : Type :=
| JString (s : string)
| JOther (type_name : string).

Inductive body : Type :=
| Object (fields : gmap string json)
| NotObject (type_name : string).

Definition no_attribute (type_name attr : string) : string :=
  "'" ++ type_name ++ "' object has no attribute '" ++ attr ++ "'".

(** [data.get(key, '').strip()] *)
Definition get_stripped (data : body) (key : string) : outcome string :=
  match data with
  | NotObject ty => Raise (no_attribute ty "get")
  | Object fields =>
      match fields !! key with
      | None => Ret (strip "")
      | Some (JString s) => Ret (strip s)
      | Some (JOther ty) => Raise (no_attribute ty "strip")
      end
  end.

(** Values of a response dictionary. *)
Inductive value : Type :=
| VStr (s : string)
| VInt (z : Z)
| VBool (b : bool)
| VNone
| VStrings (l : list string)
| VRows (l : list row).

(** A response: the status code and the dictionary given to [jsonify],
    in the order of its keys.  Row values are texts, which [jsonify]
    always serialises. *)
Record response : Type := {
  status : Z;
  payload : list (string * value)
}.

Definition of_error (e : option string) : value :=
  match e with
  | Some m => VStr m
  | None => VNone
  end.

(** The handler [except Exception as e] of a route. *)
Definition server_error (e : string) : response :=
  {| status := 500; payload := [("error", VStr e)] |}.

Section WithServices.

(** The services behind the routes: the schema extraction of
    [SchemaService] (database and cache), the parameters read from the
    environment, the parser, the limits of [Config], the server reached
    with given parameters and the clock; for the language route, the
    index loader, the two context lookups and the generator. *)
Variable extract_schema : connection_params -> outcome SchemaService.schema.
Variable env_connection_params : outcome connection_params.
Variable sqlparse_parse : string -> outcome (list token).
Variable get_real_name : token -> outcome (option string).
Variables max_joins max_subquery_depth max_rows query_timeout : Z.
Variable server : connection_params -> database.
Variable elapsed_ms : Z.
Variable load_index : Z -> outcome bool.
Variable get_schema_context : string -> outcome string.
Variable get_business_context : string -> outcome string.
Variable generate_sql : string -> string -> string -> outcome string.

(** [get_connection_params] *)
Definition get_connection_params (st : app_state) : outcome connection_params :=
  match st_connection_params st with
  | Some params => Ret params
  | None => env_connection_params
  end.

(** [ensure_schema_loaded]: the schema and the state it leaves. *)
Definition ensure_schema_loaded (st : app_state)
    : outcome (SchemaService.schema * app_state) :=
  match st_schema st with
  | None =>
      connection_params ← get_connection_params st;
      schema ← extract_schema connection_params;
      Ret (schema,
           {| st_connection_params := st_connection_params st;
              st_schema := Some schema;
              st_rag_loaded := st_rag_loaded st;
              st_connection_id := st_connection_id st |})
  | Some schema => Ret (schema, st)
  end.

(** [ensure_rag_loaded] *)
Definition ensure_rag_loaded (st : app_state) : outcome (bool * app_state) :=
  if negb (st_rag_loaded st) then
    match load_index (st_connection_id st) with
    | Raise e => Raise e
    | Ret true =>
        Ret (true,
             {| st_connection_params := st_connection_params st;
                st_schema := st_schema st;
                st_rag_loaded := true;
                st_connection_id := st_connection_id st |})
    | Ret false => Ret (false, st)
    end
  else Ret (true, st).

(** [SQLValidator(validation_schema).validate(sql)] *)
Definition validate_against (schema : SchemaService.schema) (sql : string)
    : outcome (bool * list string) :=
  let validation_schema := SchemaService.get_schema_for_validation schema in
  Validator.validate sqlparse_parse get_real_name
    (SchemaService.schema_info_of validation_schema) max_joins max_subquery_depth sql.

(** The route [/api/execute-sql]: the response, the effects on the
    connection of the query, and the state left. *)
Definition execute_sql (st : app_state) (request_json : outcome body)
    : response * list effect * app_state :=
  match (data ← request_json; get_stripped data "sql") with
  | Raise e => (server_error e, [], st)
  | Ret sql =>
      if String.eqb sql "" then
        ({| status := 400; payload := [("error", VStr "SQL cannot be empty")] |}, [], st)
      else
        match ensure_schema_loaded st with
        | Raise e => (server_error e, [], st)
        | Ret (schema, st) =>
            match validate_against schema sql with
            | Raise e => (server_error e, [], st)
            | Ret (is_valid, errors) =>
                if negb is_valid then
                  ({| status := 400;
                      payload := [("error", VStr "SQL validation failed");
                                  ("validation_errors", VStrings errors)] |}, [], st)
                else
                  match get_connection_params st with
                  | Raise e => (server_error e, [], st)
                  | Ret connection_params =>
                      let '(result, effects) :=
                        execute_query max_rows query_timeout (server connection_params)
                          elapsed_ms sql in
                      if success result then
                        ({| status := 200;
                            payload :=
                              [("results", VRows (data result));
                               ("columns", VStrings (Executor.columns result));
                               ("num_results", VInt (Z.of_nat (row_count result)));
                               ("execution_time", VInt (execution_time_ms result))] |},
                         effects, st)
                      else
                        ({| status := 400;
                            payload := [("error", of_error (error result))] |},
                         effects, st)
                  end
            end
        end
  end.

(** The route [/api/query]. *)
Definition process_query (st : app_state) (request_json : outcome body)
    : response * list effect * app_state :=
  match (data ← request_json; get_stripped data "query") with
  | Raise e => (server_error e, [], st)
  | Ret natural_query =>
      if String.eqb natural_query "" then
        ({| status := 400; payload := [("error", VStr "Query cannot be empty")] |}, [], st)
      else
        match ensure_schema_loaded st with
        | Raise e => (server_error e, [], st)
        | Ret (schema, st) =>
            match ensure_rag_loaded st with
            | Raise e => (server_error e, [], st)
            | Ret (false, st) =>
                ({| status := 400;
                    payload :=
                      [("error", VStr "RAG index not loaded. Please refresh schema first.");
                       ("needs_refresh", VBool true)] |}, [], st)
            | Ret (true, st) =>
                match
                  (schema_context ← get_schema_context natural_query;
                   business_context ← get_business_context natural_query;
                   generated_sql ←
                     generate_sql natural_query schema_context business_context;
                   checked ← validate_against schema generated_sql;
                   Ret (generated_sql, checked))
                with
                | Raise e => (server_error e, [], st)
                | Ret (generated_sql, (is_valid, errors)) =>
                    if negb is_valid then
                      ({| status := 400;
                          payload := [("sql", VStr generated_sql);
                                      ("valid", VBool false);
                                      ("errors", VStrings errors)] |}, [], st)
                    else
                      match get_connection_params st with
                      | Raise e => (server_error e, [], st)
                      | Ret connection_params =>
                          let '(result, effects) :=
                            execute_query max_rows query_timeout
                              (server connection_params) elapsed_ms generated_sql in
                          if success result then
                            ({| status := 200;
                                payload :=
                                  [("sql", VStr generated_sql);
                                   ("results", VRows (data result));
                                   ("columns", VStrings (Executor.columns result));
                                   ("num_results", VInt (Z.of_nat (row_count result)));
                                   ("execution_time",
                                    VInt (execution_time_ms result))] |},
                             effects, st)
                          else
                            ({| status := 400;
                                payload := [("sql", VStr generated_sql);
                                            ("error", of_error (error result))] |},
                             effects, st)
                      end
                end
            end
        end
  end.

End WithServices.

End App.

(* ===================================================================== *)
(** ** Token trees of the texts used in the examples                       *)
(* ===================================================================== *)

(** The trees below are the ones sqlparse builds for the given texts:
    one whitespace token per blank, a name wrapped in an [Identifier], a
    parenthesised span in a [Parenthesis] that holds both parentheses, a
    WHERE clause in a [Where] running to the end of its span.  Each tree
    gives back its text under [str]. *)

Module Trees.

Import PyStr Sqlparse Exc.

Definition sp : token := Leaf Whitespace " ".
Definition kw (k : string) : token := Leaf Keyword k.
Definition select : token := Leaf DML "SELECT".
Definition star : token := Leaf Wildcard "*".
Definition ident (n : string) : token := Group Identifier [Leaf Name n].
Definition dotted (t c : string) : token :=
  Group Identifier [Leaf Name t; Leaf Punctuation "."; Leaf Name c].
Definition lpar : token := Leaf Punctuation "(".
Definition rpar : token := Leaf Punctuation ")".
Definition op_in : token := Leaf Keyword "IN".
Definition comma : token := Leaf Punctuation ",".

(** [SELECT * FROM t] *)
Definition stmt_plain : token :=
  Group Statement [select; sp; star; sp; kw "FROM"; sp; ident "t"].

(** [(SELECT w FROM v)] *)
Definition paren_v : token :=
  Group Parenthesis
    [lpar; select; sp; ident "w"; sp; kw "FROM"; sp; ident "v"; rpar].

(** [(SELECT y FROM u)] *)
Definition paren_u : token :=
  Group Parenthesis
    [lpar; select; sp; ident "y"; sp; kw "FROM"; sp; ident "u"; rpar].

(** [x IN <p>]: sqlparse reads [IN] as a keyword and builds no group
    around the three parts. *)
Definition in_cmp (x : string) (p : token) : list token :=
  [ident x; sp; op_in; sp; p].

(** [SELECT * FROM t WHERE x IN (SELECT y FROM u)] *)
Definition stmt_sub1 : token :=
  Group Statement
    [select; sp; star; sp; kw "FROM"; sp; ident "t"; sp;
     Group Where ([kw "WHERE"; sp] ++ in_cmp "x" paren_u)].

(** [(SELECT y FROM u WHERE z IN (SELECT w FROM v))] *)
Definition paren_u_v : token :=
  Group Parenthesis
    [lpar; select; sp; ident "y"; sp; kw "FROM"; sp; ident "u"; sp;
     Group Where ([kw "WHERE"; sp] ++ in_cmp "z" paren_v); rpar].

(** [SELECT * FROM t WHERE x IN (SELECT y FROM u WHERE z IN (SELECT w FROM v))] *)
Definition stmt_sub2 : token :=
  Group Statement
    [select; sp; star; sp; kw "FROM"; sp; ident "t"; sp;
     Group Where ([kw "WHERE"; sp] ++ in_cmp "x" paren_u_v)].

(** [SELECT a FROM t WHERE (x IN (SELECT y FROM u))] *)
Definition stmt_paren_cond : token :=
  Group Statement
    [select; sp; ident "a"; sp; kw "FROM"; sp; ident "t"; sp;
     Group Where [kw "WHERE"; sp;
                  Group Parenthesis ([lpar] ++ in_cmp "x" paren_u ++ [rpar])]].

(** [SELECT a FROM t WHERE (selected = 1)] *)
Definition stmt_selected : token :=
  Group Statement
    [select; sp; ident "a"; sp; kw "FROM"; sp; ident "t"; sp;
     Group Where
       [kw "WHERE"; sp;
        Group Parenthesis
          [lpar;
           Group ComparisonGroup
             [ident "selected"; sp; Leaf Comparison "="; sp; Leaf NumberInteger "1"];
           rpar]]].

(** [SELECT a FROM t] *)
Definition stmt_a : token :=
  Group Statement [select; sp; ident "a"; sp; kw "FROM"; sp; ident "t"].

(** [SELECT a FROM t; ] with one blank after the semicolon: the blank
    stays in the statement. *)
Definition stmt_a_semi_blank : token :=
  Group Statement
    [select; sp; ident "a"; sp; kw "FROM"; sp; ident "t"; Leaf Punctuation ";"; sp].

(** [SELECT a FROM t;] *)
Definition stmt_a_semi : token :=
  Group Statement
    [select; sp; ident "a"; sp; kw "FROM"; sp; ident "t"; Leaf Punctuation ";"].

(** [SELECT customerName, customers.country, phone FROM customers] *)
Definition stmt_columns : token :=
  Group Statement
    [select; sp;
     Group IdentifierList
       [ident "customerName"; comma; sp; dotted "customers" "country"; comma; sp;
        ident "phone"];
     sp; kw "FROM"; sp; ident "customers"].

(** [SELECT * FROM a <join> b] for a join keyword, which sqlparse keeps
    as one keyword token. *)
Definition stmt_join (join : string) : token :=
  Group Statement
    [select; sp; star; sp; kw "FROM"; sp; ident "a"; sp; kw join; sp; ident "b"].

Definition known_statements : list token :=
  [stmt_plain; stmt_sub1; stmt_sub2; stmt_paren_cond; stmt_selected; stmt_a;
   stmt_a_semi_blank; stmt_a_semi; stmt_columns;
   stmt_join "LEFT JOIN"; stmt_join "Left Join"; stmt_join "left join";
   stmt_join "JOIN"; stmt_join "join"].

(** [sqlparse.parse] on the texts above; a text without any token other
    than whitespace has no statement.  Texts outside the table are not
    covered. *)
Definition parse_known (sql : string) : outcome (list token) :=
  if all_chars isspace sql then Ret []
  else
    match List.find (fun t => String.eqb (str t) sql) known_statements with
    | Some t => Ret [t]
    | None => Raise "text outside the table"
    end.

(** [SELECT b FROM u GROUP BY b]; sqlparse keeps [GROUP BY] as one
    keyword token. *)
Definition stmt_group : token :=
  Group Statement
    [select; sp; ident "b"; sp; kw "FROM"; sp; ident "u"; sp; kw "GROUP BY"; sp;
     ident "b"].

(** [sqlparse.parse] on a text of two statements, beside the texts
    above: the blank after the semicolon stays in the first statement. *)
Definition parse_two (sql : string) : outcome (list token) :=
  if String.eqb sql "SELECT a FROM t; SELECT b FROM u GROUP BY b"
  then Ret [stmt_a_semi_blank; stmt_group]
  else parse_known sql.

(** [get_real_name] on the tokens above: the last name of an identifier;
    a leaf has no such method. *)
Definition real_name (t : token) : outcome (option string) :=
  match t with
  | Leaf _ _ => Raise "'Token' object has no attribute 'get_real_name'"
  | Group _ ts =>
      Ret (fold_left
             (fun acc tk =>
                match tk with
                | Leaf Name n => Some n
                | _ => acc
                end)
             ts None)
  end.

(** The schema of the customers example. *)
Definition customers_schema : gmap string Validator.table_info :=
  {[ "customers" :=
       {| Validator.columns := ["customerNumber"; "customerName"; "country"];
          Validator.primary_key := Some "customerNumber";
          Validator.foreign_keys := ∅ |} ]}.

End Trees.

(* ===================================================================== *)
(** ** Services used in the examples                                       *)
(* ===================================================================== *)

Module Demo.

Import Executor.

Definition column (n : string) : SchemaService.column_info :=
  {| SchemaService.name := n; SchemaService.type := "varchar(50)";
     SchemaService.nullable := true; SchemaService.default_value := None;
     SchemaService.is_primary_key := false; SchemaService.is_foreign_key := false;
     SchemaService.foreign_key_ref := None |}.

(** A schema with one table [t]; the table has a column named like
    itself, since the validator looks the name after FROM up among the
    columns. *)
Definition schema : SchemaService.schema :=
  {| SchemaService.database_name := "demo";
     SchemaService.tables :=
       {[ "t" := {| SchemaService.columns := [column "a"; column "t"];
                    SchemaService.primary_key := None;
                    SchemaService.row_count := 1; SchemaService.size_bytes := 0;
                    SchemaService.comment := "" |} ]};
     SchemaService.extracted_at := "2024-01-01T00:00:00" |}.

Definition params : App.connection_params :=
  {| App.host := "localhost"; App.port := 3306; App.user := "root";
     App.password := ""; App.database_name := "demo" |}.

Definition state : App.app_state :=
  {| App.st_connection_params := Some params; App.st_schema := None;
     App.st_rag_loaded := true; App.st_connection_id := 1 |}.

(** A server that answers every query with one row. *)
Definition server (_ : App.connection_params) : database :=
  {| db_connect := Connected; db_run := fun _ => Fetched [[("a", "1")]] |}.


(** The route [/api/execute-sql] and the route [/api/query] with these
    services; the generator answers every question with one statement. *)
Definition execute_sql : App.app_state -> Exc.outcome App.body ->
    App.response * list effect * App.app_state :=
  App.execute_sql (fun _ => Exc.Ret schema) (Exc.Ret params) Trees.parse_known
    Trees.real_name 3 3 1000 30 server 5.

Definition process_query : App.app_state -> Exc.outcome App.body ->
    App.response * list effect * App.app_state :=
  App.process_query (fun _ => Exc.Ret schema) (Exc.Ret params) Trees.parse_known
    Trees.real_name 3 3 1000 30 server 5
    (fun _ => Exc.Ret true) (fun _ => Exc.Ret "Table: t") (fun _ => Exc.Ret "")
    (fun _ _ _ => Exc.Ret "SELECT a FROM t;").

End Demo.

(* ===================================================================== *)
(** ** Reference definitions used in the statements                        *)
(* ===================================================================== *)

Module Spec.

Import PyStr Re Sqlparse Validator Exc.

(** The violation list of the statement-kind rule. *)
Definition kind_errors (statement : token) : list string :=
  if is_select_only statement then [] else ["Only SELECT queries are allowed"].

(** The five keys of the cost dictionary. *)
Definition cost_keys : list string :=
  ["join_count"; "subquery_depth"; "has_aggregation"; "has_order";
   "estimated_complexity"].

Definition has_all_fields (d : gmap string pyval) : Prop :=
  Forall (fun k => is_Some (d !! k)) cost_keys.

(** The violation of the multiple statement check. *)
Definition multiple_statements : string := "Multiple SQL statements not allowed".

(** Every other violation text differs from the one of the multiple
    statement check within its first six characters. *)
Definition other_message (e : string) : Prop := startswith e "Multip" = false.

(** A semicolon stands before the last character of [s]. *)
Definition semicolon_before_last (s : string) : bool :=
  contains ";" (drop_last s).

(** 0 or 1 for a flag. *)
Definition flag (b : bool) : nat := if b then 1 else 0.

(** The score as stated: computed from the values the dictionary holds
    under [join_count], [subquery_depth], [has_aggregation] and
    [has_order], and from the presence of DISTINCT in the text. *)
Definition stated_score (d : gmap string pyval) (sql_query : string) : option Z :=
  match d !! "join_count", d !! "subquery_depth",
        d !! "has_aggregation", d !! "has_order" with
  | Some (PInt join_count), Some (PInt subquery_depth),
    Some (PBool has_aggregation), Some (PBool has_order) =>
      Some (1 + 2 * join_count + 3 * subquery_depth
            + 2 * Z.of_nat (flag has_aggregation) + Z.of_nat (flag has_order)
            + Z.of_nat (flag (contains "DISTINCT" (upper sql_query))))%Z
  | _, _, _, _ => None
  end.

(** *** Subquery depth, two readings *)

(** The group test of the source: the trimmed text of the group starts
    with an opening parenthesis and holds the letters SELECT somewhere. *)
Definition counted_group (t : token) : bool :=
  has_tokens t && subquery_test (strip (str t)).

(** Nesting of counted groups below a node: the largest number of counted
    groups on a path from the node downwards. *)
Fixpoint nesting (t : token) : nat :=
  match t with
  | Leaf _ _ => 0
  | Group _ ts => list_max (map (fun c => flag (counted_group c) + nesting c) ts)
  end.

(** The group test in the words of the specification: a parenthesised
    group whose first token after the parenthesis, whitespace apart, is
    SELECT. *)
Definition select_first (t : token) : bool :=
  match t with
  | Group Parenthesis (_ :: inner) =>
      match List.find (fun tk => negb (is_whitespace tk)) inner with
      | Some tk => String.eqb (upper (value_of tk)) "SELECT"
      | None => false
      end
  | _ => false
  end.

(** Subquery depth in the words of the specification: a subquery node
    counts one more than the deepest subquery below it, the root takes
    the maximum over the subquery nodes. *)
Fixpoint spec_subquery_depth (t : token) : nat :=
  match t with
  | Leaf _ _ => 0
  | Group _ ts =>
      list_max (map (fun c => flag (select_first c) + spec_subquery_depth c) ts)
  end.

(** *** Column violations *)

Definition msg_any_table (column : string) : string :=
  "Column '" ++ column ++ "' not found in any table".

Definition msg_in_table (column table : string) : string :=
  "Column '" ++ column ++ "' not found in table '" ++ table ++ "'".

(** [column] belongs to the column set of some table of the schema. *)
Definition in_some_table (schema : gmap string table_info) (column : string) : Prop :=
  exists tbl info, schema !! tbl = Some info /\ In column (columns info).

(** *** Letter case *)

Definition swapcase_char (a : ascii) : ascii :=
  if islower a then ascii_of_nat (code a - 32)
  else if isupper a then ascii_of_nat (code a + 32)
  else a.

(** [s'] is [s] with the case of some of its letters changed. *)
Fixpoint case_variant (s s' : string) : bool :=
  match s, s' with
  | EmptyString, EmptyString => true
  | String a r, String b r' =>
      (Ascii.eqb b a || Ascii.eqb b (swapcase_char a)) && case_variant r r'
  | _, _ => false
  end.

(** *** Occurrences of a word *)

(** [w] stands as a word at the head of [s], after the character [prev]:
    the characters before and after it are no word characters. *)
Definition word_here (w : string) (prev : option ascii) (s : string) : bool :=
  startswith s w && negb (isword_opt prev) &&
  negb (isword_opt (first_char (drop (String.length w) s))).

(** The positions of [s], counted from [i], where [w] stands as a word. *)
Fixpoint word_positions (w : string) (prev : option ascii) (i : nat) (s : string)
    : list nat :=
  match s with
  | EmptyString => []
  | String a s' =>
      ((if word_here w prev s then [i] else []) ++
       word_positions w (Some a) (S i) s')%list
  end.

(** The qualifiers of the five qualified join patterns. *)
Definition qualifiers : list string := ["INNER"; "LEFT"; "RIGHT"; "FULL"; "CROSS"].

(** *** The limit rewrite, in the words of the specification *)

(** [s] holds the clause [LIMIT n]: the keyword in any case, whitespace,
    then the digits of [n], all of them. *)
Definition has_limit_clause (s : string) (n : Z) : Prop :=
  exists pre kwd ws ds post,
    s = pre ++ kwd ++ ws ++ ds ++ post /\
    upper kwd = "LIMIT" /\
    ws <> "" /\ all_chars isspace ws = true /\
    ds <> "" /\ all_chars isdigit ds = true /\
    isdigit_opt (first_char post) = false /\
    int_of_digits ds = n.

(** The text without one trailing semicolon. *)
Definition without_semicolon (s : string) : string :=
  if endswith s ";" then drop_last s else s.

End Spec.

(* ===================================================================== *)
(** ** Shapes of text and of state used in the further statements          *)
(* ===================================================================== *)

Module Shape.

Import PyStr Re Sqlparse Validator Exc.

(** The clause [LIMIT], whitespace, digit stands at the head of [s]. *)
Definition numeric_limit_here (s : string) : bool :=
  startswith s "LIMIT" &&
  class_opt Space (first_char (drop 5 s)) &&
  isdigit_opt (first_char (lstrip_by isspace (drop 5 s))).

(** It stands somewhere in [s]. *)
Fixpoint numeric_limit (s : string) : bool :=
  numeric_limit_here s ||
  match s with
  | EmptyString => false
  | String _ s' => numeric_limit s'
  end.

(** [here] holds at some position of [s]; [prev] is the character before
    [s]. *)
Fixpoint occurs (here : option ascii -> string -> bool) (prev : option ascii)
    (s : string) : bool :=
  here prev s ||
  match s with
  | EmptyString => false
  | String a s' => occurs here (Some a) s'
  end.

(** The number of positions of [s] where [here] holds. *)
Fixpoint count_here (here : option ascii -> string -> bool) (prev : option ascii)
    (s : string) : nat :=
  Spec.flag (here prev s) +
  match s with
  | EmptyString => 0
  | String a s' => count_here here (Some a) s'
  end.

(** The word [q], whitespace, and the word [w] stand at the head of [s],
    after the character [prev]. *)
Definition phrase_here (q w : string) (prev : option ascii) (s : string) : bool :=
  let r := drop (String.length q) s in
  let r' := lstrip_by isspace r in
  startswith s q && negb (isword_opt prev) &&
  class_opt Space (first_char r) &&
  startswith r' w && negb (isword_opt (first_char (drop (String.length w) r'))).

(** The pattern [\bq\s+w\b]. *)
Definition phrase_pattern (q w : string) : regex :=
  (WordB :: lits q ++ [Rep1 Space false] ++ lits w ++ [WordB])%list.

(** The text passes the dangerous pattern check: no semicolon before the
    last character, no comment marker, none of the words EXEC, EXECUTE
    and LOAD_FILE, and no INTO followed by OUTFILE. *)
Definition harmless (sql_query : string) : bool :=
  let sql_upper := upper sql_query in
  negb (Spec.semicolon_before_last sql_query) &&
  negb (contains "--" sql_query) &&
  negb (contains "/*" sql_query) &&
  negb (occurs (Spec.word_here "EXEC") None sql_upper) &&
  negb (occurs (Spec.word_here "EXECUTE") None sql_upper) &&
  negb (occurs (phrase_here "INTO" "OUTFILE") None sql_upper) &&
  negb (occurs (Spec.word_here "LOAD_FILE") None sql_upper).

(** The number of join keywords that carry one of the five qualifiers,
    from a position on and in the whole text. *)
Definition qualified_from (prev : option ascii) (s : string) : nat :=
  list_sum (map (fun q => count_here (phrase_here q "JOIN") prev s) Spec.qualifiers).

Definition qualified_joins (sql_upper : string) : nat :=
  qualified_from None sql_upper.

(** A keyword after which [_extract_tables] looks for a table: FROM, or a
    keyword that holds the letters JOIN. *)
Definition table_keyword (t : token) : bool :=
  ttype_is t Keyword &&
  (String.eqb (upper (value_of t)) "FROM" || contains "JOIN" (upper (value_of t))).

Definition names_table (t : token) : bool :=
  isinstance t IdentifierList || isinstance t Identifier.

(** Some identifier or identifier list is the very next token after such
    a keyword. *)
Fixpoint table_follows (toks : list token) : bool :=
  match toks with
  | [] => false
  | t :: rest =>
      match rest with
      | [] => false
      | t' :: _ => table_keyword t && names_table t'
      end || table_follows rest
  end.

(** The number of occurrences of a character. *)
Fixpoint count_char (c : ascii) (s : string) : nat :=
  match s with
  | EmptyString => 0
  | String a s' => Spec.flag (Ascii.eqb a c) + count_char c s'
  end.

(** What a request may change in [APP_STATE]: it may store a schema where
    there was none and set [rag_loaded]; it keeps the connection
    parameters, the connection id, a schema that is stored and a set
    [rag_loaded]. *)
Definition keeps (st st' : App.app_state) : Prop :=
  App.st_connection_params st' = App.st_connection_params st /\
  App.st_connection_id st' = App.st_connection_id st /\
  (forall schema, App.st_schema st = Some schema -> App.st_schema st' = Some schema) /\
  (App.st_rag_loaded st = true -> App.st_rag_loaded st' = true).

End Shape.

(* ===================================================================== *)
(** ** General facts                                                       *)
(* ===================================================================== *)

Import PyStr Re Sqlparse Exc Validator Executor.

(** *** Facts on strings *)

Lemma sapp_nil_r (s : string) : s ++ "" = s.
Proof. induction s as [|a s IH]; simpl; [reflexivity | by rewrite IH]. Qed.

Lemma sapp_assoc (a b c : string) : (a ++ b) ++ c = a ++ b ++ c.
Proof. induction a as [|x a IH]; simpl; [reflexivity | by rewrite IH]. Qed.

Lemma slength_app (a b : string) :
  String.length (a ++ b) = String.length a + String.length b.
Proof. induction a as [|x a IH]; simpl; [reflexivity | by rewrite IH]. Qed.

Lemma sapp_inj_length (a b c d : string) :
  a ++ b = c ++ d -> String.length a = String.length c -> a = c /\ b = d.
Proof.
  revert c. induction a as [|x a IH]; intros [|y c] H Hl; simpl in *;
    try discriminate; [by split|].
  injection H as -> H. injection Hl as Hl.
  destruct (IH c H Hl) as [-> ->]. by split.
Qed.

(** Two ways of cutting one string: one cut lies before the other. *)
Lemma sapp_eq_app (x u y v : string) :
  x ++ u = y ++ v ->
  (exists d, y = x ++ d /\ u = d ++ v) \/ (exists d, x = y ++ d /\ v = d ++ u).
Proof.
  revert y. induction x as [|a x IH]; intros y H; simpl in *.
  - left. by exists y.
  - destruct y as [|b y]; simpl in *.
    + right. by exists (String a x).
    + injection H as -> H. destruct (IH y H) as [(d & -> & ->) | (d & -> & ->)].
      * left. by exists d.
      * right. by exists d.
Qed.

Lemma upper_app (a b : string) : upper (a ++ b) = upper a ++ upper b.
Proof. induction a as [|x a IH]; simpl; [reflexivity | by rewrite IH]. Qed.

Lemma upper_length (s : string) : String.length (upper s) = String.length s.
Proof. induction s as [|x s IH]; simpl; [reflexivity | by rewrite IH]. Qed.

Lemma all_chars_app (f : ascii -> bool) (a b : string) :
  all_chars f (a ++ b) = all_chars f a && all_chars f b.
Proof.
  induction a as [|x a IH]; simpl; [reflexivity|].
  rewrite IH. by rewrite andb_assoc.
Qed.

Lemma last_char_app (d : option ascii) (a b : string) :
  last_char d (a ++ b) = last_char (last_char d a) b.
Proof. revert d. induction a as [|x a IH]; intros d; simpl; [reflexivity | apply IH]. Qed.

Lemma last_char_cons_default (d d' : option ascii) (a : ascii) (s : string) :
  last_char d (String a s) = last_char d' (String a s).
Proof. reflexivity. Qed.

Lemma last_char_nonempty (d d' : option ascii) (s : string) :
  s <> "" -> last_char d s = last_char d' s.
Proof. destruct s; [congruence | reflexivity]. Qed.

Lemma startswith_app (w s : string) : startswith (w ++ s) w = true.
Proof.
  induction w as [|a w IH]; simpl; [by destruct s|].
  by rewrite Ascii.eqb_refl, IH.
Qed.

Lemma startswith_inv (s w : string) :
  startswith s w = true -> exists s', s = w ++ s'.
Proof.
  revert s. induction w as [|b w IH]; intros s H.
  - by exists s.
  - destruct s as [|a s]; simpl in H; [discriminate|].
    apply andb_true_iff in H as [Hab Hs]. apply Ascii.eqb_eq in Hab as ->.
    destruct (IH s Hs) as [s' ->]. by exists s'.
Qed.

Lemma startswith_nil (s : string) : startswith s "" = true.
Proof. by destruct s. Qed.

Lemma startswith_extend (x y w : string) :
  startswith x w = true -> startswith (x ++ y) w = true.
Proof.
  intros H. destruct (startswith_inv _ _ H) as [x' ->].
  rewrite sapp_assoc. apply startswith_app.
Qed.

Lemma drop_app (w s : string) : drop (String.length w) (w ++ s) = s.
Proof. induction w as [|a w IH]; simpl; [by destruct s | exact IH]. Qed.

Lemma contains_cons (w : string) (a : ascii) (s : string) :
  contains w (String a s) = startswith (String a s) w || contains w s.
Proof. reflexivity. Qed.

Lemma contains_app_r (w x y : string) :
  contains w y = true -> contains w (x ++ y) = true.
Proof.
  intros H. induction x as [|a x IH]; [exact H|].
  cbn [String.append]. rewrite contains_cons, IH. apply orb_true_r.
Qed.

Lemma contains_app_l (w x y : string) :
  contains w x = true -> contains w (x ++ y) = true.
Proof.
  induction x as [|a x IH]; intros H.
  - destruct w; [by destruct y | simpl in H; discriminate].
  - cbn [String.append]. rewrite contains_cons in *.
    apply orb_true_iff in H as [H | H].
    + change (String a (x ++ y)) with (String a x ++ y).
      by rewrite (startswith_extend _ y _ H).
    + rewrite (IH H). apply orb_true_r.
Qed.

Lemma contains_here (w s : string) : contains w (w ++ s) = true.
Proof.
  destruct w as [|a w]; [by destruct s|].
  cbn [String.append]. rewrite contains_cons.
  change (String a (w ++ s)) with (String a w ++ s).
  by rewrite startswith_app.
Qed.

Lemma contains_false_app (w x y : string) :
  contains w (x ++ y) = false -> contains w x = false /\ contains w y = false.
Proof.
  intros H. split.
  - destruct (contains w x) eqn:E; [|reflexivity].
    by rewrite (contains_app_l _ _ y E) in H.
  - destruct (contains w y) eqn:E; [|reflexivity].
    by rewrite (contains_app_r _ x _ E) in H.
Qed.

Lemma contains_char_cons (c a : ascii) (s : string) :
  contains (String c "") (String a s) = Ascii.eqb a c || contains (String c "") s.
Proof.
  cbn [contains startswith]. f_equal. destruct s; apply andb_true_r.
Qed.

Lemma drop_last_cons (a : ascii) (s : string) :
  s <> "" -> drop_last (String a s) = String a (drop_last s).
Proof. destruct s; [congruence | reflexivity]. Qed.

(** *** Facts on stripping *)

Lemma lstrip_suffix (f : ascii -> bool) (s : string) :
  exists l, s = l ++ lstrip_by f s.
Proof.
  induction s as [|a s [l IH]].
  - by exists "".
  - cbn [lstrip_by]. destruct (f a).
    + exists (String a l). cbn [String.append]. by rewrite <- IH.
    + by exists "".
Qed.

Lemma rstrip_prefix (f : ascii -> bool) (s : string) :
  exists r, s = rstrip_by f s ++ r.
Proof.
  induction s as [|a s [r IH]].
  - by exists "".
  - cbn [rstrip_by]. destruct (rstrip_by f s) as [|b t] eqn:Ht.
    + destruct (f a).
      * by exists (String a s).
      * exists r. cbn [String.append] in *. by rewrite <- IH.
    + exists r. cbn [String.append] in *. by rewrite <- IH.
Qed.

Lemma drop_last_prefix (s : string) : exists r, s = drop_last s ++ r.
Proof.
  induction s as [|a s [r IH]].
  - by exists "".
  - destruct s as [|b s].
    + by exists (String a "").
    + exists r. rewrite drop_last_cons by discriminate.
      cbn [String.append]. by rewrite <- IH.
Qed.

Lemma lstrip_app (f : ascii -> bool) (x z : string) :
  class_not f (first_char z) = true ->
  lstrip_by f (x ++ z) = lstrip_by f x ++ z.
Proof.
  intros Hz. induction x as [|a x IH].
  - destruct z as [|c z]; [discriminate Hz|]. simpl in Hz.
    cbn [String.append lstrip_by]. apply negb_true_iff in Hz. by rewrite Hz.
  - cbn [String.append lstrip_by]. destruct (f a); [exact IH | reflexivity].
Qed.

Lemma rstrip_app (f : ascii -> bool) (z y : string) :
  class_not f (last_char None z) = true ->
  rstrip_by f (z ++ y) = z ++ rstrip_by f y.
Proof.
  induction z as [|a z IH]; intros Hz; [discriminate Hz|].
  cbn [String.append rstrip_by]. destruct z as [|b z].
  - simpl in Hz. apply negb_true_iff in Hz. cbn [String.append]. rewrite Hz.
    by destruct (rstrip_by f y).
  - rewrite IH by exact Hz. reflexivity.
Qed.

Lemma strip_around (f : ascii -> bool) (x m y : string) :
  class_not f (first_char m) = true -> class_not f (last_char None m) = true ->
  strip_by f (x ++ m ++ y) = lstrip_by f x ++ m ++ rstrip_by f y.
Proof.
  intros Hf Hl. unfold strip_by.
  rewrite lstrip_app by (destruct m; [discriminate Hf | exact Hf]).
  rewrite <- sapp_assoc, rstrip_app, sapp_assoc; [reflexivity|].
  rewrite last_char_app. destruct m; [discriminate Hf | exact Hl].
Qed.

Lemma first_char_rstrip (f : ascii -> bool) (s : string) :
  first_char (rstrip_by f s) = None \/ first_char (rstrip_by f s) = first_char s.
Proof.
  destruct s as [|a s]; [by left|]. cbn [rstrip_by].
  destruct (rstrip_by f s); [destruct (f a)|]; auto.
Qed.

Lemma contains_strip (w s : string) :
  contains w (upper s) = false -> contains w (strip (upper s)) = false.
Proof.
  intros H. unfold strip, strip_by.
  destruct (lstrip_suffix isspace (upper s)) as [l Hl].
  destruct (rstrip_prefix isspace (lstrip_by isspace (upper s))) as [r Hr].
  rewrite Hl, Hr in H.
  apply contains_false_app in H as [_ H]. by apply contains_false_app in H as [H _].
Qed.

Lemma endswith_drop_last (s : string) :
  endswith s ";" = true -> s = drop_last s ++ ";".
Proof.
  induction s as [|a s IH]; [discriminate|].
  cbn [endswith]. intros H. apply orb_true_iff in H as [H | H].
  - apply String.eqb_eq in H. by rewrite H.
  - destruct s as [|b s]; [discriminate H|].
    rewrite drop_last_cons by discriminate. cbn [String.append]. by rewrite <- IH.
Qed.

Lemma drop_last_app (x y : string) :
  y <> "" -> drop_last (x ++ y) = x ++ drop_last y.
Proof.
  intros Hy. induction x as [|a x IH]; [reflexivity|].
  cbn [String.append]. rewrite drop_last_cons; [by rewrite IH|].
  destruct x; [exact Hy | discriminate].
Qed.

Lemma endswith_app (x y : string) :
  y <> "" -> endswith (x ++ y) ";" = endswith y ";".
Proof.
  intros Hy. induction x as [|a x IH]; [reflexivity|].
  cbn [String.append endswith]. rewrite IH.
  destruct (x ++ y) as [|b t] eqn:E.
  - destruct x; [simpl in E; congruence | discriminate E].
  - replace (String a (String b t) =? ";")%string with false; [reflexivity|].
    symmetry. apply String.eqb_neq. discriminate.
Qed.

(** *** Character classes *)

Ltac all_chars_cases a :=
  destruct a as [[] [] [] [] [] [] [] []]; try reflexivity; try discriminate.

Lemma space_not_word (a : ascii) : isspace a = true -> isword a = false.
Proof. all_chars_cases a. Qed.

Lemma space_not_digit (a : ascii) : isspace a = true -> isdigit a = false.
Proof. all_chars_cases a. Qed.

Lemma digit_not_space (a : ascii) : isdigit a = true -> isspace a = false.
Proof. all_chars_cases a. Qed.

Lemma isspace_upper (a : ascii) : isspace (upper_char a) = isspace a.
Proof. all_chars_cases a. Qed.

Lemma isdigit_upper (a : ascii) : isdigit (upper_char a) = isdigit a.
Proof. all_chars_cases a. Qed.

Lemma isword_upper (a : ascii) : isword (upper_char a) = isword a.
Proof. all_chars_cases a. Qed.

Lemma upper_char_idem (a : ascii) : upper_char (upper_char a) = upper_char a.
Proof. all_chars_cases a. Qed.

Lemma upper_space (a : ascii) : isspace a = true -> upper_char a = a.
Proof. all_chars_cases a. Qed.

Lemma upper_digit (a : ascii) : isdigit a = true -> upper_char a = a.
Proof. all_chars_cases a. Qed.

Lemma last_space (d : option ascii) (ws : string) :
  ws <> "" -> all_chars isspace ws = true ->
  class_opt Space (last_char d ws) = true.
Proof.
  revert d. induction ws as [|a ws IH]; intros d Hne Hall; [congruence|].
  simpl in Hall. apply andb_true_iff in Hall as [Ha Hall].
  destruct ws as [|b ws]; [exact Ha|].
  cbn [last_char]. apply (IH (Some a)); [discriminate | exact Hall].
Qed.

Lemma space_opt_not_word (o : option ascii) :
  class_opt Space o = true -> isword_opt o = false.
Proof. destruct o as [a|]; [apply space_not_word | discriminate]. Qed.

(** Two texts that end in blanks after a last visible character are cut
    at the same place. *)
Lemma space_suffix_unique (x w y v : string) :
  x ++ w = y ++ v ->
  all_chars isspace w = true -> all_chars isspace v = true ->
  class_opt Space (last_char None x) = false ->
  class_opt Space (last_char None y) = false ->
  x = y /\ w = v.
Proof.
  intros H Hw Hv Hx Hy.
  destruct (sapp_eq_app _ _ _ _ H) as [(d & -> & ->) | (d & -> & ->)].
  - rewrite all_chars_app in Hw. apply andb_true_iff in Hw as [Hd _].
    destruct d as [|c d]; [by rewrite sapp_nil_r|].
    rewrite last_char_app in Hy.
    rewrite (last_space _ (String c d)) in Hy; [discriminate | discriminate | exact Hd].
  - rewrite all_chars_app in Hv. apply andb_true_iff in Hv as [Hd _].
    destruct d as [|c d]; [by rewrite sapp_nil_r|].
    rewrite last_char_app in Hx.
    rewrite (last_space _ (String c d)) in Hx; [discriminate | discriminate | exact Hd].
Qed.

(** *** Facts on the matcher *)

Lemma match_here_lits_inv (w : string) (p : regex) (prev : option ascii) (s : string)
    (n : nat) (g : list string) :
  match_here false (lits w ++ p)%list prev s = Some (n, g) ->
  exists s' n',
    s = w ++ s' /\ n = String.length w + n' /\
    match_here false p (last_char prev w) s' = Some (n', g).
Proof.
  revert prev s n. induction w as [|c w IH]; intros prev s n H.
  - exists s, n. by repeat split.
  - cbn [lits app match_here] in H. destruct s as [|a s]; [discriminate|].
    unfold chr_eq in H. destruct (Ascii.eqb a c) eqn:Hac; [|discriminate].
    apply Ascii.eqb_eq in Hac as ->.
    destruct (match_here false (lits w ++ p)%list (Some c) s) as [[n1 g1]|] eqn:Hm;
      [|discriminate].
    injection H as <- <-. destruct (IH _ _ _ Hm) as (s' & n' & -> & -> & Hk).
    exists s', n'. by repeat split.
Qed.

Lemma match_here_lits (w : string) (p : regex) (prev : option ascii) (s' : string) :
  match_here false (lits w ++ p)%list prev (w ++ s') =
    match match_here false p (last_char prev w) s' with
    | Some (n, g) => Some (String.length w + n, g)
    | None => None
    end.
Proof.
  revert prev. induction w as [|c w IH]; intros prev.
  - cbn [lits app String.append last_char String.length].
    by destruct (match_here false p prev s') as [[n g]|].
  - cbn [lits app String.append match_here last_char String.length].
    unfold chr_eq. rewrite Ascii.eqb_refl, IH.
    by destruct (match_here false p (last_char (Some c) w) s') as [[n g]|].
Qed.

Lemma rep1_not_in_class (cls : charclass) (k : option ascii -> string -> option matched)
    (s : string) :
  class_opt cls (first_char s) = false -> rep1 cls k s = None.
Proof. destruct s as [|a s]; simpl; [reflexivity | by intros ->]. Qed.

(** A successful repetition consumed a non-empty run of the class, after
    which the continuation succeeded. *)
Lemma rep1_inv (cls : charclass) (k : option ascii -> string -> option matched)
    (s : string) (m : nat) (r : matched) :
  rep1 cls k s = Some (m, r) ->
  exists w s',
    s = w ++ s' /\ String.length w = m /\ w <> "" /\
    all_chars (in_class cls) w = true /\ k (last_char None w) s' = Some r.
Proof.
  revert m. induction s as [|a s IH]; intros m H; simpl in H; [discriminate|].
  destruct (in_class cls a) eqn:Ha; [|discriminate].
  destruct (rep1 cls k s) as [[m1 r1]|] eqn:Hr.
  - injection H as <- <-. destruct (IH _ eq_refl) as (w & s' & -> & <- & Hw & Hall & Hk).
    exists (String a w), s'. repeat split; try done.
    + simpl. by rewrite Ha, Hall.
    + cbn [last_char]. by rewrite (last_char_nonempty (Some a) None w Hw).
  - destruct (k (Some a) s) as [r1|] eqn:Hk; [|discriminate].
    injection H as <- <-. exists (String a ""), s. repeat split; try done.
    simpl. by rewrite Ha.
Qed.

(** The run is taken whole when the continuation accepts after it. *)
Lemma rep1_run_some (cls : charclass) (k : option ascii -> string -> option matched)
    (w s' : string) (r : matched) :
  w <> "" -> all_chars (in_class cls) w = true ->
  class_opt cls (first_char s') = false ->
  k (last_char None w) s' = Some r ->
  rep1 cls k (w ++ s') = Some (String.length w, r).
Proof.
  induction w as [|a w IH]; intros Hne Hall Hs' Hk; [congruence|].
  simpl in Hall. apply andb_true_iff in Hall as [Ha Hall].
  cbn [String.append rep1 String.length]. rewrite Ha.
  destruct w as [|b w].
  - cbn [String.append]. rewrite (rep1_not_in_class _ _ _ Hs'). simpl in Hk. by rewrite Hk.
  - rewrite IH; try done.
Qed.

(** When the continuation refuses every text that begins in the class, no
    shorter run is accepted either. *)
Lemma rep1_run_none (cls : charclass) (k : option ascii -> string -> option matched)
    (w s' : string) :
  w <> "" -> all_chars (in_class cls) w = true ->
  class_opt cls (first_char s') = false ->
  (forall prev x, class_opt cls (first_char x) = true -> k prev x = None) ->
  k (last_char None w) s' = None ->
  rep1 cls k (w ++ s') = None.
Proof.
  induction w as [|a w IH]; intros Hne Hall Hs' Hcls Hk; [congruence|].
  simpl in Hall. apply andb_true_iff in Hall as [Ha Hall].
  cbn [String.append rep1]. rewrite Ha.
  destruct w as [|b w].
  - cbn [String.append]. rewrite (rep1_not_in_class _ _ _ Hs'). simpl in Hk. by rewrite Hk.
  - rewrite IH; try done. rewrite Hcls; [reflexivity|].
    simpl in Hall. apply andb_true_iff in Hall as [Hb _]. exact Hb.
Qed.

Lemma substring_app (w s : string) : substring 0 (String.length w) (w ++ s) = w.
Proof.
  induction w as [|a w IH]; simpl; [by destruct s | by rewrite IH].
Qed.

(** *** Facts on scanning *)

Section Scanning.

Variable ic : bool.
Variable p : regex.

Lemma no_match_within_tail (prev : option ascii) (a : ascii) (x y : string) :
  no_match_within ic p prev (String a x) y -> no_match_within ic p (Some a) x y.
Proof.
  intros H a1 a2 -> Hne. apply (H (String a a1) a2); [reflexivity | exact Hne].
Qed.

Lemma no_match_within_head (prev : option ascii) (a : ascii) (x y : string) :
  no_match_within ic p prev (String a x) y ->
  match_here ic p prev (String a (x ++ y)) = None.
Proof. intros H. apply (H "" (String a x)); [reflexivity | discriminate]. Qed.

Lemma findall_go_skip (prev : option ascii) (m rest : string) :
  findall_go ic p prev (String.length m) (m ++ rest) =
  findall_go ic p (last_char prev m) 0 rest.
Proof.
  revert prev. induction m as [|a m IH]; intros prev.
  - reflexivity.
  - cbn [String.length String.append findall_go last_char]. apply IH.
Qed.

Lemma findall_go_no_match (prev : option ascii) (x y : string) :
  no_match_within ic p prev x y ->
  findall_go ic p prev 0 (x ++ y) = findall_go ic p (last_char prev x) 0 y.
Proof.
  revert prev. induction x as [|a x IH]; intros prev H.
  - reflexivity.
  - cbn [String.append findall_go last_char].
    rewrite (no_match_within_head _ _ _ _ H).
    apply IH. by apply no_match_within_tail with prev.
Qed.

Lemma findall_go_match (prev : option ascii) (m rest : string) (g : list string) :
  m <> "" ->
  match_here ic p prev (m ++ rest) = Some (String.length m, g) ->
  findall_go ic p prev 0 (m ++ rest) = m :: findall_go ic p (last_char prev m) 0 rest.
Proof.
  intros Hne Hm. destruct m as [|a m]; [congruence|].
  change (String a m ++ rest) with (String a (m ++ rest)) in *.
  cbn [findall_go]. rewrite Hm.
  change (String a (m ++ rest)) with (String a m ++ rest) at 1.
  rewrite substring_app.
  cbn [String.length pred last_char]. f_equal. apply findall_go_skip.
Qed.

Lemma findall_go_end (prev : option ascii) :
  match_here ic p prev "" = None -> findall_go ic p prev 0 "" = [].
Proof. intros H. cbn [findall_go]. by rewrite H. Qed.

Variable repl : string.

Lemma sub_go_skip (prev : option ascii) (m rest : string) :
  sub_go ic p repl prev (String.length m) (m ++ rest) =
  sub_go ic p repl (last_char prev m) 0 rest.
Proof.
  revert prev. induction m as [|a m IH]; intros prev.
  - reflexivity.
  - cbn [String.length String.append sub_go last_char]. apply IH.
Qed.

Lemma sub_go_no_match (prev : option ascii) (x y : string) :
  no_match_within ic p prev x y ->
  sub_go ic p repl prev 0 (x ++ y) = x ++ sub_go ic p repl (last_char prev x) 0 y.
Proof.
  revert prev. induction x as [|a x IH]; intros prev H.
  - reflexivity.
  - cbn [String.append sub_go last_char].
    rewrite (no_match_within_head _ _ _ _ H). f_equal.
    apply IH. by apply no_match_within_tail with prev.
Qed.

Lemma sub_go_match (prev : option ascii) (m rest : string) (g : list string) :
  m <> "" ->
  match_here ic p prev (m ++ rest) = Some (String.length m, g) ->
  sub_go ic p repl prev 0 (m ++ rest) = repl ++ sub_go ic p repl (last_char prev m) 0 rest.
Proof.
  intros Hne Hm. destruct m as [|a m]; [congruence|].
  change (String a m ++ rest) with (String a (m ++ rest)) in *.
  cbn [sub_go]. rewrite Hm.
  cbn [String.length last_char]. f_equal. apply sub_go_skip.
Qed.

Lemma sub_go_end (prev : option ascii) :
  match_here ic p prev "" = None -> sub_go ic p repl prev 0 "" = "".
Proof. intros H. cbn [sub_go]. by rewrite H. Qed.

Lemma search_from_first (prev : option ascii) (x y : string) (n : nat) (g : list string) :
  no_match_within ic p prev x y ->
  match_here ic p (last_char prev x) y = Some (n, g) ->
  search_from ic p prev (x ++ y) = Some (String.length x, n, g).
Proof.
  revert prev. induction x as [|a x IH]; intros prev H Hm.
  - cbn [String.append last_char String.length] in *.
    destruct y; cbn [search_from]; by rewrite Hm.
  - cbn [String.append search_from last_char String.length] in *.
    rewrite (no_match_within_head _ _ _ _ H).
    rewrite (IH (Some a)); [reflexivity | by apply no_match_within_tail with prev | exact Hm].
Qed.

End Scanning.

(* ===================================================================== *)
(** ** Results on query_executor.py *)
(* ===================================================================== *)

(** *** The limit pattern *)

Lemma upper_idem (s : string) : upper (upper s) = upper s.
Proof. induction s as [|a s IH]; simpl; [reflexivity|]. by rewrite upper_char_idem, IH. Qed.

Lemma upper_spaces (s : string) : all_chars isspace s = true -> upper s = s.
Proof.
  induction s as [|a s IH]; simpl; [reflexivity|]. intros H.
  apply andb_true_iff in H as [Ha Hs]. by rewrite (upper_space a Ha), (IH Hs).
Qed.

Lemma upper_digits (s : string) : all_chars isdigit s = true -> upper s = s.
Proof.
  induction s as [|a s IH]; simpl; [reflexivity|]. intros H.
  apply andb_true_iff in H as [Ha Hs]. by rewrite (upper_digit a Ha), (IH Hs).
Qed.

Lemma last_digit (d : option ascii) (ds : string) :
  ds <> "" -> all_chars isdigit ds = true ->
  class_opt Digit (last_char d ds) = true.
Proof.
  revert d. induction ds as [|a ds IH]; intros d Hne Hall; [congruence|].
  simpl in Hall. apply andb_true_iff in Hall as [Ha Hall].
  destruct ds as [|b ds]; [exact Ha|].
  cbn [last_char]. apply (IH (Some a)); [discriminate | exact Hall].
Qed.

(** Literals under [re.IGNORECASE]. *)
Lemma match_here_lits_ic (w k : string) (p : regex) (prev : option ascii) (s' : string) :
  upper k = upper w ->
  match_here true (lits w ++ p)%list prev (k ++ s') =
    match match_here true p (last_char prev k) s' with
    | Some (n, g) => Some (String.length k + n, g)
    | None => None
    end.
Proof.
  revert k prev. induction w as [|c w IH]; intros [|a k] prev H; simpl in H;
    try discriminate.
  - cbn [lits app String.append last_char String.length].
    by destruct (match_here true p prev s') as [[n g]|].
  - injection H as Hc Hk.
    cbn [lits app String.append match_here last_char String.length].
    unfold chr_eq. rewrite Hc, Ascii.eqb_refl, (IH _ _ Hk).
    by destruct (match_here true p (last_char (Some a) k) s') as [[n g]|].
Qed.

(** A match of a pattern that begins with a literal begins, letter case
    apart, with the literal. *)
Lemma match_here_lits_upper (ic : bool) (w : string) (p : regex) (prev : option ascii)
    (s : string) (r : matched) :
  match_here ic (lits w ++ p)%list prev s = Some r ->
  startswith (upper s) (upper w) = true.
Proof.
  revert prev s r. induction w as [|c w IH]; intros prev s r H.
  - apply startswith_nil.
  - cbn [lits app match_here] in H. destruct s as [|a s]; [discriminate|].
    destruct (chr_eq ic c a) eqn:Hc; [|discriminate].
    destruct (match_here ic (lits w ++ p)%list (Some a) s) as [[n g]|] eqn:Hm;
      [|discriminate].
    cbn [upper startswith]. rewrite (IH _ _ _ Hm), andb_true_r.
    apply Ascii.eqb_eq. unfold chr_eq in Hc. destruct ic.
    + by apply Ascii.eqb_eq in Hc.
    + apply Ascii.eqb_eq in Hc. by subst.
Qed.

(** *** Clauses with a number *)

Lemma lstrip_all (f : ascii -> bool) (w z : string) :
  all_chars f w = true -> class_not f (first_char z) = true ->
  lstrip_by f (w ++ z) = z.
Proof.
  intros Hw Hz. rewrite (lstrip_app f w z Hz).
  replace (lstrip_by f w) with "" ; [reflexivity|].
  clear Hz. induction w as [|a w IH]; [reflexivity|]. simpl in *.
  apply andb_true_iff in Hw as [-> Hw]. by apply IH.
Qed.

Lemma first_char_app (x y : string) :
  x <> "" -> first_char (x ++ y) = first_char x.
Proof. destruct x; [congruence | reflexivity]. Qed.

Lemma first_char_class (cls : charclass) (w : string) :
  w <> "" -> all_chars (in_class cls) w = true -> class_opt cls (first_char w) = true.
Proof.
  destruct w as [|a w]; [congruence|]. simpl. intros _ H.
  by apply andb_true_iff in H as [H _].
Qed.

(** A match of a pattern that begins with a literal splits the text
    after as many characters as the literal has. *)
Lemma match_here_lits_split (ic : bool) (w : string) (p : regex) (prev : option ascii)
    (s : string) (r : matched) :
  match_here ic (lits w ++ p)%list prev s = Some r ->
  exists k s' r',
    s = k ++ s' /\ String.length k = String.length w /\
    match_here ic p (last_char prev k) s' = Some r'.
Proof.
  revert prev s r. induction w as [|c w IH]; intros prev s r H.
  - by exists "", s, r.
  - cbn [lits app match_here] in H. destruct s as [|a s]; [discriminate|].
    destruct (chr_eq ic c a); [|discriminate].
    destruct (match_here ic (lits w ++ p)%list (Some a) s) as [r1|] eqn:Hm;
      [|discriminate].
    destruct (IH _ _ _ Hm) as (k & s' & r' & -> & Hlen & Hk).
    exists (String a k), s', r'. cbn [String.append String.length last_char].
    by rewrite Hlen.
Qed.

(** A match of either limit pattern is, letter case apart, a clause with
    a number. *)
Lemma limit_match_numeric (ic captured : bool) (prev : option ascii) (s : string)
    (r : matched) :
  match_here ic (lits "LIMIT" ++ [Rep1 Space false; Rep1 Digit captured])%list prev s
    = Some r ->
  Shape.numeric_limit_here (upper s) = true.
Proof.
  intros H. pose proof (match_here_lits_upper _ _ _ _ _ _ H) as Hs.
  change (upper "LIMIT") with "LIMIT" in Hs.
  apply match_here_lits_split in H as (k & s1 & [n g] & -> & Hlen & H).
  cbn [match_here] in H.
  destruct (rep1 Space _ s1) as [[m [n2 g2]]|] eqn:Hr; [|discriminate].
  apply rep1_inv in Hr as (ws & s2 & -> & _ & Hws & Hsp & Hk).
  destruct (rep1 Digit _ s2) as [[m' [n3 g3]]|] eqn:Hd; [|discriminate].
  apply rep1_inv in Hd as (ds & s3 & -> & _ & Hds & Hdg & _).
  unfold Shape.numeric_limit_here. rewrite Hs. cbn [andb].
  rewrite upper_app.
  replace 5 with (String.length (upper k)) by (by rewrite upper_length, Hlen).
  rewrite drop_app, !upper_app, (upper_spaces ws Hsp), (upper_digits ds Hdg).
  rewrite (first_char_app ws _ Hws), (first_char_class Space ws Hws Hsp). cbn [andb].
  assert (isdigit_opt (first_char (ds ++ upper s3)) = true) as Hfd.
  { rewrite (first_char_app ds _ Hds). destruct ds as [|d ds]; [congruence|].
    simpl in *. by apply andb_true_iff in Hdg as [Hd _]. }
  rewrite lstrip_all; [exact Hfd | exact Hsp |].
  destruct (ds ++ upper s3) as [|d t]; [discriminate Hfd|]. simpl in *.
  by rewrite (digit_not_space d Hfd).
Qed.

Lemma numeric_limit_here_app (x y : string) :
  Shape.numeric_limit_here x = true -> Shape.numeric_limit_here (x ++ y) = true.
Proof.
  unfold Shape.numeric_limit_here. intros H.
  apply andb_true_iff in H as [H Hd]. apply andb_true_iff in H as [Hs Hsp].
  destruct (startswith_inv _ _ Hs) as [x' ->].
  rewrite sapp_assoc, startswith_app.
  change 5 with (String.length "LIMIT") in *. rewrite drop_app in *.
  destruct x' as [|a x']; [discriminate Hsp|]. cbn [String.append first_char] in *.
  rewrite Hsp. cbn [andb].
  change (String a (x' ++ y)) with (String a x' ++ y).
  revert Hd. generalize (String a x') as z. clear.
  induction z as [|b z IH]; [discriminate|]. cbn [String.append lstrip_by].
  destruct (isspace b); [exact IH | by intros H].
Qed.

Lemma numeric_limit_app_l (x y : string) :
  Shape.numeric_limit x = true -> Shape.numeric_limit (x ++ y) = true.
Proof.
  induction x as [|a x IH]; intros H; [discriminate H|].
  cbn [String.append Shape.numeric_limit] in *.
  apply orb_true_iff in H as [H | H].
  - change (String a (x ++ y)) with (String a x ++ y).
    by rewrite (numeric_limit_here_app _ y H).
  - rewrite (IH H). apply orb_true_r.
Qed.

Lemma numeric_limit_app_r (x y : string) :
  Shape.numeric_limit y = true -> Shape.numeric_limit (x ++ y) = true.
Proof.
  intros H. induction x as [|a x IH]; [exact H|].
  cbn [String.append Shape.numeric_limit]. rewrite IH. apply orb_true_r.
Qed.

Lemma numeric_limit_false_app (x y : string) :
  Shape.numeric_limit (x ++ y) = false ->
  Shape.numeric_limit x = false /\ Shape.numeric_limit y = false.
Proof.
  intros H. split.
  - destruct (Shape.numeric_limit x) eqn:E; [|reflexivity].
    by rewrite (numeric_limit_app_l x y E) in H.
  - destruct (Shape.numeric_limit y) eqn:E; [|reflexivity].
    by rewrite (numeric_limit_app_r x y E) in H.
Qed.

(** A text without the letters LIMIT has no clause with a number. *)
Lemma contains_numeric_limit (s : string) :
  contains "LIMIT" s = false -> Shape.numeric_limit s = false.
Proof.
  induction s as [|a s IH]; [reflexivity|].
  rewrite contains_cons. intros H. apply orb_false_iff in H as [Hs Hc].
  cbn [Shape.numeric_limit]. rewrite (IH Hc), orb_false_r.
  unfold Shape.numeric_limit_here. by rewrite Hs.
Qed.

(** The keyword does not overlap itself. *)
Lemma limit_no_straddle (u v : string) :
  u <> "" -> v = "" \/ startswith v "LIMIT" = true ->
  startswith (u ++ v) "LIMIT" = true -> startswith u "LIMIT" = true.
Proof.
  intros Hu Hv H.
  assert (v = "" \/ exists v', v = "LIMIT" ++ v') as Hv'.
  { destruct Hv as [-> | Hv]; [by left | right; by apply startswith_inv]. }
  clear Hv.
  destruct u as [|c1 [|c2 [|c3 [|c4 [|c5 u]]]]]; [congruence|..];
    destruct Hv' as [-> | [v' ->]]; cbn in H |- *;
    rewrite ?startswith_nil in *; rewrite ?andb_false_r in H;
    try discriminate H; exact H.
Qed.

(** A clause with a number that begins in [u] and is followed by the
    keyword, or by nothing, lies in [u]. *)
Lemma numeric_limit_here_cut (u v : string) :
  u <> "" -> v = "" \/ startswith v "LIMIT" = true ->
  Shape.numeric_limit_here (u ++ v) = true -> Shape.numeric_limit_here u = true.
Proof.
  intros Hu Hv H. pose proof Hv as [-> | Hv']; [by rewrite sapp_nil_r in H|].
  unfold Shape.numeric_limit_here in *.
  apply andb_true_iff in H as [H Hd]. apply andb_true_iff in H as [Hs Hsp].
  pose proof (limit_no_straddle u v Hu Hv Hs) as Hus. rewrite Hus. cbn [andb].
  destruct (startswith_inv _ _ Hus) as [u' ->].
  destruct (startswith_inv _ _ Hv') as [v' ->].
  rewrite sapp_assoc in Hsp, Hd.
  change 5 with (String.length "LIMIT") in *. rewrite drop_app in *.
  destruct u' as [|a u'].
  - discriminate Hsp.
  - cbn [String.append first_char] in Hsp |- *. rewrite Hsp. cbn [andb].
    rewrite (lstrip_app isspace (String a u') ("LIMIT" ++ v')) in Hd by reflexivity.
    destruct (lstrip_by isspace (String a u')) as [|b t]; [discriminate Hd | exact Hd].
Qed.

Lemma limit_no_match_within (ic captured : bool) (prev : option ascii) (x y : string) :
  Shape.numeric_limit (upper x) = false ->
  y = "" \/ startswith (upper y) "LIMIT" = true ->
  no_match_within ic (lits "LIMIT" ++ [Rep1 Space false; Rep1 Digit captured])%list
    prev x y.
Proof.
  intros Hx Hy a1 a2 -> Ha2.
  destruct (match_here _ _ _ _) as [r|] eqn:Hm; [|reflexivity]. exfalso.
  apply limit_match_numeric in Hm. rewrite upper_app in Hm.
  apply numeric_limit_here_cut in Hm.
  - rewrite upper_app in Hx. apply numeric_limit_false_app in Hx as [_ Hx].
    destruct (upper a2); cbn [Shape.numeric_limit] in Hx; by rewrite Hm in Hx.
  - destruct a2; [congruence | discriminate].
  - destruct Hy as [-> | Hy]; [by left | by right].
Qed.

(** The clause [LIMIT ws ds] is matched whole. *)
Lemma limit_clause_match (ic captured : bool) (prev : option ascii)
    (kwd ws ds rest : string) :
  (if ic then upper kwd = "LIMIT" else kwd = "LIMIT") ->
  ws <> "" -> all_chars isspace ws = true ->
  ds <> "" -> all_chars isdigit ds = true ->
  isdigit_opt (first_char rest) = false ->
  match_here ic (lits "LIMIT" ++ [Rep1 Space false; Rep1 Digit captured])%list prev
    (kwd ++ ws ++ ds ++ rest) =
    Some (String.length (kwd ++ ws ++ ds), if captured then [ds] else []).
Proof.
  intros Hk Hws Hsp Hds Hdg Hrest.
  assert (match_here ic [Rep1 Space false; Rep1 Digit captured] (last_char prev kwd)
            (ws ++ ds ++ rest) =
          Some (String.length ws + String.length ds, if captured then [ds] else []))
    as Hm.
  { cbn [match_here].
    rewrite (rep1_run_some Space _ ws (ds ++ rest)
               (String.length ds, if captured then [ds] else [])); try done.
    - destruct ds as [|d ds]; [congruence|]. simpl in Hdg |- *.
      apply andb_true_iff in Hdg as [Hd _]. by apply digit_not_space.
    - rewrite (rep1_run_some Digit _ ds rest (0, [])); try done.
      by rewrite substring_app, Nat.add_0_r. }
  destruct ic.
  - rewrite match_here_lits_ic by exact Hk. rewrite Hm.
    by rewrite !slength_app.
  - subst kwd. rewrite match_here_lits. rewrite Hm. by rewrite !slength_app.
Qed.

Lemma limit_no_match_end (ic : bool) (p : regex) (prev : option ascii) :
  match_here ic (lits "LIMIT" ++ p)%list prev "" = None.
Proof. reflexivity. Qed.

(** The substitution on a text with a single clause. *)
Lemma limit_sub_single (repl pre kwd ws ds post : string) :
  upper kwd = "LIMIT" ->
  ws <> "" -> all_chars isspace ws = true ->
  ds <> "" -> all_chars isdigit ds = true ->
  isdigit_opt (first_char post) = false ->
  Shape.numeric_limit (upper pre) = false -> Shape.numeric_limit (upper post) = false ->
  sub true limit_sub_re repl (pre ++ kwd ++ ws ++ ds ++ post) = pre ++ repl ++ post.
Proof.
  intros Hk Hws Hsp Hds Hdg Hpost Hpre Hpost'. unfold sub, limit_sub_re.
  rewrite sub_go_no_match.
  - replace (kwd ++ ws ++ ds ++ post) with ((kwd ++ ws ++ ds) ++ post)
      by (by rewrite !sapp_assoc).
    rewrite (sub_go_match _ _ _ _ (kwd ++ ws ++ ds) post []).
    + do 2 f_equal. rewrite <- (sapp_nil_r post) at 1.
      rewrite sub_go_no_match.
      * rewrite sub_go_end by apply limit_no_match_end. apply sapp_nil_r.
      * apply limit_no_match_within; [exact Hpost' | by left].
    + destruct kwd; [discriminate Hk | discriminate].
    + rewrite !sapp_assoc. by apply (limit_clause_match true false).
  - apply limit_no_match_within; [exact Hpre | right].
    rewrite !upper_app, Hk. apply startswith_app.
Qed.

(** The search on a text whose first keyword opens a clause. *)
Lemma limit_search_first (pre ws ds post : string) :
  ws <> "" -> all_chars isspace ws = true ->
  ds <> "" -> all_chars isdigit ds = true ->
  isdigit_opt (first_char post) = false ->
  Shape.numeric_limit (upper pre) = false ->
  search false limit_search_re (pre ++ "LIMIT" ++ ws ++ ds ++ post) =
    Some (String.length pre, String.length ("LIMIT" ++ ws ++ ds), [ds]).
Proof.
  intros Hws Hsp Hds Hdg Hpost Hpre. unfold search, limit_search_re.
  apply search_from_first.
  - apply limit_no_match_within; [exact Hpre | right].
    rewrite upper_app. apply (startswith_app "LIMIT").
  - by apply (limit_clause_match false true).
Qed.

(** *** The limit rewrite *)

Lemma digits_no_semicolon (ds : string) :
  all_chars isdigit ds = true -> endswith ds ";" = false.
Proof.
  induction ds as [|a ds IH]; [reflexivity|]. cbn [all_chars endswith]. intros H.
  apply andb_true_iff in H as [Ha Hs]. rewrite (IH Hs), orb_false_r.
  apply String.eqb_neq. intros E. injection E as -> _. discriminate Ha.
Qed.

Lemma digit_opt_not_space (o : option ascii) :
  class_opt Digit o = true -> class_not isspace o = true.
Proof.
  destruct o as [a|]; [|discriminate]. simpl. intros H.
  by rewrite (digit_not_space a H).
Qed.

Lemma first_char_upper_digit (s : string) :
  isdigit_opt (first_char (upper s)) = isdigit_opt (first_char s).
Proof. destruct s as [|a s]; [reflexivity | apply isdigit_upper]. Qed.

Lemma first_char_drop_last (s : string) :
  first_char (drop_last s) = None \/ first_char (drop_last s) = first_char s.
Proof. destruct s as [|a [|b s]]; auto. Qed.

Lemma keyword_first_visible (kwd : string) :
  upper kwd = "LIMIT" -> class_not isspace (first_char kwd) = true.
Proof.
  destruct kwd as [|c k]; [discriminate|]. simpl. intros H. injection H as Hc _.
  by rewrite <- isspace_upper, Hc.
Qed.

Section OneLimitClause.

Variables pre kwd ws ds post : string.

Hypothesis Hk : upper kwd = "LIMIT".
Hypothesis Hws : ws <> "".
Hypothesis Hsp : all_chars isspace ws = true.
Hypothesis Hds : ds <> "".
Hypothesis Hdg : all_chars isdigit ds = true.
Hypothesis Hpost : isdigit_opt (first_char post) = false.
Hypothesis Hpre' : Shape.numeric_limit (upper pre) = false.
Hypothesis Hpost' : Shape.numeric_limit (upper post) = false.

Lemma clause_last_visible (k : string) :
  class_not isspace (last_char None (k ++ ws ++ ds)) = true.
Proof.
  rewrite !last_char_app. apply digit_opt_not_space. by apply last_digit.
Qed.

(** The upper-cased, trimmed text and what the search finds in it. *)
Lemma limit_upper_text :
  strip (upper (pre ++ kwd ++ ws ++ ds ++ post)) =
    lstrip_by isspace (upper pre) ++ ("LIMIT" ++ ws ++ ds) ++
    rstrip_by isspace (upper post).
Proof.
  rewrite !upper_app, Hk, (upper_spaces ws Hsp), (upper_digits ds Hdg).
  replace ("LIMIT" ++ ws ++ ds ++ upper post) with (("LIMIT" ++ ws ++ ds) ++ upper post)
    by (by rewrite !sapp_assoc).
  apply strip_around; [reflexivity | apply clause_last_visible].
Qed.

Lemma limit_upper_search :
  search false limit_search_re (strip (upper (pre ++ kwd ++ ws ++ ds ++ post))) =
    Some (String.length (lstrip_by isspace (upper pre)),
          String.length ("LIMIT" ++ ws ++ ds), [ds]).
Proof.
  rewrite limit_upper_text, !sapp_assoc. apply limit_search_first; try done.
  - destruct (first_char_rstrip isspace (upper post)) as [-> | ->]; [reflexivity|].
    by rewrite first_char_upper_digit.
  - destruct (lstrip_suffix isspace (upper pre)) as [l Hl].
    pose proof Hpre' as H. rewrite <- upper_idem, Hl, upper_app in H.
    by apply numeric_limit_false_app in H as [_ H].
Qed.

Lemma limit_upper_contains :
  contains "LIMIT" (strip (upper (pre ++ kwd ++ ws ++ ds ++ post))) = true.
Proof.
  rewrite limit_upper_text. apply contains_app_r. rewrite sapp_assoc.
  apply (contains_here "LIMIT").
Qed.

(** The text the rewrite starts from when a semicolon ends the query. *)
Lemma limit_stripped_text :
  post <> "" ->
  strip (drop_last (pre ++ kwd ++ ws ++ ds ++ post)) =
    lstrip_by isspace pre ++ (kwd ++ ws ++ ds) ++ rstrip_by isspace (drop_last post).
Proof.
  intros Hne.
  assert (pre ++ kwd ++ ws ++ ds ++ post = (pre ++ (kwd ++ ws ++ ds)) ++ post) as ->
    by (by rewrite !sapp_assoc).
  rewrite (drop_last_app _ _ Hne), (sapp_assoc pre).
  apply strip_around; [|apply clause_last_visible].
  destruct kwd as [|c k]; [discriminate Hk|]. by apply (keyword_first_visible (String c k)).
Qed.

Lemma limit_semicolon_post :
  endswith (pre ++ kwd ++ ws ++ ds ++ post) ";" = true -> post <> "".
Proof.
  intros H ->. rewrite sapp_nil_r in H.
  replace (pre ++ kwd ++ ws ++ ds) with ((pre ++ kwd ++ ws) ++ ds) in H
    by (by rewrite !sapp_assoc).
  rewrite (endswith_app _ _ Hds), (digits_no_semicolon _ Hdg) in H. discriminate H.
Qed.

Lemma limit_sub_stripped (repl : string) :
  sub true limit_sub_re repl
    (lstrip_by isspace pre ++ (kwd ++ ws ++ ds) ++ rstrip_by isspace (drop_last post)) =
  lstrip_by isspace pre ++ repl ++ rstrip_by isspace (drop_last post).
Proof.
  rewrite !sapp_assoc. apply limit_sub_single; try done.
  - destruct (first_char_rstrip isspace (drop_last post)) as [-> | ->]; [reflexivity|].
    destruct (first_char_drop_last post) as [-> | ->]; [reflexivity | exact Hpost].
  - destruct (lstrip_suffix isspace pre) as [l Hl].
    pose proof Hpre' as H. rewrite Hl, upper_app in H.
    by apply numeric_limit_false_app in H as [_ H].
  - destruct (drop_last_prefix post) as [r1 Hr1].
    destruct (rstrip_prefix isspace (drop_last post)) as [r2 Hr2].
    pose proof Hpost' as H. rewrite Hr1, Hr2, !upper_app in H.
    apply numeric_limit_false_app in H as [H _].
    by apply numeric_limit_false_app in H as [H _].
Qed.

Lemma add_limit_clause_single (max_rows : Z) :
  add_limit_clause max_rows (pre ++ kwd ++ ws ++ ds ++ post) =
    if endswith (pre ++ kwd ++ ws ++ ds ++ post) ";" then
      lstrip_by isspace pre ++
      (if (int_of_digits ds >? max_rows)%Z
       then "LIMIT " ++ str_of_Z max_rows else kwd ++ ws ++ ds) ++
      rstrip_by isspace (drop_last post)
    else
      pre ++
      (if (int_of_digits ds >? max_rows)%Z
       then "LIMIT " ++ str_of_Z max_rows else kwd ++ ws ++ ds) ++
      post.
Proof.
  unfold add_limit_clause.
  rewrite limit_upper_contains, limit_upper_search. cbn [negb group pred nth].
  destruct (endswith (pre ++ kwd ++ ws ++ ds ++ post) ";") eqn:He.
  - rewrite (limit_stripped_text (limit_semicolon_post He)).
    destruct (int_of_digits ds >? max_rows)%Z; [apply limit_sub_stripped | reflexivity].
  - destruct (int_of_digits ds >? max_rows)%Z.
    + by apply limit_sub_single.
    + by rewrite !sapp_assoc.
Qed.

End OneLimitClause.

Lemma add_limit_clause_no_limit (max_rows : Z) (sql_query : string) :
  contains "LIMIT" (upper sql_query) = false ->
  add_limit_clause max_rows sql_query =
    (if endswith sql_query ";" then strip (drop_last sql_query) else sql_query)
    ++ " LIMIT " ++ str_of_Z max_rows.
Proof.
  intros H. unfold add_limit_clause. by rewrite (contains_strip _ _ H).
Qed.

(** C1, as stated, fails in its third case.  On [ SELECT a FROM t LIMIT 5;]
    the clause is below the cap and the result differs from the text
    without its semicolon: the blank before the text is removed as well.
    On a text with two clauses, [LIMIT 5] is below the cap and is
    rewritten all the same, because the first clause, [LIMIT 5000],
    decides for both. *)
Lemma limit_rewrite_not_unchanged :
  (Spec.has_limit_clause " SELECT a FROM t LIMIT 5;" 5 /\ (5 <= 1000)%Z /\
   add_limit_clause 1000 " SELECT a FROM t LIMIT 5;" = "SELECT a FROM t LIMIT 5" /\
   Spec.without_semicolon " SELECT a FROM t LIMIT 5;" = " SELECT a FROM t LIMIT 5" /\
   add_limit_clause 1000 " SELECT a FROM t LIMIT 5;" <>
     Spec.without_semicolon " SELECT a FROM t LIMIT 5;") /\
  (Spec.has_limit_clause "SELECT a FROM (SELECT b FROM t LIMIT 5000) x LIMIT 5" 5 /\
   add_limit_clause 1000 "SELECT a FROM (SELECT b FROM t LIMIT 5000) x LIMIT 5" =
     "SELECT a FROM (SELECT b FROM t LIMIT 1000) x LIMIT 1000" /\
   add_limit_clause 1000 "SELECT a FROM (SELECT b FROM t LIMIT 5000) x LIMIT 5" <>
     Spec.without_semicolon "SELECT a FROM (SELECT b FROM t LIMIT 5000) x LIMIT 5").
Proof.
  split.
  - split; [|split; [lia|split; [reflexivity|split; [reflexivity|discriminate]]]].
    exists " SELECT a FROM t ", "LIMIT", " ", "5", ";".
    repeat split; try reflexivity; discriminate.
  - split; [|split; [reflexivity|discriminate]].
    exists "SELECT a FROM (SELECT b FROM t LIMIT 5000) x ", "LIMIT", " ", "5", "".
    repeat split; try reflexivity; discriminate.
Qed.

(** With the clauses in the other order nothing is rewritten, although
    the text holds [LIMIT 5000]; a column name that holds the letters
    LIMIT keeps the cap from being appended. *)
Example limit_rewrite_other_cases :
  add_limit_clause 1000 "SELECT a FROM (SELECT b FROM t LIMIT 5) x LIMIT 5000" =
    "SELECT a FROM (SELECT b FROM t LIMIT 5) x LIMIT 5000" /\
  add_limit_clause 1000 "SELECT creditLimit FROM customers" =
    "SELECT creditLimit FROM customers".
Proof. repeat split; reflexivity. Qed.

(** C1, amended.  If the upper-cased text holds no LIMIT, the rewritten
    query is the text followed by [ LIMIT <rowCap>].  If the text holds
    one clause made of the keyword LIMIT (in any letter case),
    whitespace and the number [n], and no other such clause before or
    after it (the letters LIMIT may stand elsewhere, as in a column
    named [creditLimit], where no whitespace and digit follow them): for
    [n > rowCap] the clause is replaced by [LIMIT <rowCap>] and the text
    before and after it is kept, for [n <= rowCap] the clause is kept as
    well.  In each case a semicolon that ends the text is removed first,
    and with it the whitespace then left around the text. *)
Theorem limit_rewrite_cases (max_rows : Z) (sql_query : string) :
  (contains "LIMIT" (upper sql_query) = false ->
   add_limit_clause max_rows sql_query =
     (if endswith sql_query ";" then strip (drop_last sql_query) else sql_query)
     ++ " LIMIT " ++ str_of_Z max_rows) /\
  (forall pre kwd ws ds post : string,
     sql_query = pre ++ kwd ++ ws ++ ds ++ post ->
     upper kwd = "LIMIT" ->
     ws <> "" -> all_chars isspace ws = true ->
     ds <> "" -> all_chars isdigit ds = true ->
     isdigit_opt (first_char post) = false ->
     Shape.numeric_limit (upper pre) = false ->
     Shape.numeric_limit (upper post) = false ->
     add_limit_clause max_rows sql_query =
       if endswith sql_query ";" then
         lstrip_by isspace pre ++
         (if (int_of_digits ds >? max_rows)%Z
          then "LIMIT " ++ str_of_Z max_rows else kwd ++ ws ++ ds) ++
         rstrip_by isspace (drop_last post)
       else
         pre ++
         (if (int_of_digits ds >? max_rows)%Z
          then "LIMIT " ++ str_of_Z max_rows else kwd ++ ws ++ ds) ++
         post).
Proof.
  split.
  - apply add_limit_clause_no_limit.
  - intros pre kwd ws ds post -> Hk Hws Hsp Hds Hdg Hpost Hpre Hpost'.
    by apply add_limit_clause_single.
Qed.

(** The rewrite of a clause above the cap, in lower case, with a
    semicolon and blanks around the text, after a column name that holds
    the letters LIMIT. *)
Lemma limit_rewrite_cases_witness :
  add_limit_clause 1000 " SELECT creditLimit FROM customers limit  5000 ;" =
    "SELECT creditLimit FROM customers LIMIT 1000".
Proof.
  apply (proj2 (limit_rewrite_cases 1000
                  " SELECT creditLimit FROM customers limit  5000 ;")
           " SELECT creditLimit FROM customers " "limit" "  " "5000" " ;");
    try reflexivity; discriminate.
Defined.

(** The same column name before a clause above and a clause below the
    cap. *)
Example limit_rewrite_after_letters :
  add_limit_clause 1000 "SELECT creditLimit FROM customers LIMIT 5000" =
    "SELECT creditLimit FROM customers LIMIT 1000" /\
  add_limit_clause 1000 "SELECT creditLimit FROM customers LIMIT 5" =
    "SELECT creditLimit FROM customers LIMIT 5".
Proof. split; reflexivity. Qed.

Example limit_rewrite_appends :
  add_limit_clause 1000 "SELECT a FROM t;" = "SELECT a FROM t LIMIT 1000" /\
  add_limit_clause 1000 "SELECT a FROM t LIMIT 10" = "SELECT a FROM t LIMIT 10".
Proof. split; reflexivity. Qed.

(** *** The execution result on an empty answer *)

(** C10.  When the connection opens and the database answers the limited
    query with no row, the result has [success = true], an empty [data],
    an empty [columns], [row_count = 0] and [truncated = false]; no error
    is recorded. *)
Theorem execute_query_zero_rows
    (max_rows query_timeout : Z) (db : database) (elapsed_ms : Z) (sql_query : string) :
  db_connect db = Connected ->
  db_run db (add_limit_clause max_rows sql_query) = Fetched [] ->
  fst (execute_query max_rows query_timeout db elapsed_ms sql_query) =
    {| success := true; data := []; columns := []; row_count := 0;
       execution_time_ms := elapsed_ms; truncated := false; error := None |}.
Proof.
  intros Hc Hr. unfold execute_query. rewrite Hc, Hr. reflexivity.
Qed.

(** The zero row case for a database that answers every query with no
    row, even with a row cap of 0. *)
Lemma execute_query_zero_rows_witness :
  fst (execute_query 0 30 {| db_connect := Connected; db_run := fun _ => Fetched [] |}
         12 "SELECT a FROM t WHERE 1 = 0") =
    {| success := true; data := []; columns := []; row_count := 0;
       execution_time_ms := 12; truncated := false; error := None |}.
Proof.
  apply (execute_query_zero_rows 0 30
           {| db_connect := Connected; db_run := fun _ => Fetched [] |} 12
           "SELECT a FROM t WHERE 1 = 0"); reflexivity.
Defined.

(** With rows, the columns are those of the first row and the flag
    compares the row count with the cap. *)
Example execute_query_one_row :
  fst (execute_query 1 30
         {| db_connect := Connected;
            db_run := fun _ => Fetched [[("a", "1"); ("b", "x")]] |}
         7 "SELECT a, b FROM t") =
    {| success := true; data := [[("a", "1"); ("b", "x")]]; columns := ["a"; "b"];
       row_count := 1; execution_time_ms := 7; truncated := true; error := None |}.
Proof. reflexivity. Qed.

(** The connection is closed after a time-out as well. *)
Example execute_query_timeout :
  execute_query 1000 1
    {| db_connect := Connected;
       db_run := fun _ => QueryRaises (TimeoutException "Query execution timeout") |}
    1001 "SELECT SLEEP(5)" =
  ({| success := false; data := []; columns := []; row_count := 0;
      execution_time_ms := 1001; truncated := false;
      error := Some "Query exceeded timeout of 1 seconds" |},
   [EConnect; EExecute "SELECT SLEEP(5) LIMIT 1000"; EClose]).
Proof. reflexivity. Qed.

(* ===================================================================== *)
(** ** Results on validator.py *)
(* ===================================================================== *)

(** *** Shape of the validation result *)

Section ValidateShape.

Variable sqlparse_parse : string -> outcome (list token).
Variable get_real_name : token -> outcome (option string).
Variable schema_info : gmap string table_info.
Variables max_joins max_subquery_depth : Z.

Let validate' := validate sqlparse_parse get_real_name schema_info max_joins
                   max_subquery_depth.

Lemma is_valid_iff_empty (errors : list string) :
  Nat.eqb (length errors) 0 = true <-> errors = [].
Proof.
  destruct errors; simpl; split; intros H; try reflexivity; discriminate.
Qed.

Lemma validate_on_statement (sql_query : string) (statement : token) (rest : list token) :
  sqlparse_parse sql_query = Ret (statement :: rest) ->
  let errors := (Spec.kind_errors statement ++
                 check_complexity max_joins max_subquery_depth statement ++
                 validate_schema get_real_name schema_info statement ++
                 check_dangerous_patterns sql_query)%list in
  validate' sql_query = Ret (Nat.eqb (length errors) 0, errors).
Proof.
  intros Hp. unfold validate', validate. rewrite Hp. simpl.
  unfold Spec.kind_errors, append.
  destruct (is_select_only statement); simpl; rewrite <- ?List.app_assoc; reflexivity.
Qed.

Lemma validate_on_nothing (sql_query : string) :
  sqlparse_parse sql_query = Ret [] ->
  validate' sql_query = Ret (false, ["Invalid SQL syntax"]).
Proof. intros Hp. unfold validate', validate. rewrite Hp. reflexivity. Qed.

Lemma validate_on_raise (sql_query e : string) :
  sqlparse_parse sql_query = Raise e ->
  validate' sql_query = Ret (false, ["Validation failed: " ++ e]).
Proof. intros Hp. unfold validate', validate. rewrite Hp. reflexivity. Qed.

End ValidateShape.

(** C3.  [validate] always returns a pair (it never raises, whatever the
    parser does); the boolean is true exactly when the violation list is
    empty; and when the parser yields a statement the list is the
    concatenation, in order, of the violations of the four rule
    families, each of them evaluated. *)
Theorem validate_returns_all_violations
    (sqlparse_parse : string -> outcome (list token))
    (get_real_name : token -> outcome (option string))
    (schema_info : gmap string table_info) (max_joins max_subquery_depth : Z)
    (sql_query : string) :
  exists (is_valid : bool) (errors : list string),
    validate sqlparse_parse get_real_name schema_info max_joins max_subquery_depth
      sql_query = Ret (is_valid, errors) /\
    (is_valid = true <-> errors = []) /\
    (forall statement rest,
       sqlparse_parse sql_query = Ret (statement :: rest) ->
       errors = (Spec.kind_errors statement ++
                 check_complexity max_joins max_subquery_depth statement ++
                 validate_schema get_real_name schema_info statement ++
                 check_dangerous_patterns sql_query)%list).
Proof.
  destruct (sqlparse_parse sql_query) as [[|statement rest]|e] eqn:Hp.
  - exists false, ["Invalid SQL syntax"]. split; [|split].
    + by apply validate_on_nothing.
    + split; discriminate.
    + intros ? ? H. discriminate H.
  - eexists _, _. split; [|split].
    + eapply validate_on_statement. exact Hp.
    + apply is_valid_iff_empty.
    + intros ? ? H. by inversion H.
  - exists false, ["Validation failed: " ++ e]. split; [|split].
    + by apply validate_on_raise.
    + split; discriminate.
    + intros ? ? H. discriminate H.
Qed.

(** The theorem at a statement with two unknown columns. *)
Lemma validate_returns_all_violations_witness :
  exists (is_valid : bool) (errors : list string),
    validate Trees.parse_known Trees.real_name Trees.customers_schema 3 3
      "SELECT customerName, customers.country, phone FROM customers"
      = Ret (is_valid, errors) /\
    (is_valid = true <-> errors = []) /\
    (forall statement rest,
       Trees.parse_known "SELECT customerName, customers.country, phone FROM customers"
         = Ret (statement :: rest) ->
       errors = (Spec.kind_errors statement ++
                 check_complexity 3 3 statement ++
                 validate_schema Trees.real_name Trees.customers_schema statement ++
                 check_dangerous_patterns
                   "SELECT customerName, customers.country, phone FROM customers")%list).
Proof.
  exact (validate_returns_all_violations Trees.parse_known Trees.real_name
           Trees.customers_schema 3 3
           "SELECT customerName, customers.country, phone FROM customers").
Defined.

Example validate_two_unknown_columns :
  validate Trees.parse_known Trees.real_name Trees.customers_schema 3 3
    "SELECT customerName, customers.country, phone FROM customers" =
  Ret (false, ["Column 'phone' not found in any table";
               "Column 'customers' not found in any table"]).
Proof. vm_compute. reflexivity. Qed.

(** *** The schema rule on column references *)

Lemma str_in_In (x : string) (l : list string) : str_in x l = true <-> In x l.
Proof.
  unfold str_in. rewrite existsb_exists. split.
  - intros (y & Hy & He). apply String.eqb_eq in He. by subst y.
  - intros H. exists x. split; [exact H | apply String.eqb_refl].
Qed.

Lemma found_in_any_items (items : list (string * table_info)) (column : string) :
  found_in_any items column = true <->
  exists tbl info, In (tbl, info) items /\ In column (Validator.columns info).
Proof.
  induction items as [|[tbl info] items IH]; simpl.
  - split; [discriminate | intros (? & ? & [] & _)].
  - destruct (str_in column (Validator.columns info)) eqn:Hin.
    + split; [|reflexivity]. intros _. exists tbl, info. split; [by left|].
      by apply str_in_In.
    + rewrite IH. split.
      * intros (t & i & Hi & Hc). exists t, i. split; [by right | exact Hc].
      * intros (t & i & [Heq | Hi] & Hc).
        -- inversion Heq; subst. apply str_in_In in Hc. congruence.
        -- by exists t, i.
Qed.

Lemma found_in_any_schema (schema : gmap string table_info) (column : string) :
  found_in_any (map_to_list schema) column = true <-> Spec.in_some_table schema column.
Proof.
  rewrite found_in_any_items. unfold Spec.in_some_table.
  split; intros (t & i & Hi & Hc); exists t, i; split; try exact Hc.
  - apply elem_of_map_to_list. by apply list_elem_of_In.
  - apply list_elem_of_In. by apply elem_of_map_to_list.
Qed.

Lemma check_column_append (schema : gmap string table_info) (errors : list string)
    (ref : option string * string) :
  check_column schema errors ref = (errors ++ check_column schema [] ref)%list.
Proof.
  destruct ref as [table column]. unfold check_column, append.
  destruct (truthy table && _); [destruct (schema !! default "" table) as [info|]|].
  - destruct (negb (str_in column (Validator.columns info))); simpl; by rewrite ?app_nil_r.
  - by rewrite app_nil_r.
  - destruct (negb (truthy table)); [|by rewrite app_nil_r].
    destruct (negb (found_in_any _ _)); simpl; by rewrite ?app_nil_r.
Qed.

Lemma check_columns_flat_map (schema : gmap string table_info)
    (cols : list (option string * string)) (errors : list string) :
  check_columns schema cols errors =
    (errors ++ flat_map (check_column schema []) cols)%list.
Proof.
  unfold check_columns. revert errors.
  induction cols as [|ref cols IH]; intros errors; simpl.
  - by rewrite app_nil_r.
  - rewrite IH, check_column_append. by rewrite <- List.app_assoc.
Qed.

Lemma check_column_unqualified (schema : gmap string table_info)
    (table : option string) (column : string) :
  truthy table = false ->
  (check_column schema [] (table, column) = [Spec.msg_any_table column] /\
   ~ Spec.in_some_table schema column) \/
  (check_column schema [] (table, column) = [] /\ Spec.in_some_table schema column).
Proof.
  intros Ht. unfold check_column. rewrite Ht. simpl.
  destruct (found_in_any (map_to_list schema) column) eqn:Hf; simpl.
  - right. split; [reflexivity|]. by apply found_in_any_schema.
  - left. split; [reflexivity|]. intros H. apply found_in_any_schema in H. congruence.
Qed.

Lemma check_column_qualified (schema : gmap string table_info)
    (table column : string) (info : table_info) :
  table <> "" -> schema !! table = Some info ->
  (check_column schema [] (Some table, column) = [Spec.msg_in_table column table] /\
   ~ In column (Validator.columns info)) \/
  (check_column schema [] (Some table, column) = [] /\ In column (Validator.columns info)).
Proof.
  intros Hne Hs. unfold check_column.
  assert (truthy (Some table) = true) as -> by (destruct table; [congruence | reflexivity]).
  simpl default. rewrite Hs. rewrite bool_decide_eq_true_2 by (by eexists). simpl.
  destruct (str_in column (Validator.columns info)) eqn:Hin; simpl.
  - right. split; [reflexivity|]. by apply str_in_In.
  - left. split; [reflexivity|]. intros H. apply str_in_In in H. congruence.
Qed.

(** C7.  When the tables of the statement are extracted without an
    exception, the schema rule returns its table violations followed by
    the violations of the extracted column references, one reference
    after the other.  An unqualified reference yields the violation
    naming its column exactly when the column is in no table's column set,
    and nothing otherwise; a qualified reference whose table is a key of
    the schema yields the violation exactly when the column is absent from
    that table's column set. *)
Theorem schema_rule_column_violations
    (get_real_name : token -> outcome (option string))
    (schema_info : gmap string table_info) (statement : token) (tables : list string) :
  extract_tables get_real_name statement = Ret tables ->
  exists viol : option string * string -> list string,
    validate_schema get_real_name schema_info statement =
      (check_tables schema_info tables [] ++
       flat_map viol (extract_columns statement))%list /\
    (forall table column, truthy table = false ->
       (viol (table, column) = [Spec.msg_any_table column] /\
        ~ Spec.in_some_table schema_info column) \/
       (viol (table, column) = [] /\ Spec.in_some_table schema_info column)) /\
    (forall table column info,
       table <> "" -> schema_info !! table = Some info ->
       (viol (Some table, column) = [Spec.msg_in_table column table] /\
        ~ In column (Validator.columns info)) \/
       (viol (Some table, column) = [] /\ In column (Validator.columns info))).
Proof.
  intros Ht. exists (check_column schema_info []). split; [|split].
  - unfold validate_schema. rewrite Ht. simpl. apply check_columns_flat_map.
  - apply check_column_unqualified.
  - apply check_column_qualified.
Qed.

Lemma schema_rule_column_violations_witness :
  exists viol : option string * string -> list string,
    validate_schema Trees.real_name Trees.customers_schema Trees.stmt_columns =
      (check_tables Trees.customers_schema [] [] ++
       flat_map viol (extract_columns Trees.stmt_columns))%list /\
    (forall table column, truthy table = false ->
       (viol (table, column) = [Spec.msg_any_table column] /\
        ~ Spec.in_some_table Trees.customers_schema column) \/
       (viol (table, column) = [] /\ Spec.in_some_table Trees.customers_schema column)) /\
    (forall table column info,
       table <> "" -> Trees.customers_schema !! table = Some info ->
       (viol (Some table, column) = [Spec.msg_in_table column table] /\
        ~ In column (Validator.columns info)) \/
       (viol (Some table, column) = [] /\ In column (Validator.columns info))).
Proof.
  apply (schema_rule_column_violations Trees.real_name Trees.customers_schema
           Trees.stmt_columns []).
  reflexivity.
Defined.

Example schema_rule_on_columns :
  extract_columns Trees.stmt_columns =
    [(None, "customerName"); (Some "customers", "country"); (None, "phone");
     (None, "customers")] /\
  validate_schema Trees.real_name Trees.customers_schema Trees.stmt_columns =
    ["Column 'phone' not found in any table";
     "Column 'customers' not found in any table"].
Proof. split; vm_compute; reflexivity. Qed.

(** *** The multiple statement check *)

Lemma other_message_neq (l : list string) :
  Forall Spec.other_message l -> ~ In Spec.multiple_statements l.
Proof.
  intros H Hin. rewrite Forall_forall in H.
  specialize (H _ (proj2 (list_elem_of_In _ _) Hin)). discriminate H.
Qed.

Lemma kind_errors_other (statement : token) :
  Forall Spec.other_message (Spec.kind_errors statement).
Proof.
  unfold Spec.kind_errors. destruct (is_select_only statement); repeat constructor.
Qed.

Lemma check_complexity_other (max_joins max_subquery_depth : Z) (statement : token) :
  Forall Spec.other_message (check_complexity max_joins max_subquery_depth statement).
Proof.
  unfold check_complexity, append.
  destruct (_ >? max_joins)%Z; destruct (_ >? max_subquery_depth)%Z;
    repeat constructor.
Qed.

Lemma check_tables_other (schema : gmap string table_info) (tables errors : list string) :
  Forall Spec.other_message errors ->
  Forall Spec.other_message (check_tables schema tables errors).
Proof.
  unfold check_tables. revert errors.
  induction tables as [|t tables IH]; intros errors H; simpl; [exact H|].
  apply IH. destruct (schema !! t); [exact H|].
  unfold append. apply Forall_app. split; [exact H|]. repeat constructor.
Qed.

Lemma check_column_other (schema : gmap string table_info)
    (ref : option string * string) :
  Forall Spec.other_message (check_column schema [] ref).
Proof.
  destruct ref as [table column]. unfold check_column, append.
  destruct (truthy table && _); [destruct (schema !! default "" table) as [info|]|].
  - destruct (negb (str_in column (Validator.columns info))); repeat constructor.
  - constructor.
  - destruct (negb (truthy table)); [|constructor].
    destruct (negb (found_in_any _ _)); repeat constructor.
Qed.

Lemma validate_schema_other (get_real_name : token -> outcome (option string))
    (schema : gmap string table_info) (statement : token) :
  Forall Spec.other_message (validate_schema get_real_name schema statement).
Proof.
  unfold validate_schema.
  destruct (extract_tables get_real_name statement) as [tables|e]; simpl.
  - rewrite check_columns_flat_map. apply Forall_app. split.
    + apply check_tables_other. constructor.
    + apply Forall_flat_map. apply Forall_forall. intros ref _.
      apply check_column_other.
  - repeat constructor.
Qed.

Lemma danger_fold (sql_upper : string) (l : list (regex * string)) (errors : list string) :
  Forall (fun pm => Spec.other_message (snd pm)) l ->
  (In Spec.multiple_statements
      (fold_left
         (fun errors pm =>
            match search false (fst pm) sql_upper with
            | Some _ => append errors (snd pm)
            | None => errors
            end) l errors)
   <-> In Spec.multiple_statements errors).
Proof.
  revert errors. induction l as [|pm l IH]; intros errors H; simpl; [reflexivity|].
  inversion H as [|? ? Hpm Hl]; subst. rewrite (IH _ Hl).
  destruct (search false (fst pm) sql_upper); [|reflexivity].
  unfold append. rewrite in_app_iff. simpl. split; [|tauto].
  intros [Hin | [Heq | []]]; [exact Hin|].
  unfold Spec.other_message in Hpm. rewrite Heq in Hpm. discriminate Hpm.
Qed.

Lemma check_dangerous_patterns_multiple (sql_query : string) :
  In Spec.multiple_statements (check_dangerous_patterns sql_query) <->
  Spec.semicolon_before_last sql_query = true.
Proof.
  unfold check_dangerous_patterns, Spec.semicolon_before_last.
  rewrite danger_fold by (unfold dangerous_patterns; repeat constructor).
  destruct (contains ";" (drop_last sql_query)); simpl.
  - split; [reflexivity | intros _; by left].
  - split; [intros [] | discriminate].
Qed.

(** A semicolon before the last character of the trimmed text stands
    before the last character of the text. *)

Lemma semicolon_rstrip (f : ascii -> bool) (c : ascii) (s : string) :
  contains (String c "") (drop_last (rstrip_by f s)) = true ->
  contains (String c "") (drop_last s) = true.
Proof.
  induction s as [|a s IH]; [intros H; exact H|].
  cbn [rstrip_by]. destruct (rstrip_by f s) as [|b r] eqn:Hr.
  - destruct (f a); simpl; discriminate.
  - assert (s <> "") as Hs by (intros ->; discriminate Hr).
    rewrite (drop_last_cons a s Hs).
    rewrite (drop_last_cons a (String b r)) by discriminate.
    rewrite !contains_char_cons. intros H.
    apply orb_true_iff in H as [H | H]; [by rewrite H|].
    rewrite (IH H). apply orb_true_r.
Qed.

Lemma semicolon_lstrip (f : ascii -> bool) (c : ascii) (s : string) :
  contains (String c "") (drop_last (lstrip_by f s)) = true ->
  contains (String c "") (drop_last s) = true.
Proof.
  induction s as [|a s IH]; [intros H; exact H|].
  cbn [lstrip_by]. destruct (f a); [|intros H; exact H].
  intros H. destruct s as [|b s]; [simpl in H; discriminate H|].
  rewrite drop_last_cons by discriminate. rewrite contains_char_cons.
  rewrite (IH H). apply orb_true_r.
Qed.

Lemma semicolon_before_last_strip (s : string) :
  Spec.semicolon_before_last (strip s) = true -> Spec.semicolon_before_last s = true.
Proof.
  unfold Spec.semicolon_before_last, strip, strip_by. intros H.
  apply (semicolon_lstrip isspace). by apply (semicolon_rstrip isspace).
Qed.

(** C2, as stated, fails on [SELECT a FROM t; ]: the only semicolon is the
    last character of the trimmed text, and the text is rejected with the
    multiple statement violation. *)
Lemma multiple_statements_untrimmed :
  exists errors : list string,
    validate Trees.parse_known Trees.real_name Trees.customers_schema 3 3
      "SELECT a FROM t; " = Ret (false, errors) /\
    In Spec.multiple_statements errors /\
    Spec.semicolon_before_last (strip "SELECT a FROM t; ") = false.
Proof.
  eexists. split; [vm_compute; reflexivity|]. split; [|reflexivity].
  right. right. by left.
Qed.

(** C2, amended.  When the parser yields a statement, [validate] returns
    [is_valid = false] with the violation of the multiple statement check
    exactly when a semicolon stands before the last character of the text
    as it is passed, untrimmed; this is the case whenever a semicolon
    stands before the last character of the trimmed text. *)
Theorem multiple_statements_violation
    (sqlparse_parse : string -> outcome (list token))
    (get_real_name : token -> outcome (option string))
    (schema_info : gmap string table_info) (max_joins max_subquery_depth : Z)
    (sql_query : string) (statement : token) (rest : list token) :
  sqlparse_parse sql_query = Ret (statement :: rest) ->
  exists (is_valid : bool) (errors : list string),
    validate sqlparse_parse get_real_name schema_info max_joins max_subquery_depth
      sql_query = Ret (is_valid, errors) /\
    ((is_valid = false /\ In Spec.multiple_statements errors) <->
     Spec.semicolon_before_last sql_query = true) /\
    (Spec.semicolon_before_last (strip sql_query) = true ->
     is_valid = false /\ In Spec.multiple_statements errors).
Proof.
  intros Hp. eexists _, _. split; [eapply validate_on_statement; exact Hp|].
  set (errors := (Spec.kind_errors statement ++ _)%list).
  assert (In Spec.multiple_statements errors <->
          Spec.semicolon_before_last sql_query = true) as Hin.
  { unfold errors. rewrite !in_app_iff, check_dangerous_patterns_multiple.
    pose proof (other_message_neq _ (kind_errors_other statement)).
    pose proof (other_message_neq _
                  (check_complexity_other max_joins max_subquery_depth statement)).
    pose proof (other_message_neq _
                  (validate_schema_other get_real_name schema_info statement)).
    tauto. }
  assert (In Spec.multiple_statements errors -> Nat.eqb (length errors) 0 = false) as Hne.
  { destruct errors; [intros [] | reflexivity]. }
  split.
  - split; [intros [_ H]; by apply Hin|]. intros H. apply Hin in H. auto.
  - intros H. apply semicolon_before_last_strip, Hin in H. auto.
Qed.

Lemma multiple_statements_violation_witness :
  exists (is_valid : bool) (errors : list string),
    validate Trees.parse_known Trees.real_name Trees.customers_schema 3 3
      "SELECT a FROM t;" = Ret (is_valid, errors) /\
    ((is_valid = false /\ In Spec.multiple_statements errors) <->
     Spec.semicolon_before_last "SELECT a FROM t;" = true) /\
    (Spec.semicolon_before_last (strip "SELECT a FROM t;") = true ->
     is_valid = false /\ In Spec.multiple_statements errors).
Proof.
  apply (multiple_statements_violation Trees.parse_known Trees.real_name
           Trees.customers_schema 3 3 "SELECT a FROM t;" Trees.stmt_a_semi []).
  reflexivity.
Defined.

Example trailing_semicolon_allowed :
  check_dangerous_patterns "SELECT a FROM t;" = [] /\
  check_dangerous_patterns "SELECT a FROM t; DROP TABLE t;" =
    ["Multiple SQL statements not allowed"].
Proof. split; reflexivity. Qed.

(** *** Subquery depth *)

Lemma token_induction (P : token -> Prop) :
  (forall ty v, P (Leaf ty v)) ->
  (forall cls ts, Forall P ts -> P (Group cls ts)) ->
  forall t, P t.
Proof.
  intros Hleaf Hgroup. fix IH 1. intros [ty v | cls ts].
  - apply Hleaf.
  - apply Hgroup. induction ts as [|c ts IHts]; constructor.
    + apply IH.
    + exact IHts.
Qed.

Lemma list_max_cons (x : nat) (l : list nat) :
  list_max (x :: l) = Nat.max x (list_max l).
Proof. reflexivity. Qed.

(** The loop of [_count_subquery_depth], once each child is known to add
    its own nesting to the depth it is entered with. *)
Lemma depth_loop (d : nat) (ts : list token) :
  Forall (fun c => forall d', count_subquery_depth c d' = d' + Spec.nesting c) ts ->
  forall m, d <= m ->
    fold_left
      (fun max_depth token =>
         if ttype_is_none token then
           if has_tokens token then
             if subquery_test (strip (str token))
             then Nat.max max_depth (count_subquery_depth token (d + 1))
             else Nat.max max_depth (count_subquery_depth token d)
           else max_depth
         else max_depth)
      ts m
    = Nat.max m (d + list_max (map (fun c => Spec.flag (Spec.counted_group c)
                                              + Spec.nesting c) ts)).
Proof.
  induction 1 as [|c ts Hc _ IH]; intros m Hm.
  - simpl. lia.
  - cbn [fold_left]. rewrite map_cons, list_max_cons.
    set (L := list_max _) in *.
    destruct c as [ty v | cls cs].
    + cbn [ttype_is_none ttype_of]. rewrite IH by exact Hm. reflexivity.
    + cbn [ttype_is_none ttype_of has_tokens]. unfold Spec.counted_group.
      cbn [has_tokens andb].
      destruct (subquery_test (strip (str (Group cls cs)))) eqn:Ht;
        unfold Spec.flag;
        rewrite IH by exact (Nat.le_trans _ _ _ Hm (Nat.le_max_l _ _));
        rewrite Hc; set (N := Spec.nesting _); clearbody N L; lia.
Qed.

Lemma count_subquery_depth_nesting (t : token) :
  forall d, count_subquery_depth t d = d + Spec.nesting t.
Proof.
  induction t as [ty v | cls ts IH] using token_induction; intros d.
  - simpl. lia.
  - simpl. rewrite (depth_loop d ts IH d) by lia. lia.
Qed.

(** C4.  On [SELECT a FROM t WHERE (x IN (SELECT y FROM u))] the source
    returns depth 2 where the rule of the claim, a parenthesised group
    whose first token is SELECT, gives 1: the outer parenthesis is counted
    because its text holds the letters SELECT.  On
    [SELECT a FROM t WHERE (selected = 1)], which has no subquery, the
    source returns depth 1. *)
Lemma subquery_depth_counts_other_groups :
  str Trees.stmt_paren_cond = "SELECT a FROM t WHERE (x IN (SELECT y FROM u))" /\
  count_subquery_depth Trees.stmt_paren_cond 0 = 2 /\
  Spec.spec_subquery_depth Trees.stmt_paren_cond = 1 /\
  str Trees.stmt_selected = "SELECT a FROM t WHERE (selected = 1)" /\
  count_subquery_depth Trees.stmt_selected 0 = 1 /\
  Spec.spec_subquery_depth Trees.stmt_selected = 0.
Proof. repeat split; reflexivity. Qed.

(** X1.  What the source computes: every group whose trimmed text starts with
    an opening parenthesis and holds the letters SELECT anywhere, in any
    case, is counted, and the depth of a statement is the largest number
    of such groups nested in one another.  It is 0 on [SELECT * FROM t],
    1 on [SELECT * FROM t WHERE x IN (SELECT y FROM u)] and 2 with one
    more level of nesting. *)
Theorem subquery_depth_is_nesting :
  (forall statement : token,
      count_subquery_depth statement 0 = Spec.nesting statement) /\
  count_subquery_depth Trees.stmt_plain 0 = 0 /\
  count_subquery_depth Trees.stmt_sub1 0 = 1 /\
  count_subquery_depth Trees.stmt_sub2 0 = 2.
Proof.
  split; [|repeat split; reflexivity].
  intros statement. by rewrite count_subquery_depth_nesting.
Qed.

(** The stated rule and the source agree on the three statements of the
    claim. *)
Example spec_subquery_depth_examples :
  Spec.spec_subquery_depth Trees.stmt_plain = 0 /\
  Spec.spec_subquery_depth Trees.stmt_sub1 = 1 /\
  Spec.spec_subquery_depth Trees.stmt_sub2 = 2 /\
  str Trees.stmt_plain = "SELECT * FROM t" /\
  str Trees.stmt_sub1 = "SELECT * FROM t WHERE x IN (SELECT y FROM u)" /\
  str Trees.stmt_sub2 =
    "SELECT * FROM t WHERE x IN (SELECT y FROM u WHERE z IN (SELECT w FROM v))".
Proof. repeat split; reflexivity. Qed.

(** *** Matches of the join patterns *)

Lemma generic_join_inv (prev : option ascii) (s : string) (n : nat) (g : list string) :
  match_here false (WordB :: lits "JOIN" ++ [WordB])%list prev s = Some (n, g) ->
  Spec.word_here "JOIN" prev s = true /\ n = 4.
Proof.
  cbn [match_here]. destruct (at_boundary prev s) eqn:Hb; [|discriminate].
  intros H. apply match_here_lits_inv in H as (s' & n' & -> & -> & H).
  cbn [match_here] in H. destruct (at_boundary _ s') eqn:Hb'; [|discriminate].
  injection H as <- <-. split; [|reflexivity].
  unfold Spec.word_here. rewrite startswith_app, drop_app.
  unfold at_boundary in *. simpl in Hb, Hb'.
  destruct (isword_opt prev); [discriminate|].
  destruct (isword_opt (first_char s')); [discriminate | reflexivity].
Qed.

Lemma generic_join_match (prev : option ascii) (s : string) :
  Spec.word_here "JOIN" prev s = true ->
  exists rest, s = "JOIN" ++ rest /\
    match_here false (WordB :: lits "JOIN" ++ [WordB])%list prev s = Some (4, []).
Proof.
  unfold Spec.word_here. intros H.
  apply andb_true_iff in H as [H Hafter]. apply andb_true_iff in H as [Hs Hprev].
  destruct (startswith_inv _ _ Hs) as [rest ->]. exists rest. split; [reflexivity|].
  rewrite drop_app in Hafter.
  cbn [match_here]. unfold at_boundary at 1. cbn [String.append first_char isword_opt].
  apply negb_true_iff in Hprev. rewrite Hprev. simpl xorb. cbv iota.
  change (String "J" (String "O" (String "I" (String "N" rest)))) with ("JOIN" ++ rest).
  rewrite match_here_lits. cbn [match_here last_char].
  unfold at_boundary. apply negb_true_iff in Hafter. rewrite Hafter. reflexivity.
Qed.

Lemma qualified_join_inv (q : string) (prev : option ascii) (s : string)
    (n : nat) (g : list string) :
  match_here false (qualified_join q) prev s = Some (n, g) ->
  exists ws rest,
    s = q ++ ws ++ "JOIN" ++ rest /\ ws <> "" /\ all_chars isspace ws = true /\
    isword_opt (first_char rest) = false.
Proof.
  unfold qualified_join. cbn [match_here].
  destruct (at_boundary prev s); [|discriminate]. intros H.
  apply match_here_lits_inv in H as (s1 & n1 & -> & -> & H).
  cbn [app match_here] in H.
  destruct (rep1 Space _ s1) as [[m [n2 g2]]|] eqn:Hr; [|discriminate].
  apply rep1_inv in Hr as (ws & s2 & -> & _ & Hne & Hall & Hk).
  apply match_here_lits_inv in Hk as (rest & n3 & -> & _ & Hk).
  cbn [match_here last_char] in Hk. unfold at_boundary in Hk. simpl in Hk.
  destruct (isword_opt (first_char rest)) eqn:Hw; [discriminate|].
  exists ws, rest. by repeat split.
Qed.

Lemma qualified_join_match (q : string) (prev : option ascii) (ws rest : string) :
  isword_opt (first_char q) = true -> isword_opt prev = false ->
  ws <> "" -> all_chars isspace ws = true ->
  isword_opt (first_char rest) = false ->
  match_here false (qualified_join q) prev (q ++ ws ++ "JOIN" ++ rest) =
    Some (String.length (q ++ ws ++ "JOIN"), []).
Proof.
  intros Hq Hprev Hne Hall Hrest. unfold qualified_join. cbn [match_here].
  assert (at_boundary prev (q ++ ws ++ "JOIN" ++ rest) = true) as ->.
  { unfold at_boundary. rewrite Hprev. destruct q; [discriminate Hq|]. simpl in *.
    by rewrite Hq. }
  rewrite match_here_lits. cbn [app match_here].
  rewrite (rep1_run_some Space _ ws ("JOIN" ++ rest) (4, [])); try done.
  - by rewrite !slength_app.
  - rewrite match_here_lits. cbn [match_here last_char]. unfold at_boundary.
    simpl isword_opt at 1. by rewrite Hrest.
Qed.

(** *** One qualified join *)

Lemma word_positions_in (w : string) (prev : option ascii) (i0 : nat) (a b : string) :
  Spec.word_here w (last_char prev a) b = true -> b <> "" ->
  In (i0 + String.length a) (Spec.word_positions w prev i0 (a ++ b)).
Proof.
  revert prev i0. induction a as [|x a IH]; intros prev i0 Hw Hb.
  - destruct b as [|c b]; [congruence|].
    cbn [String.append last_char Spec.word_positions String.length] in *.
    rewrite Hw. rewrite Nat.add_0_r. by left.
  - cbn [String.append last_char Spec.word_positions String.length] in *.
    apply in_or_app. right.
    replace (i0 + S (String.length a)) with (S i0 + String.length a) by lia.
    by apply IH.
Qed.

(** No qualifier ends with another one. *)
Lemma qualifier_suffix (q q' d : string) :
  In q Spec.qualifiers -> In q' Spec.qualifiers -> q' = d ++ q -> d = "".
Proof.
  unfold Spec.qualifiers. simpl.
  intros Hq Hq' H.
  destruct d as [|c1 [|c2 d]]; [reflexivity| |].
  - exfalso. cbn [String.append] in H.
    destruct Hq as [<-|[<-|[<-|[<-|[<-|[]]]]]];
      destruct Hq' as [<-|[<-|[<-|[<-|[<-|[]]]]]]; discriminate H.
  - exfalso. cbn [String.append] in H.
    assert (String.length q' = 2 + String.length d + String.length q) as Hl
      by (rewrite H; simpl; rewrite slength_app; lia).
    destruct Hq as [<-|[<-|[<-|[<-|[<-|[]]]]]];
      destruct Hq' as [<-|[<-|[<-|[<-|[<-|[]]]]]]; simpl in Hl; lia.
Qed.

Lemma qualifier_first_word (q : string) :
  In q Spec.qualifiers -> isword_opt (first_char q) = true.
Proof.
  unfold Spec.qualifiers. simpl. intros [<-|[<-|[<-|[<-|[<-|[]]]]]]; reflexivity.
Qed.

Lemma qualifier_last_visible (x q : string) :
  In q Spec.qualifiers -> class_opt Space (last_char None (x ++ q)) = false.
Proof.
  rewrite last_char_app. unfold Spec.qualifiers. simpl.
  intros [<-|[<-|[<-|[<-|[<-|[]]]]]]; reflexivity.
Qed.

Section OneQualifiedJoin.

Variables pre q ws post : string.

Hypothesis Hq : In q Spec.qualifiers.
Hypothesis Hpre : isword_opt (last_char None pre) = false.
Hypothesis Hws : ws <> "".
Hypothesis Hall : all_chars isspace ws = true.
Hypothesis Hpost : isword_opt (first_char post) = false.
Hypothesis Hone :
  Spec.word_positions "JOIN" None 0 (pre ++ q ++ ws ++ "JOIN" ++ post) =
    [String.length (pre ++ q ++ ws)].

(** The word JOIN of the text is the one after the qualifier. *)
Lemma join_word_unique (a b : string) :
  pre ++ q ++ ws ++ "JOIN" ++ post = a ++ b ->
  Spec.word_here "JOIN" (last_char None a) b = true ->
  a = pre ++ q ++ ws /\ b = "JOIN" ++ post.
Proof.
  intros HU Hw.
  assert (b <> "") as Hb by (intros ->; discriminate Hw).
  pose proof (word_positions_in "JOIN" None 0 a b Hw Hb) as Hin.
  rewrite <- HU, Hone in Hin. destruct Hin as [Hl | []]. simpl in Hl.
  symmetry in HU. rewrite <- !sapp_assoc in HU. rewrite !sapp_assoc in HU.
  assert (a ++ b = (pre ++ q ++ ws) ++ "JOIN" ++ post) as HU'
    by (by rewrite HU, !sapp_assoc).
  apply sapp_inj_length in HU'; [exact HU' | by rewrite Hl].
Qed.

Lemma generic_join_findall :
  findall false (WordB :: lits "JOIN" ++ [WordB])%list
    (pre ++ q ++ ws ++ "JOIN" ++ post) = ["JOIN"].
Proof.
  unfold findall.
  replace (pre ++ q ++ ws ++ "JOIN" ++ post)
    with ((pre ++ q ++ ws) ++ "JOIN" ++ post) by (by rewrite !sapp_assoc).
  rewrite findall_go_no_match.
  - assert (Spec.word_here "JOIN" (last_char None (pre ++ q ++ ws)) ("JOIN" ++ post)
            = true) as Hw.
    { unfold Spec.word_here. rewrite startswith_app, drop_app, Hpost.
      rewrite <- sapp_assoc, last_char_app.
      by rewrite (space_opt_not_word _ (last_space _ ws Hws Hall)). }
    destruct (generic_join_match _ _ Hw) as (rest & _ & Hm).
    rewrite (findall_go_match _ _ _ "JOIN" post [] ltac:(discriminate) Hm). f_equal.
    rewrite <- (sapp_nil_r post) at 1. rewrite findall_go_no_match.
    + apply findall_go_end.
      destruct (match_here _ _ _ "") as [[n g]|] eqn:Hm'; [|reflexivity].
      apply generic_join_inv in Hm' as [Hw' _]. discriminate Hw'.
    + intros b1 b2 Hb Hb2. rewrite sapp_nil_r.
      destruct (match_here _ _ _ b2) as [[n g]|] eqn:Hm'; [|reflexivity]. exfalso.
      apply generic_join_inv in Hm' as [Hw' _].
      rewrite <- last_char_app, <- last_char_app in Hw'.
      destruct (join_word_unique ((pre ++ q ++ ws) ++ "JOIN" ++ b1) b2) as [Ha _];
        [by rewrite Hb, !sapp_assoc | exact Hw' |].
      apply (f_equal String.length) in Ha. rewrite !slength_app in Ha. simpl in Ha. lia.
  - intros a1 a2 Hx Ha2.
    destruct (match_here _ _ _ _) as [[n g]|] eqn:Hm'; [|reflexivity]. exfalso.
    apply generic_join_inv in Hm' as [Hw' _].
    destruct (join_word_unique a1 (a2 ++ "JOIN" ++ post)) as [Ha _];
      [by rewrite <- (sapp_assoc a1 a2), <- Hx, !sapp_assoc | exact Hw' |].
    rewrite Ha in Hx. apply (f_equal String.length) in Hx.
    rewrite !slength_app in Hx. destruct a2; [congruence | simpl in Hx; lia].
Qed.

(** A qualified pattern matches at one place only, after [pre], and it
    is the pattern of the qualifier [q]. *)
Lemma qualified_join_unique (q' a b : string) (n : nat) (g : list string) :
  In q' Spec.qualifiers ->
  pre ++ q ++ ws ++ "JOIN" ++ post = a ++ b ->
  match_here false (qualified_join q') (last_char None a) b = Some (n, g) ->
  a = pre /\ q' = q.
Proof.
  intros Hq' HU Hm.
  apply qualified_join_inv in Hm as (ws' & rest & -> & Hne & Hall' & Hrest).
  destruct (join_word_unique ((a ++ q') ++ ws') ("JOIN" ++ rest)) as [Ha _].
  - by rewrite HU, !sapp_assoc.
  - unfold Spec.word_here. rewrite startswith_app, drop_app, Hrest, last_char_app.
    by rewrite (space_opt_not_word _ (last_space _ ws' Hne Hall')).
  - rewrite <- (sapp_assoc pre q ws) in Ha.
    apply space_suffix_unique in Ha as [Ha _]; try done;
      try by apply qualifier_last_visible.
    destruct (sapp_eq_app _ _ _ _ Ha) as [(d & Hd1 & Hd2) | (d & Hd1 & Hd2)].
    + pose proof (qualifier_suffix _ _ _ Hq Hq' Hd2) as ->.
      rewrite sapp_nil_r in Hd1. by split.
    + pose proof (qualifier_suffix _ _ _ Hq' Hq Hd2) as ->.
      rewrite sapp_nil_r in Hd1. by split.
Qed.

Lemma qualified_join_findall_same :
  findall false (qualified_join q) (pre ++ q ++ ws ++ "JOIN" ++ post) =
    [q ++ ws ++ "JOIN"].
Proof.
  unfold findall. rewrite findall_go_no_match.
  - replace (q ++ ws ++ "JOIN" ++ post) with ((q ++ ws ++ "JOIN") ++ post)
      by (by rewrite !sapp_assoc).
    rewrite (findall_go_match _ _ _ (q ++ ws ++ "JOIN") post []).
    + f_equal. rewrite <- (sapp_nil_r post) at 1. rewrite findall_go_no_match.
      * apply findall_go_end.
        destruct (match_here _ _ _ "") as [[n g]|] eqn:Hm'; [|reflexivity]. exfalso.
        rewrite <- !last_char_app in Hm'.
        destruct (qualified_join_unique q (pre ++ (q ++ ws ++ "JOIN") ++ post) "" n g Hq)
          as [Ha _]; [by rewrite sapp_nil_r, !sapp_assoc | exact Hm' |].
        apply (f_equal String.length) in Ha. rewrite !slength_app in Ha.
        simpl in Ha. lia.
      * intros b1 b2 Hb Hb2. rewrite sapp_nil_r.
        destruct (match_here _ _ _ b2) as [[n g]|] eqn:Hm'; [|reflexivity]. exfalso.
        rewrite <- !last_char_app in Hm'.
        destruct (qualified_join_unique q (pre ++ (q ++ ws ++ "JOIN") ++ b1) b2 n g Hq)
          as [Ha _]; [by rewrite Hb, !sapp_assoc | exact Hm' |].
        apply (f_equal String.length) in Ha. rewrite !slength_app in Ha.
        simpl in Ha. lia.
    + destruct q; [by destruct Hq as [H|[H|[H|[H|[H|[]]]]]] | discriminate].
    + rewrite sapp_assoc, sapp_assoc.
      apply qualified_join_match; try done. by apply qualifier_first_word.
  - intros a1 a2 Hx Ha2.
    destruct (match_here _ _ _ _) as [[n g]|] eqn:Hm'; [|reflexivity]. exfalso.
    destruct (qualified_join_unique q a1 (a2 ++ q ++ ws ++ "JOIN" ++ post) n g Hq)
      as [Ha _]; [by rewrite <- (sapp_assoc a1 a2), <- Hx | exact Hm' |].
    rewrite Ha in Hx. apply (f_equal String.length) in Hx.
    rewrite slength_app in Hx. destruct a2; [congruence | simpl in Hx; lia].
Qed.

Lemma qualified_join_findall_other (q' : string) :
  In q' Spec.qualifiers -> q' <> q ->
  findall false (qualified_join q') (pre ++ q ++ ws ++ "JOIN" ++ post) = [].
Proof.
  intros Hq' Hne. unfold findall.
  rewrite <- (sapp_nil_r (pre ++ q ++ ws ++ "JOIN" ++ post)).
  rewrite findall_go_no_match.
  - apply findall_go_end.
    destruct (match_here _ _ _ "") as [[n g]|] eqn:Hm'; [|reflexivity]. exfalso.
    destruct (qualified_join_unique q' (pre ++ q ++ ws ++ "JOIN" ++ post) "" n g Hq')
      as [_ Hqq]; [by rewrite sapp_nil_r | exact Hm' | congruence].
  - intros a1 a2 Hx Ha2. rewrite sapp_nil_r.
    destruct (match_here _ _ _ a2) as [[n g]|] eqn:Hm'; [|reflexivity]. exfalso.
    destruct (qualified_join_unique q' a1 a2 n g Hq' Hx Hm') as [_ Hqq]. congruence.
Qed.

Lemma qualified_join_count (q' : string) :
  In q' Spec.qualifiers ->
  length (findall false (qualified_join q') (pre ++ q ++ ws ++ "JOIN" ++ post)) =
    if String.eqb q' q then 1 else 0.
Proof.
  intros Hq'. destruct (String.eqb_spec q' q) as [E | E].
  - rewrite E. by rewrite qualified_join_findall_same.
  - by rewrite qualified_join_findall_other.
Qed.

Lemma join_pattern_counts :
  fold_left
    (fun join_count pattern =>
       join_count + length (findall false pattern (pre ++ q ++ ws ++ "JOIN" ++ post)))
    join_patterns 0 = 2.
Proof.
  unfold join_patterns. cbn [fold_left]. rewrite generic_join_findall.
  rewrite !qualified_join_count by (unfold Spec.qualifiers; simpl; tauto).
  pose proof Hq as Hq0. unfold Spec.qualifiers in Hq0. simpl in Hq0.
  destruct Hq0 as [E|[E|[E|[E|[E|[]]]]]]; rewrite <- E; reflexivity.
Qed.

End OneQualifiedJoin.

(** C5.  When the upper-cased text of a statement holds one qualified
    join keyword ([q] one of INNER, LEFT, RIGHT, FULL, CROSS, standing at a
    word boundary and followed by whitespace and JOIN) and the word JOIN
    occurs nowhere else in it, the join count is 2: one match of the
    pattern of [q], one match of the generic pattern, none of the four
    other patterns. *)
Theorem count_joins_single_qualified (statement : token) (pre q ws post : string) :
  upper (str statement) = pre ++ q ++ ws ++ "JOIN" ++ post ->
  In q Spec.qualifiers ->
  isword_opt (last_char None pre) = false ->
  ws <> "" -> all_chars isspace ws = true ->
  isword_opt (first_char post) = false ->
  Spec.word_positions "JOIN" None 0 (upper (str statement)) =
    [String.length (pre ++ q ++ ws)] ->
  count_joins statement = 2.
Proof.
  intros HU Hq Hpre Hws Hall Hpost Hone. unfold count_joins. rewrite HU in *.
  by apply join_pattern_counts.
Qed.

Lemma count_joins_single_qualified_witness :
  count_joins (Trees.stmt_join "Left Join") = 2.
Proof.
  apply (count_joins_single_qualified (Trees.stmt_join "Left Join")
           "SELECT * FROM A " "LEFT" " " " B").
  - reflexivity.
  - right. by left.
  - reflexivity.
  - discriminate.
  - reflexivity.
  - reflexivity.
  - reflexivity.
Defined.

(** A join written LEFT OUTER JOIN matches the generic pattern only. *)
Example count_joins_left_outer :
  count_joins (Trees.stmt_join "LEFT OUTER JOIN") = 1.
Proof. reflexivity. Qed.

(** *** Joins and letter case *)

Lemma upper_char_swapcase (a : ascii) :
  upper_char (Spec.swapcase_char a) = upper_char a.
Proof. destruct a as [[] [] [] [] [] [] [] []]; reflexivity. Qed.

Lemma case_variant_upper (s s' : string) :
  Spec.case_variant s s' = true -> upper s = upper s'.
Proof.
  revert s'. induction s as [|a s IH]; intros [|b s'] H; simpl in *;
    try reflexivity; try discriminate.
  apply andb_true_iff in H as [Hab Hs]. rewrite (IH _ Hs). f_equal.
  apply orb_true_iff in Hab as [Hab | Hab]; apply Ascii.eqb_eq in Hab; subst b.
  - reflexivity.
  - symmetry. apply upper_char_swapcase.
Qed.

(** C6.  The join count of a statement does not change when the case of
    letters of its text is changed. *)
Theorem count_joins_case_invariant (statement statement' : token) :
  Spec.case_variant (str statement) (str statement') = true ->
  count_joins statement = count_joins statement'.
Proof.
  intros H. unfold count_joins. by rewrite (case_variant_upper _ _ H).
Qed.

Lemma count_joins_case_invariant_witness :
  Spec.case_variant (str (Trees.stmt_join "LEFT JOIN"))
                    (str (Trees.stmt_join "Left Join")) = true /\
  count_joins (Trees.stmt_join "LEFT JOIN") = count_joins (Trees.stmt_join "Left Join").
Proof.
  split; [reflexivity|].
  apply (count_joins_case_invariant (Trees.stmt_join "LEFT JOIN")
           (Trees.stmt_join "Left Join")).
  reflexivity.
Defined.

Example count_joins_cases :
  count_joins (Trees.stmt_join "join") = 1 /\
  count_joins (Trees.stmt_join "JOIN") = 1 /\
  count_joins (Trees.stmt_join "Left Join") = 2 /\
  count_joins (Trees.stmt_join "left join") = 2 /\
  count_joins (Trees.stmt_join "LEFT JOIN") = 2.
Proof. repeat split; reflexivity. Qed.

(** *** The cost estimate *)

Lemma estimate_cost_on_statement
    (sqlparse_parse : string -> outcome (list token)) (sql_query : string)
    (parsed : token) (rest : list token) :
  sqlparse_parse sql_query = Ret (parsed :: rest) ->
  estimate_cost sqlparse_parse sql_query =
    Ret (<["join_count" := PInt (Z.of_nat (count_joins parsed))]>
         (<["subquery_depth" := PInt (Z.of_nat (count_subquery_depth parsed 0))]>
         (<["has_aggregation" := PBool (contains "GROUP BY" (upper sql_query))]>
         (<["has_order" := PBool (contains "ORDER BY" (upper sql_query))]>
         (<["estimated_complexity" :=
              PInt (Z.of_nat (calculate_complexity_score parsed))]> ∅))))).
Proof. intros Hp. unfold estimate_cost. rewrite Hp. reflexivity. Qed.

Lemma estimate_cost_on_failure
    (sqlparse_parse : string -> outcome (list token)) (sql_query : string) :
  sqlparse_parse sql_query = Ret [] \/ (exists e, sqlparse_parse sql_query = Raise e) ->
  estimate_cost sqlparse_parse sql_query = Ret (<["estimated_complexity" := PInt 0]> ∅).
Proof.
  intros [Hp | [e Hp]]; unfold estimate_cost; rewrite Hp; reflexivity.
Qed.

Lemma calculate_complexity_score_sum (statement : token) :
  calculate_complexity_score statement =
    1 + 2 * count_joins statement + 3 * count_subquery_depth statement 0
    + 2 * Spec.flag (contains "GROUP BY" (upper (str statement)))
    + Spec.flag (contains "ORDER BY" (upper (str statement)))
    + Spec.flag (contains "DISTINCT" (upper (str statement))).
Proof.
  unfold calculate_complexity_score, Spec.flag.
  destruct (contains "GROUP BY" _), (contains "ORDER BY" _), (contains "DISTINCT" _);
    lia.
Qed.

(** C8, as stated, fails on a text of two statements.  The score is
    computed from the first statement, [has_aggregation] from the whole
    text: on [SELECT a FROM t; SELECT b FROM u GROUP BY b] the
    dictionary holds no join, no subquery, [has_aggregation = True] and
    [has_order = False], so that the stated score is 3, and it holds
    [estimated_complexity = 1]. *)
Lemma estimated_complexity_not_whole_text :
  exists d : gmap string pyval,
    estimate_cost Trees.parse_two "SELECT a FROM t; SELECT b FROM u GROUP BY b" = Ret d /\
    d !! "join_count" = Some (PInt 0) /\
    d !! "subquery_depth" = Some (PInt 0) /\
    d !! "has_aggregation" = Some (PBool true) /\
    d !! "has_order" = Some (PBool false) /\
    Spec.stated_score d "SELECT a FROM t; SELECT b FROM u GROUP BY b" = Some 3%Z /\
    d !! "estimated_complexity" = Some (PInt 1).
Proof. eexists. repeat split; reflexivity. Qed.

(** C8, amended.  When the parser yields a statement, the dictionary of
    [estimate_cost] holds [estimated_complexity = 1 + 2*join_count +
    3*subquery_depth + 2 (GROUP BY present) + 1 (ORDER BY present) +
    1 (DISTINCT present)], with [join_count] and [subquery_depth] the
    values stored under these keys and the three words looked up in the
    upper-cased text of the first statement; when that statement is the
    whole text, the first two flags are the values stored under
    [has_aggregation] and [has_order].  On [SELECT a FROM t] the score
    is 1. *)
Theorem estimated_complexity_formula :
  (forall (sqlparse_parse : string -> outcome (list token)) (sql_query : string)
          (parsed : token) (rest : list token),
      sqlparse_parse sql_query = Ret (parsed :: rest) ->
      exists (d : gmap string pyval) (join_count subquery_depth : nat),
        estimate_cost sqlparse_parse sql_query = Ret d /\
        d !! "join_count" = Some (PInt (Z.of_nat join_count)) /\
        d !! "subquery_depth" = Some (PInt (Z.of_nat subquery_depth)) /\
        d !! "estimated_complexity" =
          Some (PInt (Z.of_nat
                  (1 + 2 * join_count + 3 * subquery_depth
                   + 2 * Spec.flag (contains "GROUP BY" (upper (str parsed)))
                   + Spec.flag (contains "ORDER BY" (upper (str parsed)))
                   + Spec.flag (contains "DISTINCT" (upper (str parsed)))))) /\
        (str parsed = sql_query ->
         exists has_aggregation has_order : bool,
           d !! "has_aggregation" = Some (PBool has_aggregation) /\
           d !! "has_order" = Some (PBool has_order) /\
           d !! "estimated_complexity" =
             Some (PInt (Z.of_nat
                     (1 + 2 * join_count + 3 * subquery_depth
                      + 2 * Spec.flag has_aggregation + Spec.flag has_order
                      + Spec.flag (contains "DISTINCT" (upper sql_query))))))) /\
  (exists d : gmap string pyval,
      estimate_cost Trees.parse_known "SELECT a FROM t" = Ret d /\
      d !! "estimated_complexity" = Some (PInt 1)).
Proof.
  split.
  - intros parse sql parsed rest Hp.
    eexists _, (count_joins parsed), (count_subquery_depth parsed 0).
    split; [eapply estimate_cost_on_statement; exact Hp|].
    split; [by rewrite lookup_insert_eq|].
    split; [by rewrite lookup_insert_ne, lookup_insert_eq|].
    split.
    + do 4 (rewrite lookup_insert_ne; [|done]). rewrite lookup_insert_eq.
      by rewrite calculate_complexity_score_sum.
    + intros Hs. eexists _, _.
      split; [do 2 (rewrite lookup_insert_ne; [|done]); by rewrite lookup_insert_eq|].
      split; [do 3 (rewrite lookup_insert_ne; [|done]); by rewrite lookup_insert_eq|].
      do 4 (rewrite lookup_insert_ne; [|done]). rewrite lookup_insert_eq.
      by rewrite calculate_complexity_score_sum, Hs.
  - eexists. split; [by apply (estimate_cost_on_statement _ _ Trees.stmt_a [])|].
    do 4 (rewrite lookup_insert_ne; [|done]). by rewrite lookup_insert_eq.
Qed.

(** The formula at [SELECT * FROM a LEFT JOIN b]: two joins counted, no
    subquery, score 5. *)
Lemma estimated_complexity_formula_witness :
  exists (d : gmap string pyval) (join_count subquery_depth : nat),
    estimate_cost Trees.parse_known "SELECT * FROM a LEFT JOIN b" = Ret d /\
    d !! "join_count" = Some (PInt (Z.of_nat join_count)) /\
    d !! "subquery_depth" = Some (PInt (Z.of_nat subquery_depth)) /\
    d !! "estimated_complexity" =
      Some (PInt (Z.of_nat
              (1 + 2 * join_count + 3 * subquery_depth
               + 2 * Spec.flag (contains "GROUP BY"
                                  (upper (str (Trees.stmt_join "LEFT JOIN"))))
               + Spec.flag (contains "ORDER BY"
                              (upper (str (Trees.stmt_join "LEFT JOIN"))))
               + Spec.flag (contains "DISTINCT"
                              (upper (str (Trees.stmt_join "LEFT JOIN"))))))) /\
    (str (Trees.stmt_join "LEFT JOIN") = "SELECT * FROM a LEFT JOIN b" ->
     exists has_aggregation has_order : bool,
       d !! "has_aggregation" = Some (PBool has_aggregation) /\
       d !! "has_order" = Some (PBool has_order) /\
       d !! "estimated_complexity" =
         Some (PInt (Z.of_nat
                 (1 + 2 * join_count + 3 * subquery_depth
                  + 2 * Spec.flag has_aggregation + Spec.flag has_order
                  + Spec.flag (contains "DISTINCT"
                                 (upper "SELECT * FROM a LEFT JOIN b")))))).
Proof.
  apply (proj1 estimated_complexity_formula Trees.parse_known
           "SELECT * FROM a LEFT JOIN b" (Trees.stmt_join "LEFT JOIN") []).
  reflexivity.
Defined.

Example estimated_complexity_left_join :
  calculate_complexity_score (Trees.stmt_join "LEFT JOIN") = 5.
Proof. reflexivity. Qed.

(** C9, as stated, fails on the empty text: the parser yields no
    statement, indexing raises, and the handler returns a dictionary with
    the single key [estimated_complexity]. *)
Lemma estimate_cost_empty_text_lacks_fields :
  exists d : gmap string pyval,
    estimate_cost Trees.parse_known "" = Ret d /\
    d !! "estimated_complexity" = Some (PInt 0) /\
    d !! "join_count" = None /\
    ~ Spec.has_all_fields d.
Proof.
  eexists. split; [reflexivity|]. split; [reflexivity|]. split; [reflexivity|].
  intros H. inversion H as [|? ? [v Hv] _]. discriminate Hv.
Qed.

(** C9, amended.  [estimate_cost] never raises and always returns a
    dictionary with the key [estimated_complexity]; when the parser yields
    a statement the dictionary has all five keys; when the parser yields
    no statement, or raises, the dictionary is [{estimated_complexity: 0}]
    and nothing else. *)
Theorem estimate_cost_total
    (sqlparse_parse : string -> outcome (list token)) (sql_query : string) :
  exists d : gmap string pyval,
    estimate_cost sqlparse_parse sql_query = Ret d /\
    is_Some (d !! "estimated_complexity") /\
    ((exists parsed rest, sqlparse_parse sql_query = Ret (parsed :: rest)) ->
     Spec.has_all_fields d) /\
    (sqlparse_parse sql_query = Ret [] \/ (exists e, sqlparse_parse sql_query = Raise e) ->
     d = <["estimated_complexity" := PInt 0]> ∅).
Proof.
  destruct (sqlparse_parse sql_query) as [[|parsed rest]|e] eqn:Hp.
  - eexists. split; [apply estimate_cost_on_failure; by left|].
    split; [by rewrite lookup_insert_eq|]. split; [|done].
    intros (? & ? & H). discriminate H.
  - eexists. split; [eapply estimate_cost_on_statement; exact Hp|].
    split; [do 4 (rewrite lookup_insert_ne; [|done]); by rewrite lookup_insert_eq|].
    split.
    + intros _. unfold Spec.has_all_fields, Spec.cost_keys.
      repeat constructor.
      * by rewrite lookup_insert_eq.
      * by rewrite lookup_insert_ne, lookup_insert_eq.
      * do 2 (rewrite lookup_insert_ne; [|done]). by rewrite lookup_insert_eq.
      * do 3 (rewrite lookup_insert_ne; [|done]). by rewrite lookup_insert_eq.
      * do 4 (rewrite lookup_insert_ne; [|done]). by rewrite lookup_insert_eq.
    + intros [H | [? H]]; discriminate H.
  - eexists. split; [apply estimate_cost_on_failure; right; by exists e|].
    split; [by rewrite lookup_insert_eq|]. split; [|done].
    intros (? & ? & H). discriminate H.
Qed.

(** The theorem at [SELECT a FROM t]. *)
Lemma estimate_cost_total_witness :
  exists d : gmap string pyval,
    estimate_cost Trees.parse_known "SELECT a FROM t" = Ret d /\
    is_Some (d !! "estimated_complexity") /\
    ((exists parsed rest, Trees.parse_known "SELECT a FROM t" = Ret (parsed :: rest)) ->
     Spec.has_all_fields d) /\
    (Trees.parse_known "SELECT a FROM t" = Ret [] \/
     (exists e, Trees.parse_known "SELECT a FROM t" = Raise e) ->
     d = <["estimated_complexity" := PInt 0]> ∅).
Proof. exact (estimate_cost_total Trees.parse_known "SELECT a FROM t"). Defined.

(* ===================================================================== *)
(** ** Further results on query_executor.py *)
(* ===================================================================== *)

(** *** Further facts on strings *)

Lemma rstrip_prefix_class (f : ascii -> bool) (s : string) :
  exists r, s = rstrip_by f s ++ r /\ all_chars f r = true.
Proof.
  induction s as [|a s (r & IH & Hr)].
  - by exists "".
  - cbn [rstrip_by]. destruct (rstrip_by f s) as [|b t] eqn:Ht.
    + destruct (f a) eqn:Ha.
      * exists (String a s). split; [reflexivity|].
        cbn [String.append] in IH. simpl. rewrite Ha. simpl. by rewrite IH.
      * exists r. split; [|exact Hr]. cbn [String.append] in *. by rewrite <- IH.
    + exists r. split; [|exact Hr]. cbn [String.append] in *. by rewrite <- IH.
Qed.

(** A word none of whose characters is in the class [g] does not reach
    into a text made of characters of [g]. *)
Lemma startswith_cut (g : ascii -> bool) (w x z : string) :
  all_chars g z = true -> all_chars (fun a => negb (g a)) w = true ->
  startswith (x ++ z) w = true -> startswith x w = true.
Proof.
  intros Hz. revert x. induction w as [|c w IH]; intros x Hw H.
  - apply startswith_nil.
  - simpl in Hw. apply andb_true_iff in Hw as [Hc Hw].
    destruct x as [|b x].
    + destruct z as [|a z]; [discriminate H|]. simpl in H, Hz.
      apply andb_true_iff in H as [Hac _]. apply Ascii.eqb_eq in Hac as ->.
      apply andb_true_iff in Hz as [Hz _]. rewrite Hz in Hc. discriminate Hc.
    + cbn [String.append startswith] in *.
      apply andb_true_iff in H as [-> H]. by rewrite (IH x Hw H).
Qed.

Lemma contains_cut (g : ascii -> bool) (w x z : string) :
  w <> "" ->
  all_chars g z = true -> all_chars (fun a => negb (g a)) w = true ->
  contains w (x ++ z) = true -> contains w x = true.
Proof.
  intros Hne Hz Hw. induction x as [|a x IH]; intros H.
  - exfalso. cbn [String.append] in H. clear -Hne Hz Hw H.
    induction z as [|a z IH]; [destruct w; [congruence | discriminate H]|].
    rewrite contains_cons in H. apply orb_true_iff in H as [H | H].
    + apply (startswith_cut g w "" (String a z) Hz Hw) in H.
      destruct w; [congruence | discriminate H].
    + simpl in Hz. apply andb_true_iff in Hz as [_ Hz]. by apply IH.
  - cbn [String.append] in H. rewrite contains_cons in *.
    apply orb_true_iff in H as [H | H].
    + change (String a (x ++ z)) with (String a x ++ z) in H.
      by rewrite (startswith_cut g w _ z Hz Hw H).
    + rewrite (IH H). apply orb_true_r.
Qed.

Lemma upper_lstrip (s : string) :
  upper (lstrip_by isspace s) = lstrip_by isspace (upper s).
Proof.
  induction s as [|a s IH]; [reflexivity|]. cbn [lstrip_by upper].
  rewrite isspace_upper. destruct (isspace a); [exact IH | reflexivity].
Qed.

Lemma upper_rstrip (s : string) :
  upper (rstrip_by isspace s) = rstrip_by isspace (upper s).
Proof.
  induction s as [|a s IH]; [reflexivity|]. cbn [rstrip_by upper].
  rewrite <- IH, isspace_upper.
  destruct (rstrip_by isspace s); [destruct (isspace a)|]; reflexivity.
Qed.

Lemma upper_strip (s : string) : upper (strip s) = strip (upper s).
Proof. unfold strip, strip_by. by rewrite upper_rstrip, upper_lstrip. Qed.

Lemma upper_drop_last (s : string) : upper (drop_last s) = drop_last (upper s).
Proof.
  induction s as [|a s IH]; [reflexivity|]. destruct s as [|b s]; [reflexivity|].
  change (drop_last (String a (String b s))) with (String a (drop_last (String b s))).
  cbn [upper].
  change (drop_last (String (upper_char a) (String (upper_char b) (upper s))))
    with (String (upper_char a) (drop_last (upper (String b s)))).
  f_equal. exact IH.
Qed.

(** A part of a text that holds a word. *)
Lemma contains_strip_inv (w s : string) :
  contains w (strip s) = true -> contains w s = true.
Proof.
  unfold strip, strip_by. intros H.
  destruct (lstrip_suffix isspace s) as [l Hl].
  destruct (rstrip_prefix isspace (lstrip_by isspace s)) as [r Hr].
  rewrite Hl, Hr. apply contains_app_r. by apply contains_app_l.
Qed.

(** *** The rewritten query holds the keyword *)

(** The substitution leaves the text as it is or puts the replacement
    somewhere into it. *)
Lemma sub_go_cases (ic : bool) (p : regex) (repl : string) (s : string) :
  forall prev skip,
    sub_go ic p repl prev skip s = drop skip s \/
    exists x y, sub_go ic p repl prev skip s = x ++ repl ++ y.
Proof.
  induction s as [|a s IH]; intros prev [|k]; cbn [sub_go drop].
  - destruct (match_here ic p prev "") as [[n g]|]; [right | by left].
    by exists "", "".
  - by left.
  - destruct (match_here ic p prev (String a s)) as [[n g]|].
    + right. exists "". eexists. reflexivity.
    + destruct (IH (Some a) 0) as [E | (x & y & E)]; rewrite E.
      * left. by destruct s.
      * right. by exists (String a x), y.
  - apply IH.
Qed.

Lemma limit_in_stripped (s : string) :
  endswith s ";" = true ->
  contains "LIMIT" (strip (upper s)) = true ->
  contains "LIMIT" (upper (strip (drop_last s))) = true.
Proof.
  intros He Hc. rewrite upper_strip, upper_drop_last.
  assert (upper s = drop_last (upper s) ++ ";") as Hs.
  { rewrite <- upper_drop_last. rewrite (endswith_drop_last s He) at 1.
    by rewrite upper_app. }
  set (d := drop_last (upper s)) in *. rewrite Hs in Hc.
  assert (strip (d ++ ";") = lstrip_by isspace d ++ ";") as E.
  { change (d ++ ";") with (d ++ ";" ++ "").
    unfold strip. rewrite strip_around by reflexivity. reflexivity. }
  rewrite E in Hc. unfold strip, strip_by.
  destruct (rstrip_prefix_class isspace (lstrip_by isspace d)) as (r & Hr & Hsp).
  rewrite Hr, sapp_assoc in Hc.
  apply (contains_cut (fun a => isspace a || Ascii.eqb a ";") "LIMIT" _ (r ++ ";"));
    [discriminate | | reflexivity | exact Hc].
  rewrite all_chars_app. apply andb_true_iff. split; [|reflexivity].
  clear -Hsp. induction r as [|a r IH]; [reflexivity|]. simpl in *.
  apply andb_true_iff in Hsp as [-> Hr]. by rewrite IH.
Qed.

(** X2.  Whatever the text and the row cap are, the upper-cased text of the
    rewritten query holds the letters LIMIT: the rewrite appends the
    clause, replaces a clause by [LIMIT <max_rows>], or leaves a text in
    which the letters already stand. *)
Theorem add_limit_clause_has_keyword (max_rows : Z) (sql_query : string) :
  contains "LIMIT" (upper (add_limit_clause max_rows sql_query)) = true.
Proof.
  unfold add_limit_clause.
  destruct (contains "LIMIT" (strip (upper sql_query))) eqn:Hc; cbn [negb].
  - assert (contains "LIMIT"
              (upper (if endswith sql_query ";" then strip (drop_last sql_query)
                      else sql_query)) = true) as Hq.
    { destruct (endswith sql_query ";") eqn:He.
      - by apply limit_in_stripped.
      - by apply contains_strip_inv. }
    destruct (search false limit_search_re _) as [[[i n] g]|]; [|exact Hq].
    destruct (_ >? _)%Z; [|exact Hq].
    unfold sub.
    destruct (sub_go_cases true limit_sub_re ("LIMIT " ++ str_of_Z max_rows)
                (if endswith sql_query ";" then strip (drop_last sql_query)
                 else sql_query) None 0) as [E | (x & y & E)]; rewrite E.
    + exact Hq.
    + rewrite !upper_app. apply contains_app_r, contains_app_l, contains_app_l.
      reflexivity.
  - rewrite !upper_app. apply contains_app_r, contains_app_l. reflexivity.
Qed.

(** *** Numbers as text *)

Lemma string_of_uint_digits (d : Decimal.uint) :
  all_chars isdigit (NilEmpty.string_of_uint d) = true.
Proof. induction d; simpl; try reflexivity; exact IHd. Qed.

Lemma string_of_uint_nonempty (d : Decimal.uint) :
  d <> Decimal.Nil -> NilEmpty.string_of_uint d <> "".
Proof. destruct d; simpl; try congruence; discriminate. Qed.

(** [str(n)] of a natural number is a non-empty string of digits, and
    [int] reads it back. *)
Lemma str_of_Z_nonneg (z : Z) :
  (0 <= z)%Z ->
  str_of_Z z <> "" /\ all_chars isdigit (str_of_Z z) = true /\
  int_of_digits (str_of_Z z) = z.
Proof.
  intros Hz. destruct z as [|p|p]; [by repeat split | | lia].
  unfold str_of_Z, int_of_digits. cbn [Z.to_int NilZero.string_of_int].
  unfold NilZero.string_of_uint.
  pose proof (Unsigned.to_uint_nonnil p) as Hnil.
  destruct (Pos.to_uint p) as [|u|u|u|u|u|u|u|u|u|u] eqn:E; [congruence|..];
    rewrite <- E in *;
    (split; [by apply string_of_uint_nonempty|]);
    (split; [apply string_of_uint_digits|]);
    rewrite NilEmpty.usu; unfold Z.of_uint; by rewrite Unsigned.of_to.
Qed.

(** *** Applying the rewrite twice *)

Lemma contains_blank_after (w x : string) :
  w <> "" -> all_chars (fun a => negb (isspace a)) w = true ->
  contains w x = false -> contains w (x ++ " ") = false.
Proof.
  intros Hne Hw Hx. destruct (contains w (x ++ " ")) eqn:E; [|reflexivity].
  by rewrite (contains_cut isspace w x " " Hne eq_refl Hw E) in Hx.
Qed.

Lemma stripped_no_limit (s : string) :
  contains "LIMIT" (upper s) = false ->
  contains "LIMIT"
    (upper (if endswith s ";" then strip (drop_last s) else s)) = false.
Proof.
  intros H. destruct (endswith s ";"); [|exact H].
  rewrite upper_strip. apply contains_strip.
  destruct (drop_last_prefix s) as [r Hr]. rewrite Hr, upper_app in H.
  by apply contains_false_app in H as [H _].
Qed.

(** X3.  For a row cap that is not negative and a text without the letters
    LIMIT (in any case), rewriting the rewritten query changes nothing:
    the appended clause [LIMIT <max_rows>] is found, read back as
    [max_rows], and kept. *)
Theorem add_limit_clause_idempotent (max_rows : Z) (sql_query : string) :
  (0 <= max_rows)%Z ->
  contains "LIMIT" (upper sql_query) = false ->
  add_limit_clause max_rows (add_limit_clause max_rows sql_query) =
    add_limit_clause max_rows sql_query.
Proof.
  intros Hm Hc. rewrite (add_limit_clause_no_limit max_rows sql_query Hc).
  set (x := if endswith sql_query ";" then strip (drop_last sql_query) else sql_query).
  destruct (str_of_Z_nonneg max_rows Hm) as (Hne & Hdg & Hint).
  assert (x ++ " LIMIT " ++ str_of_Z max_rows =
          (x ++ " ") ++ "LIMIT" ++ " " ++ str_of_Z max_rows ++ "") as E
    by (by rewrite sapp_nil_r, sapp_assoc).
  rewrite E at 1.
  rewrite (add_limit_clause_single (x ++ " ") "LIMIT" " " (str_of_Z max_rows) "");
    try done.
  - rewrite <- E, Hint, Z.gtb_ltb, Z.ltb_irrefl.
    replace (x ++ " LIMIT " ++ str_of_Z max_rows)
      with ((x ++ " LIMIT ") ++ str_of_Z max_rows) by (by rewrite sapp_assoc).
    rewrite (endswith_app _ _ Hne), (digits_no_semicolon _ Hdg).
    rewrite sapp_nil_r, !sapp_assoc. reflexivity.
  - apply contains_numeric_limit. rewrite upper_app.
    apply contains_blank_after; [discriminate | reflexivity |].
    by apply stripped_no_limit.
Qed.

Lemma add_limit_clause_idempotent_witness :
  add_limit_clause 1000 (add_limit_clause 1000 " SELECT a FROM t ;") =
    add_limit_clause 1000 " SELECT a FROM t ;".
Proof.
  apply (add_limit_clause_idempotent 1000 " SELECT a FROM t ;"); [lia | reflexivity].
Defined.

(** *** A keyword without a number *)

(** A match of the search pattern is a clause with a number. *)
Lemma limit_search_match_inv (prev : option ascii) (s : string) (r : matched) :
  match_here false limit_search_re prev s = Some r ->
  Shape.numeric_limit_here s = true.
Proof.
  unfold limit_search_re. destruct r as [n g]. intros H.
  apply match_here_lits_inv in H as (s1 & n1 & -> & _ & H).
  cbn [match_here] in H.
  destruct (rep1 Space _ s1) as [[m [n2 g2]]|] eqn:Hr; [|discriminate].
  apply rep1_inv in Hr as (ws & s2 & -> & _ & Hws & Hsp & Hk).
  destruct (rep1 Digit _ s2) as [[m' [n3 g3]]|] eqn:Hd; [|discriminate].
  apply rep1_inv in Hd as (ds & s3 & -> & _ & Hds & Hdg & _).
  unfold Shape.numeric_limit_here.
  rewrite startswith_app.
  change 5 with (String.length "LIMIT"). rewrite drop_app.
  rewrite (first_char_app ws _ Hws), (first_char_class Space ws Hws Hsp).
  assert (isdigit_opt (first_char (ds ++ s3)) = true) as Hfd.
  { rewrite (first_char_app ds _ Hds). destruct ds as [|d ds]; [congruence|].
    simpl in *. by apply andb_true_iff in Hdg as [Hd _]. }
  rewrite lstrip_all; [by rewrite Hfd | exact Hsp |].
  destruct (ds ++ s3) as [|d t]; [discriminate Hfd|]. simpl in *.
  by rewrite (digit_not_space d Hfd).
Qed.

Lemma numeric_limit_strip (s : string) :
  Shape.numeric_limit s = false -> Shape.numeric_limit (strip s) = false.
Proof.
  intros H. destruct (Shape.numeric_limit (strip s)) eqn:E; [|reflexivity].
  unfold strip, strip_by in E.
  destruct (lstrip_suffix isspace s) as [l Hl].
  destruct (rstrip_prefix isspace (lstrip_by isspace s)) as [r Hr].
  rewrite Hl, Hr in H.
  by rewrite (numeric_limit_app_r l _ (numeric_limit_app_l _ r E)) in H.
Qed.

Lemma search_limit_none (prev : option ascii) (s : string) :
  Shape.numeric_limit s = false ->
  search_from false limit_search_re prev s = None.
Proof.
  revert prev. induction s as [|a s IH]; intros prev H; cbn [search_from].
  - reflexivity.
  - cbn [Shape.numeric_limit] in H. apply orb_false_iff in H as [Hh Ht].
    destruct (match_here false limit_search_re prev (String a s)) as [[n g]|] eqn:Hm.
    + apply limit_search_match_inv in Hm. congruence.
    + by rewrite (IH (Some a) Ht).
Qed.

Lemma contains_strip_class (w s : string) :
  w <> "" -> all_chars (fun a => negb (isspace a)) w = true ->
  contains w s = true -> contains w (strip s) = true.
Proof.
  intros Hne Hw H. unfold strip, strip_by.
  destruct (rstrip_prefix_class isspace (lstrip_by isspace s)) as (r & Hr & Hsp).
  apply (contains_cut isspace w _ r Hne Hsp Hw). rewrite <- Hr.
  clear r Hr Hsp. induction s as [|a s IH]; [exact H|].
  cbn [lstrip_by]. destruct (isspace a) eqn:Ha; [|exact H].
  apply IH. rewrite contains_cons in H. apply orb_true_iff in H as [H | H]; [|exact H].
  exfalso. destruct w as [|c w]; [congruence|]. simpl in H, Hw.
  apply andb_true_iff in H as [Hac _]. apply Ascii.eqb_eq in Hac as ->.
  rewrite Ha in Hw. discriminate Hw.
Qed.

(** X4.  When the text holds the letters LIMIT but nowhere LIMIT,
    whitespace and a digit (the letters are part of a name, say), no
    clause is appended and none is replaced: the result is the text
    without its final semicolon and the whitespace around it, or the
    text itself.  The query then runs without a row cap. *)
Theorem add_limit_clause_without_number (max_rows : Z) (sql_query : string) :
  contains "LIMIT" (upper sql_query) = true ->
  Shape.numeric_limit (upper sql_query) = false ->
  add_limit_clause max_rows sql_query =
    if endswith sql_query ";" then strip (drop_last sql_query) else sql_query.
Proof.
  intros Hc Hn. unfold add_limit_clause.
  rewrite (contains_strip_class "LIMIT" _ ltac:(discriminate) eq_refl Hc). cbn [negb].
  unfold search. by rewrite (search_limit_none None _ (numeric_limit_strip _ Hn)).
Qed.

Lemma add_limit_clause_without_number_witness :
  add_limit_clause 1000 "SELECT creditLimit FROM customers;" =
    "SELECT creditLimit FROM customers".
Proof.
  apply (add_limit_clause_without_number 1000 "SELECT creditLimit FROM customers;");
    reflexivity.
Defined.

(** *** Invariants of the execution result *)

(** The result while the assignments that follow [fetchall] are made. *)
Lemma assignments_partial (max_rows : Z) (rows : list row) (done : nat) :
  let r :=
    fold_left (fun r assign => assign r) (firstn done (assignments max_rows rows))
      {| success := false; data := []; columns := []; row_count := 0;
         execution_time_ms := 0; truncated := false; error := None |} in
  (success r = true ->
   row_count r = length (data r) /\
   Executor.columns r = match data r with
                        | [] => []
                        | first :: _ => map fst first
                        end /\
   (truncated r = true <->
    data r <> [] /\ (max_rows <= Z.of_nat (length (data r)))%Z)) /\
  (row_count r = 0 \/ row_count r = length (data r)) /\
  (truncated r = true ->
   data r <> [] /\ (max_rows <= Z.of_nat (length (data r)))%Z).
Proof.
  destruct rows as [|first rows].
  - destruct done as [|n]; cbn [assignments firstn fold_left];
      rewrite ?firstn_nil; cbn; repeat split; try done; auto;
      try (intros [? ?]; done).
  - destruct done as [|[|[|[|[|n]]]]]; cbn [assignments firstn fold_left];
      rewrite ?firstn_nil; cbn [fold_left success data Executor.columns row_count
                                  truncated length];
      repeat split; try done; auto; try (intros [? ?]; done);
      try (by apply Z.leb_le); try (intros [_ ?]; by apply Z.leb_le).
Qed.

(** X5.  Whatever the database side does, an exception before the query
    is executed and an alarm that interrupts the assignments to the
    result included: [execution_time_ms] is the elapsed time; a result
    without [error] has [success] set; in a result with [success] set,
    [row_count] is the length of [data], [columns] are the keys of the
    first row (empty without rows) and [truncated] holds exactly when
    there are rows and at least [max_rows] of them; in every result
    [row_count] is 0 or the length of [data], and [truncated] holds only
    with at least [max_rows] rows in [data]. *)
Theorem execute_query_result_invariant
    (max_rows query_timeout : Z) (db : database) (elapsed_ms : Z) (sql_query : string) :
  let r := fst (execute_query max_rows query_timeout db elapsed_ms sql_query) in
  execution_time_ms r = elapsed_ms /\
  (error r = None -> success r = true) /\
  (success r = true ->
   row_count r = length (data r) /\
   Executor.columns r = match data r with
                        | [] => []
                        | first :: _ => map fst first
                        end /\
   (truncated r = true <->
    data r <> [] /\ (max_rows <= Z.of_nat (length (data r)))%Z)) /\
  (row_count r = 0 \/ row_count r = length (data r)) /\
  (truncated r = true ->
   data r <> [] /\ (max_rows <= Z.of_nat (length (data r)))%Z).
Proof.
  assert (forall m,
            let r := failure elapsed_ms m in
            execution_time_ms r = elapsed_ms /\
            (error r = None -> success r = true) /\
            (success r = true ->
             row_count r = length (data r) /\
             Executor.columns r = match data r with
                                  | [] => []
                                  | first :: _ => map fst first
                                  end /\
             (truncated r = true <->
              data r <> [] /\ (max_rows <= Z.of_nat (length (data r)))%Z)) /\
            (row_count r = 0 \/ row_count r = length (data r)) /\
            (truncated r = true ->
             data r <> [] /\ (max_rows <= Z.of_nat (length (data r)))%Z)) as Hfail.
  { intros m. cbn. repeat split; try done; auto. }
  unfold execute_query.
  destruct (db_connect db) as [|e].
  - destruct (db_run db _) as [rows|e|e|rows done e|executed e].
    + destruct rows as [|first rows]; cbn; repeat split; try done; auto;
        try (intros [? ?]; done); try (by apply Z.leb_le);
        try (intros [_ ?]; by apply Z.leb_le).
    + destruct e as [m|m|m]; cbn [fst outer_handlers exn_str]; apply Hfail.
    + destruct e as [m|m|m]; cbn [fst outer_handlers exn_str]; apply Hfail.
    + destruct e as [m|m|m]; cbn [fst outer_handlers exn_str]; try apply Hfail.
      pose proof (assignments_partial max_rows rows done) as Hp. cbn zeta in Hp.
      destruct Hp as (H1 & H2 & H3).
      unfold timed_out. cbn [fst success data Executor.columns row_count truncated
                               error execution_time_ms].
      repeat split; try done; try (by apply H1); try (by apply H3).
      all: try (intros H; by apply H1).
    + destruct e as [m|m|m]; cbn [fst outer_handlers exn_str]; apply Hfail.
  - destruct e as [m|m|m]; cbn [fst outer_handlers exn_str]; apply Hfail.
Qed.

(** The invariant where the alarm fires when all assignments are made:
    the result has the row, [success] set, and the error of the
    time-out. *)
Lemma execute_query_result_invariant_witness :
  let r :=
    fst (execute_query 1000 30
           {| db_connect := Connected;
              db_run := fun _ =>
                Interrupted [[("a", "1")]] 5 (TimeoutException "Query execution timeout") |}
           30001 "SELECT a FROM t") in
  execution_time_ms r = 30001%Z /\
  (error r = None -> success r = true) /\
  (success r = true ->
   row_count r = length (data r) /\
   Executor.columns r = match data r with
                        | [] => []
                        | first :: _ => map fst first
                        end /\
   (truncated r = true <->
    data r <> [] /\ (1000 <= Z.of_nat (length (data r)))%Z)) /\
  (row_count r = 0 \/ row_count r = length (data r)) /\
  (truncated r = true ->
   data r <> [] /\ (1000 <= Z.of_nat (length (data r)))%Z).
Proof.
  apply (execute_query_result_invariant 1000 30
           {| db_connect := Connected;
              db_run := fun _ =>
                Interrupted [[("a", "1")]] 5 (TimeoutException "Query execution timeout") |}
           30001 "SELECT a FROM t").
Defined.

(** An alarm that fires late leaves rows in a result that failed, or an
    error in a result with [success] set. *)
Example execute_query_late_alarm :
  fst (execute_query 1000 30
         {| db_connect := Connected;
            db_run := fun _ =>
              Interrupted [[("a", "1")]] 2 (TimeoutException "Query execution timeout") |}
         30001 "SELECT a FROM t") =
    {| success := false; data := [[("a", "1")]]; columns := ["a"]; row_count := 0;
       execution_time_ms := 30001; truncated := false;
       error := Some "Query exceeded timeout of 30 seconds" |} /\
  fst (execute_query 1000 30
         {| db_connect := Connected;
            db_run := fun _ =>
              Interrupted [[("a", "1")]] 5 (TimeoutException "Query execution timeout") |}
         30001 "SELECT a FROM t") =
    {| success := true; data := [[("a", "1")]]; columns := ["a"]; row_count := 1;
       execution_time_ms := 30001; truncated := false;
       error := Some "Query exceeded timeout of 30 seconds" |}.
Proof. split; reflexivity. Qed.

(** *** The effects on the connection *)

(** X6.  When [pymysql.connect] raises, nothing is executed or closed and
    the call fails.  When it returns a connection, the connection is
    closed on every path and at most the limited query is executed,
    once: the effects are connect, execute the limited query, close, or,
    when an exception is raised before [cursor.execute] is called
    ([signal.signal] outside the main thread, [connection.cursor()]),
    connect, close, and then the call fails. *)
Theorem execute_query_connection_discipline
    (max_rows query_timeout : Z) (db : database) (elapsed_ms : Z) (sql_query : string) :
  let result := execute_query max_rows query_timeout db elapsed_ms sql_query in
  match db_connect db with
  | ConnectRaises _ => snd result = [] /\ success (fst result) = false
  | Connected =>
      snd result = [EConnect; EExecute (add_limit_clause max_rows sql_query); EClose] \/
      (snd result = [EConnect; EClose] /\ success (fst result) = false)
  end.
Proof.
  unfold execute_query.
  destruct (db_connect db) as [|e]; [|by destruct e].
  destruct (db_run db _) as [rows|[m|m|m]|[m|m|m]|rows done [m|m|m]|[|] [m|m|m]];
    cbn; auto.
Qed.

(** Under a server that handles requests outside the main thread,
    [signal.signal] raises [ValueError]: the connection is opened and
    closed, and the query is not executed. *)
Example execute_query_outside_main_thread :
  execute_query 1000 30
    {| db_connect := Connected;
       db_run := fun _ =>
         BlockRaises (OtherException "signal only works in main thread of the main interpreter") |}
    3 "SELECT a FROM t" =
  (failure 3 "Execution error: signal only works in main thread of the main interpreter",
   [EConnect; EClose]).
Proof. reflexivity. Qed.

(* ===================================================================== *)
(** ** Further results on validator.py *)
(* ===================================================================== *)



(** *** Patterns made of words *)

Lemma last_char_word (d : option ascii) (w : string) :
  w <> "" -> all_chars isword w = true -> isword_opt (last_char d w) = true.
Proof.
  revert d. induction w as [|a w IH]; intros d Hne Hall; [congruence|].
  simpl in Hall. apply andb_true_iff in Hall as [Ha Hall].
  destruct w as [|b w]; [exact Ha|].
  cbn [last_char]. apply (IH (Some a)); [discriminate | exact Hall].
Qed.

Lemma first_char_word (w : string) :
  w <> "" -> all_chars isword w = true -> isword_opt (first_char w) = true.
Proof.
  destruct w as [|a w]; [congruence|]. simpl. intros _ H.
  by apply andb_true_iff in H as [H _].
Qed.

(** [\bw\b] matches at the head of a text exactly when [w] stands there
    as a word. *)
Lemma word_pattern (w : string) (prev : option ascii) (s : string) :
  w <> "" -> all_chars isword w = true ->
  match_here false (WordB :: lits w ++ [WordB])%list prev s =
    if Spec.word_here w prev s then Some (String.length w, []) else None.
Proof.
  intros Hne Hall.
  pose proof (first_char_word w Hne Hall) as Hf.
  destruct (Spec.word_here w prev s) eqn:Hw.
  - unfold Spec.word_here in Hw.
    apply andb_true_iff in Hw as [Hw Hafter]. apply andb_true_iff in Hw as [Hs Hprev].
    destruct (startswith_inv _ _ Hs) as [rest ->]. rewrite drop_app in Hafter.
    cbn [match_here]. unfold at_boundary at 1.
    rewrite (first_char_app w rest Hne), Hf.
    apply negb_true_iff in Hprev. rewrite Hprev. cbn [xorb].
    rewrite match_here_lits. cbn [match_here]. unfold at_boundary.
    rewrite (last_char_word prev w Hne Hall).
    apply negb_true_iff in Hafter. rewrite Hafter. cbn [xorb].
    by rewrite Nat.add_0_r.
  - destruct (match_here _ _ _ _) as [[n g]|] eqn:Hm; [|reflexivity]. exfalso.
    cbn [match_here] in Hm. destruct (at_boundary prev s) eqn:Hb; [|discriminate].
    apply match_here_lits_inv in Hm as (s' & n' & -> & -> & H).
    cbn [match_here] in H. destruct (at_boundary _ s') eqn:Hb'; [|discriminate].
    unfold Spec.word_here in Hw. rewrite startswith_app, drop_app in Hw.
    unfold at_boundary in Hb, Hb'.
    rewrite (first_char_app w s' Hne), Hf in Hb.
    rewrite (last_char_word prev w Hne Hall) in Hb'.
    destruct (isword_opt prev); [discriminate|].
    destruct (isword_opt (first_char s')); [discriminate | discriminate].
Qed.

Lemma lstrip_suffix_class (f : ascii -> bool) (s : string) :
  exists l, s = l ++ lstrip_by f s /\ all_chars f l = true.
Proof.
  induction s as [|a s (l & IH & Hl)].
  - by exists "".
  - cbn [lstrip_by]. destruct (f a) eqn:Ha.
    + exists (String a l). split; [cbn [String.append]; by rewrite <- IH|].
      simpl. by rewrite Ha.
    + by exists "".
Qed.

Lemma word_not_space (w : string) :
  w <> "" -> all_chars isword w = true -> class_not isspace (first_char w) = true.
Proof.
  destruct w as [|a w]; [congruence|]. simpl. intros _ H.
  apply andb_true_iff in H as [H _]. apply negb_true_iff.
  destruct (isspace a) eqn:E; [|reflexivity]. by rewrite (space_not_word a E) in H.
Qed.

Section Phrase.

Variables q w : string.

Hypothesis Hq : q <> "".
Hypothesis Hqw : all_chars isword q = true.
Hypothesis Hw : w <> "".
Hypothesis Hww : all_chars isword w = true.

(** The shape of a text at whose head the phrase stands. *)
Lemma phrase_here_shape (prev : option ascii) (s : string) :
  Shape.phrase_here q w prev s = true <->
  exists ws rest,
    s = q ++ ws ++ w ++ rest /\ ws <> "" /\ all_chars isspace ws = true /\
    isword_opt prev = false /\ isword_opt (first_char rest) = false.
Proof.
  unfold Shape.phrase_here. split.
  - intros H. apply andb_true_iff in H as [H Hafter].
    apply andb_true_iff in H as [H Hsw]. apply andb_true_iff in H as [H Hsp].
    apply andb_true_iff in H as [Hs Hprev].
    destruct (startswith_inv _ _ Hs) as [r ->]. rewrite drop_app in *.
    destruct (lstrip_suffix_class isspace r) as (ws & Hr & Hws).
    destruct (startswith_inv _ _ Hsw) as [rest Hrest].
    rewrite Hrest, drop_app in Hafter. rewrite Hrest in Hr.
    exists ws, rest. split; [by rewrite Hr at 1|].
    split; [|split; [exact Hws|split; by apply negb_true_iff]].
    intros ->. cbn [String.append] in Hr. rewrite Hr in Hsp.
    rewrite (first_char_app w rest Hw) in Hsp.
    pose proof (word_not_space w Hw Hww) as Hn.
    destruct (first_char w) as [a|]; [|discriminate]. simpl in *.
    rewrite Hsp in Hn. discriminate Hn.
  - intros (ws & rest & -> & Hne & Hws & Hprev & Hrest).
    rewrite startswith_app, drop_app, Hprev. cbn [negb andb].
    rewrite (first_char_app ws _ Hne), (first_char_class Space ws Hne Hws).
    cbn [andb].
    rewrite lstrip_all; [|exact Hws|].
    + by rewrite startswith_app, drop_app, Hrest.
    + rewrite (first_char_app w rest Hw). by apply word_not_space.
Qed.

Lemma phrase_pattern_match (prev : option ascii) (ws rest : string) :
  ws <> "" -> all_chars isspace ws = true ->
  isword_opt prev = false -> isword_opt (first_char rest) = false ->
  match_here false (Shape.phrase_pattern q w) prev (q ++ ws ++ w ++ rest) =
    Some (String.length (q ++ ws ++ w), []).
Proof.
  intros Hne Hall Hprev Hrest. unfold Shape.phrase_pattern. cbn [match_here].
  assert (at_boundary prev (q ++ ws ++ w ++ rest) = true) as ->.
  { unfold at_boundary. rewrite Hprev, (first_char_app q _ Hq).
    by rewrite (first_char_word q Hq Hqw). }
  rewrite match_here_lits. cbn [app match_here].
  rewrite (rep1_run_some Space _ ws (w ++ rest) (String.length w, [])); try done.
  - by rewrite !slength_app.
  - rewrite (first_char_app w rest Hw).
    pose proof (word_not_space w Hw Hww) as Hn.
    destruct (first_char w) as [a|]; [|reflexivity]. simpl in *.
    by apply negb_true_iff in Hn.
  - rewrite match_here_lits. cbn [match_here]. unfold at_boundary.
    rewrite (last_char_word _ w Hw Hww), Hrest. cbn [xorb]. by rewrite Nat.add_0_r.
Qed.

Lemma phrase_pattern_inv (prev : option ascii) (s : string) (n : nat) (g : list string) :
  match_here false (Shape.phrase_pattern q w) prev s = Some (n, g) ->
  Shape.phrase_here q w prev s = true.
Proof.
  unfold Shape.phrase_pattern. cbn [match_here].
  destruct (at_boundary prev s) eqn:Hb; [|discriminate]. intros H.
  apply match_here_lits_inv in H as (s1 & n1 & -> & -> & H).
  cbn [app match_here] in H.
  destruct (rep1 Space _ s1) as [[m [n2 g2]]|] eqn:Hr; [|discriminate].
  apply rep1_inv in Hr as (ws & s2 & -> & _ & Hne & Hall & Hk).
  apply match_here_lits_inv in Hk as (rest & n3 & -> & _ & Hk).
  cbn [match_here] in Hk. destruct (at_boundary _ rest) eqn:Hb'; [|discriminate].
  apply phrase_here_shape. exists ws, rest. repeat split; try done.
  - unfold at_boundary in Hb. rewrite (first_char_app q _ Hq) in Hb.
    rewrite (first_char_word q Hq Hqw) in Hb. by destruct (isword_opt prev).
  - unfold at_boundary in Hb'. rewrite (last_char_word _ w Hw Hww) in Hb'.
    by destruct (isword_opt (first_char rest)).
Qed.

End Phrase.

(** *** Counting the matches of a pattern *)

Section Counting.

Variable p : regex.
Variable here : option ascii -> string -> bool.

(** A match is an occurrence. *)
Hypothesis Hinv : forall prev s n g,
  match_here false p prev s = Some (n, g) -> here prev s = true.

(** An occurrence is a match of a non-empty text inside which there is no
    other occurrence. *)
Hypothesis Hocc : forall prev s,
  here prev s = true ->
  exists m rest g,
    s = m ++ rest /\ m <> "" /\
    match_here false p prev s = Some (String.length m, g) /\
    (forall a1 a2, m = a1 ++ a2 -> a1 <> "" -> a2 <> "" ->
       here (last_char prev a1) (a2 ++ rest) = false).

Lemma match_none_iff (prev : option ascii) (s : string) :
  match_here false p prev s = None <-> here prev s = false.
Proof.
  split; intros H.
  - destruct (here prev s) eqn:E; [|reflexivity].
    destruct (Hocc _ _ E) as (m & rest & g & _ & _ & Hm & _). congruence.
  - destruct (match_here false p prev s) as [[n g]|] eqn:E; [|reflexivity].
    by rewrite (Hinv _ _ _ _ E) in H.
Qed.

Lemma count_here_no_occurrence (prev : option ascii) (x y : string) :
  (forall a1 a2, x = a1 ++ a2 -> a2 <> "" ->
     here (last_char prev a1) (a2 ++ y) = false) ->
  Shape.count_here here prev (x ++ y) = Shape.count_here here (last_char prev x) y.
Proof.
  revert prev. induction x as [|a x IH]; intros prev H; [reflexivity|].
  cbn [String.append Shape.count_here last_char].
  pose proof (H "" (String a x) eq_refl ltac:(discriminate)) as H0.
  cbn [last_char String.append] in H0. rewrite H0. cbn [Spec.flag plus].
  apply IH. intros a1 a2 -> Ha2. by apply (H (String a a1) a2).
Qed.

(** [re.findall] returns one text for each occurrence. *)
Lemma findall_count_bound (n : nat) :
  forall (s : string) (prev : option ascii),
    String.length s <= n ->
    length (findall_go false p prev 0 s) = Shape.count_here here prev s.
Proof.
  induction n as [|n IH]; intros s prev Hlen.
  - destruct s; [|simpl in Hlen; lia]. cbn [findall_go Shape.count_here].
    destruct (here prev "") eqn:E.
    + destruct (Hocc _ _ E) as (m & rest & g & Hs & Hm & _).
      destruct m; [congruence | discriminate Hs].
    + apply match_none_iff in E. by rewrite E.
  - destruct (here prev s) eqn:E.
    + destruct (Hocc _ _ E) as (m & rest & g & -> & Hm & Hmatch & Hin).
      rewrite (findall_go_match false p prev m rest g Hm Hmatch).
      cbn [length]. rewrite IH.
      * destruct m as [|a m]; [congruence|].
        cbn [String.append Shape.count_here last_char].
        change (String a (m ++ rest)) with (String a m ++ rest). rewrite E.
        cbn [Spec.flag]. f_equal. symmetry. apply count_here_no_occurrence.
        intros a1 a2 -> Ha2. by apply (Hin (String a a1) a2).
      * rewrite slength_app in Hlen. destruct m; [congruence | simpl in Hlen; lia].
    + pose proof (proj2 (match_none_iff _ _) E) as Hm.
      destruct s as [|a s]; cbn [findall_go Shape.count_here]; rewrite Hm, E.
      * reflexivity.
      * cbn [Spec.flag plus]. apply IH. simpl in Hlen. lia.
Qed.

Lemma findall_count (s : string) :
  length (findall false p s) = Shape.count_here here None s.
Proof. unfold findall. by apply (findall_count_bound (String.length s)). Qed.

End Counting.

(** *** Occurrences of a word and of a phrase *)

Lemma word_occurrence (w : string) :
  w <> "" -> all_chars isword w = true ->
  forall prev s,
    Spec.word_here w prev s = true ->
    exists m rest g,
      s = m ++ rest /\ m <> "" /\
      match_here false (WordB :: lits w ++ [WordB])%list prev s
        = Some (String.length m, g) /\
      (forall a1 a2, m = a1 ++ a2 -> a1 <> "" -> a2 <> "" ->
         Spec.word_here w (last_char prev a1) (a2 ++ rest) = false).
Proof.
  intros Hne Hall prev s H.
  pose proof H as H'. unfold Spec.word_here in H'.
  apply andb_true_iff in H' as [H' _]. apply andb_true_iff in H' as [Hs _].
  destruct (startswith_inv _ _ Hs) as [rest ->].
  exists w, rest, []. split; [reflexivity|]. split; [exact Hne|].
  split; [by rewrite (word_pattern w prev _ Hne Hall), H|].
  intros a1 a2 -> Ha1 Ha2. unfold Spec.word_here.
  rewrite all_chars_app in Hall. apply andb_true_iff in Hall as [Hall1 _].
  rewrite (last_char_word prev a1 Ha1 Hall1). cbn [negb].
  by rewrite andb_false_r.
Qed.

(** Inside the text of a phrase no phrase begins. *)
Lemma phrase_no_inner (q0 q w ws rest : string) (prev : option ascii) (a1 a2 : string) :
  all_chars isword q0 = true ->
  q <> "" -> all_chars isword q = true ->
  w <> "" -> all_chars isword w = true ->
  first_char q <> first_char w ->
  all_chars isspace ws = true ->
  q0 ++ ws ++ w = a1 ++ a2 -> a1 <> "" -> a2 <> "" ->
  Shape.phrase_here q w (last_char prev a1) (a2 ++ rest) = false.
Proof.
  intros Hq0w Hq Hqw Hw Hww Hdiff Hws E Ha1 Ha2.
  destruct (Shape.phrase_here q w (last_char prev a1) (a2 ++ rest)) eqn:Hh; [|reflexivity].
  exfalso. unfold Shape.phrase_here in Hh.
  apply andb_true_iff in Hh as [Hh _]. apply andb_true_iff in Hh as [Hh _].
  apply andb_true_iff in Hh as [Hh _]. apply andb_true_iff in Hh as [Hs Hp].
  apply negb_true_iff in Hp.
  symmetry in E. destruct (sapp_eq_app _ _ _ _ E) as [(d & Hd1 & Hd2) | (d & Hd1 & Hd2)].
  - (* q0 = a1 ++ d: the cut lies in the first word *)
    rewrite Hd1 in Hq0w. rewrite all_chars_app in Hq0w.
    apply andb_true_iff in Hq0w as [Hq0w1 _].
    by rewrite (last_char_word prev a1 Ha1 Hq0w1) in Hp.
  - (* a1 = q0 ++ d *)
    assert (a2 = w -> False) as Hat_w.
    { intros ->. apply startswith_inv in Hs as [t Ht].
      destruct q as [|x q']; [congruence|]. destruct w as [|y w']; [congruence|].
      cbn [String.append] in Ht. injection Ht as Ht _. simpl in Hdiff. congruence. }
    destruct (sapp_eq_app _ _ _ _ Hd2) as [(e & He1 & He2) | (e & He1 & He2)].
    + (* d = ws ++ e, w = e ++ a2: the cut lies in the second word *)
      destruct e as [|c' e]; [by apply Hat_w|].
      rewrite Hd1, He1, <- !sapp_assoc, last_char_app in Hp.
      rewrite He2 in Hww. rewrite all_chars_app in Hww.
      apply andb_true_iff in Hww as [Hww1 _].
      by rewrite (last_char_word _ (String c' e) ltac:(discriminate) Hww1) in Hp.
    + (* ws = d ++ e, a2 = e ++ w: the cut lies in the whitespace *)
      destruct e as [|c' e]; [by apply Hat_w|].
      subst a2. rewrite He1 in Hws. rewrite all_chars_app in Hws.
      apply andb_true_iff in Hws as [_ Hws]. simpl in Hws.
      apply andb_true_iff in Hws as [Hc' _].
      apply startswith_inv in Hs as [t Ht].
      destruct q as [|x q']; [congruence|].
      cbn [String.append] in Ht. injection Ht as Ht _. subst x.
      simpl in Hqw. apply andb_true_iff in Hqw as [Hx _].
      by rewrite (space_not_word c' Hc') in Hx.
Qed.

Lemma phrase_occurrence (q w : string) :
  q <> "" -> all_chars isword q = true ->
  w <> "" -> all_chars isword w = true ->
  first_char q <> first_char w ->
  forall prev s,
    Shape.phrase_here q w prev s = true ->
    exists m rest g,
      s = m ++ rest /\ m <> "" /\
      match_here false (Shape.phrase_pattern q w) prev s = Some (String.length m, g) /\
      (forall a1 a2, m = a1 ++ a2 -> a1 <> "" -> a2 <> "" ->
         Shape.phrase_here q w (last_char prev a1) (a2 ++ rest) = false).
Proof.
  intros Hq Hqw Hw Hww Hdiff prev s H.
  apply (phrase_here_shape q w Hw Hww) in H
    as (ws & rest & -> & Hne & Hws & Hprev & Hrest).
  exists (q ++ ws ++ w), rest, [].
  split; [by rewrite !sapp_assoc|].
  split; [destruct q; [congruence | discriminate]|].
  split; [by apply phrase_pattern_match|].
  intros a1 a2 E Ha1 Ha2. by apply (phrase_no_inner q q w ws).
Qed.



(** *** Searching for a pattern *)

Section Searching.

Variable p : regex.
Variable here : option ascii -> string -> bool.

Hypothesis Hiff : forall prev s,
  match_here false p prev s = None <-> here prev s = false.

(** [re.search] finds nothing exactly when there is no occurrence. *)
Lemma search_none_iff (prev : option ascii) (s : string) :
  search_from false p prev s = None <-> Shape.occurs here prev s = false.
Proof.
  revert prev. induction s as [|a s IH]; intros prev;
    cbn [search_from Shape.occurs]; rewrite orb_false_iff.
  - rewrite <- Hiff.
    destruct (match_here false p prev "") as [[n g]|]; split; try done.
    by intros [? _].
  - rewrite <- Hiff, <- IH.
    destruct (match_here false p prev (String a s)) as [[n g]|].
    + split; [discriminate | by intros [? _]].
    + destruct (search_from false p (Some a) s) as [[[i n] g]|]; split; try done.
      by intros [_ ?].
Qed.

End Searching.

Lemma search_word (w s : string) :
  w <> "" -> all_chars isword w = true ->
  search false (WordB :: lits w ++ [WordB])%list s = None <->
  Shape.occurs (Spec.word_here w) None s = false.
Proof.
  intros Hne Hall. apply search_none_iff. intros prev t.
  rewrite (word_pattern w prev t Hne Hall).
  destruct (Spec.word_here w prev t); split; done.
Qed.

Lemma search_phrase (q w s : string) :
  q <> "" -> all_chars isword q = true ->
  w <> "" -> all_chars isword w = true ->
  search false (Shape.phrase_pattern q w) s = None <->
  Shape.occurs (Shape.phrase_here q w) None s = false.
Proof.
  intros Hq Hqw Hw Hww. apply search_none_iff. intros prev t. split; intros H.
  - destruct (Shape.phrase_here q w prev t) eqn:E; [|reflexivity].
    apply (phrase_here_shape q w Hw Hww) in E
      as (ws & rest & -> & Hne & Hws & Hprev & Hrest).
    rewrite (phrase_pattern_match q w Hq Hqw Hw Hww) in H; done.
  - destruct (match_here false (Shape.phrase_pattern q w) prev t) as [[n g]|] eqn:E;
      [|reflexivity].
    by rewrite (phrase_pattern_inv q w Hq Hqw Hw Hww _ _ _ _ E) in H.
Qed.

Lemma occurs_startswith (w : string) (prev : option ascii) (s : string) :
  Shape.occurs (fun _ t => startswith t w) prev s = contains w s.
Proof.
  revert prev. induction s as [|a s IH]; intros prev; cbn [Shape.occurs contains].
  - reflexivity.
  - by rewrite IH.
Qed.

Lemma search_literal (w s : string) :
  search false (lits w) s = None <-> contains w s = false.
Proof.
  rewrite <- (occurs_startswith w None s). apply search_none_iff. intros prev t.
  rewrite <- (List.app_nil_r (lits w)). split; intros H.
  - destruct (startswith t w) eqn:E; [|reflexivity].
    apply startswith_inv in E as [t' ->]. rewrite match_here_lits in H.
    discriminate H.
  - destruct (match_here false (lits w ++ [])%list prev t) as [[n g]|] eqn:E;
      [|reflexivity].
    apply match_here_lits_inv in E as (t' & n' & -> & _ & _).
    by rewrite startswith_app in H.
Qed.

(** Upper-casing does not create or remove a character that is no
    letter. *)
Lemma upper_char_not_letter (c a : ascii) :
  islower c = false -> isupper c = false ->
  Ascii.eqb (upper_char a) c = Ascii.eqb a c.
Proof.
  intros Hl Hu. unfold upper_char. destruct (islower a) eqn:Ha; [|reflexivity].
  assert (isupper (ascii_of_nat (code a - 32)) = true) as Hup
    by (revert Ha; clear; all_chars_cases a).
  destruct (Ascii.eqb_spec (ascii_of_nat (code a - 32)) c) as [E|_];
    [rewrite E in Hup; congruence|].
  destruct (Ascii.eqb_spec a c) as [E|_]; [rewrite E in Ha; congruence | reflexivity].
Qed.

Lemma startswith_upper_not_letter (w s : string) :
  all_chars (fun c => negb (islower c) && negb (isupper c)) w = true ->
  startswith (upper s) w = startswith s w.
Proof.
  revert s. induction w as [|c w IH]; intros s Hw; [by destruct s|].
  simpl in Hw. apply andb_true_iff in Hw as [Hc Hw].
  apply andb_true_iff in Hc as [Hl Hu].
  apply negb_true_iff in Hl. apply negb_true_iff in Hu.
  destruct s as [|a s]; [reflexivity|]. cbn [upper startswith].
  by rewrite (upper_char_not_letter c a Hl Hu), (IH s Hw).
Qed.

Lemma contains_upper_not_letter (w s : string) :
  all_chars (fun c => negb (islower c) && negb (isupper c)) w = true ->
  contains w (upper s) = contains w s.
Proof.
  intros Hw. induction s as [|a s IH].
  - reflexivity.
  - cbn [upper]. rewrite !contains_cons, IH. f_equal.
    by apply (startswith_upper_not_letter w (String a s)).
Qed.

(** *** What the join count counts *)

Lemma count_joins_sum (sql_str : string) :
  fold_left
    (fun join_count pattern => join_count + length (findall false pattern sql_str))
    join_patterns 0 =
  Shape.count_here (Spec.word_here "JOIN") None sql_str + Shape.qualified_joins sql_str.
Proof.
  assert (forall q, In q Spec.qualifiers ->
            length (findall false (qualified_join q) sql_str) =
            Shape.count_here (Shape.phrase_here q "JOIN") None sql_str) as Hq.
  { intros q Hq. change (qualified_join q) with (Shape.phrase_pattern q "JOIN").
    assert (q <> "" /\ all_chars isword q = true /\ first_char q <> first_char "JOIN")
      as (Hne & Hall & Hdiff).
    { unfold Spec.qualifiers in Hq. simpl in Hq.
      destruct Hq as [<-|[<-|[<-|[<-|[<-|[]]]]]]; by repeat split. }
    apply findall_count.
    - apply (phrase_pattern_inv q "JOIN" Hne Hall); [discriminate | reflexivity].
    - apply (phrase_occurrence q "JOIN" Hne Hall); [discriminate | reflexivity | exact Hdiff]. }
  assert (length (findall false (WordB :: lits "JOIN" ++ [WordB])%list sql_str) =
          Shape.count_here (Spec.word_here "JOIN") None sql_str) as Hj.
  { apply findall_count.
    - intros prev s n g H.
      rewrite (word_pattern "JOIN" prev s) in H by (discriminate || reflexivity).
      by destruct (Spec.word_here "JOIN" prev s).
    - apply word_occurrence; [discriminate | reflexivity]. }
  unfold join_patterns, Shape.qualified_joins, Shape.qualified_from, Spec.qualifiers.
  cbn [fold_left map list_sum fold_right].
  rewrite Hj, !Hq by (unfold Spec.qualifiers; simpl; tauto). lia.
Qed.

(** *** A join keyword is counted once or twice *)

Lemma count_here_suffix (here : option ascii -> string -> bool) (prev : option ascii)
    (x y : string) :
  Shape.count_here here (last_char prev x) y <= Shape.count_here here prev (x ++ y).
Proof.
  revert prev. induction x as [|a x IH]; intros prev; [reflexivity|].
  cbn [String.append Shape.count_here last_char].
  specialize (IH (Some a)). lia.
Qed.

Lemma count_here_skip (here : option ascii -> string -> bool) (prev : option ascii)
    (m rest : string) :
  m <> "" ->
  (forall a1 a2, m = a1 ++ a2 -> a1 <> "" -> a2 <> "" ->
     here (last_char prev a1) (a2 ++ rest) = false) ->
  Shape.count_here here prev (m ++ rest) =
    Spec.flag (here prev (m ++ rest)) + Shape.count_here here (last_char prev m) rest.
Proof.
  intros Hm Hin. destruct m as [|a m]; [congruence|].
  cbn [String.append Shape.count_here last_char]. f_equal.
  apply count_here_no_occurrence.
  intros a1 a2 -> Ha2. by apply (Hin (String a a1) a2).
Qed.

Lemma qualifier_word (q : string) :
  In q Spec.qualifiers ->
  q <> "" /\ all_chars isword q = true /\ first_char q <> first_char "JOIN".
Proof.
  unfold Spec.qualifiers. simpl.
  intros [<-|[<-|[<-|[<-|[<-|[]]]]]]; by repeat split.
Qed.

Lemma qualifier_first_char (q q0 : string) :
  In q Spec.qualifiers -> In q0 Spec.qualifiers ->
  first_char q = first_char q0 -> q = q0.
Proof.
  unfold Spec.qualifiers. simpl.
  intros [<-|[<-|[<-|[<-|[<-|[]]]]]] [<-|[<-|[<-|[<-|[<-|[]]]]]] H;
    try reflexivity; discriminate H.
Qed.

Lemma phrase_here_first (q w : string) (prev : option ascii) (s : string) :
  q <> "" -> Shape.phrase_here q w prev s = true -> first_char s = first_char q.
Proof.
  intros Hq H. unfold Shape.phrase_here in H.
  apply andb_true_iff in H as [H _]. apply andb_true_iff in H as [H _].
  apply andb_true_iff in H as [H _]. apply andb_true_iff in H as [H _].
  apply startswith_inv in H as [s' ->]. by apply first_char_app.
Qed.

Lemma qualified_from_tail (prev : option ascii) (a : ascii) (s : string) :
  (forall q, In q Spec.qualifiers ->
     Shape.phrase_here q "JOIN" prev (String a s) = false) ->
  Shape.qualified_from prev (String a s) = Shape.qualified_from (Some a) s.
Proof.
  intros H. unfold Shape.qualified_from, Spec.qualifiers in *.
  cbn [map list_sum fold_right Shape.count_here].
  rewrite !H by (simpl; tauto). reflexivity.
Qed.

Lemma qualified_from_phrase (prev : option ascii) (q0 ws rest : string) :
  In q0 Spec.qualifiers ->
  ws <> "" -> all_chars isspace ws = true ->
  Shape.phrase_here q0 "JOIN" prev (q0 ++ ws ++ "JOIN" ++ rest) = true ->
  Shape.qualified_from prev (q0 ++ ws ++ "JOIN" ++ rest) =
    1 + Shape.qualified_from (Some "N"%char) rest.
Proof.
  intros Hq0 Hne Hws Hhere.
  destruct (qualifier_word q0 Hq0) as (Hq0n & Hq0w & _).
  assert (forall q, In q Spec.qualifiers ->
            Shape.count_here (Shape.phrase_here q "JOIN") prev
              (q0 ++ ws ++ "JOIN" ++ rest) =
            Spec.flag (String.eqb q q0) +
            Shape.count_here (Shape.phrase_here q "JOIN") (Some "N"%char) rest) as Hq.
  { intros q Hq. destruct (qualifier_word q Hq) as (Hqn & Hqw & Hdiff).
    replace (q0 ++ ws ++ "JOIN" ++ rest) with ((q0 ++ ws ++ "JOIN") ++ rest)
      by (by rewrite !sapp_assoc).
    rewrite count_here_skip.
    - rewrite <- !sapp_assoc, last_char_app. cbn [last_char]. f_equal. f_equal.
      rewrite !sapp_assoc.
      destruct (String.eqb_spec q q0) as [-> | Hneq]; [exact Hhere|].
      destruct (Shape.phrase_here q "JOIN" prev _) eqn:E; [|reflexivity].
      exfalso. apply Hneq. apply qualifier_first_char; try done.
      apply phrase_here_first in E; [|exact Hqn].
      apply phrase_here_first in Hhere; [|exact Hq0n]. congruence.
    - destruct q0; [congruence | discriminate].
    - intros a1 a2 E Ha1 Ha2.
      by apply (phrase_no_inner q0 q "JOIN" ws). }
  unfold Shape.qualified_from, Spec.qualifiers in *.
  cbn [map list_sum fold_right].
  rewrite !Hq by (simpl; tauto).
  simpl in Hq0. destruct Hq0 as [<-|[<-|[<-|[<-|[<-|[]]]]]]; cbn; lia.
Qed.

Lemma qualified_le_joins (n : nat) :
  forall (s : string) (prev : option ascii),
    String.length s <= n ->
    Shape.qualified_from prev s <= Shape.count_here (Spec.word_here "JOIN") prev s.
Proof.
  induction n as [|n IH]; intros s prev Hlen.
  - destruct s; [|simpl in Hlen; lia]. cbn. lia.
  - destruct s as [|a s]; [cbn; lia|].
    destruct (existsb (fun q => Shape.phrase_here q "JOIN" prev (String a s))
                Spec.qualifiers) eqn:Hex.
    + apply existsb_exists in Hex as (q0 & Hq0 & Hhere).
      destruct (qualifier_word q0 Hq0) as (Hq0n & Hq0w & _).
      pose proof Hhere as Hshape.
      apply (phrase_here_shape q0 "JOIN" ltac:(discriminate) eq_refl) in Hshape
        as (ws & rest & Hs & Hne & Hws & Hprev & Hrest).
      rewrite Hs in *. rewrite (qualified_from_phrase prev q0 ws rest) by done.
      assert (String.length rest <= n) as Hrl.
      { rewrite !slength_app in Hlen. simpl in Hlen. lia. }
      specialize (IH rest (Some "N"%char) Hrl).
      replace (q0 ++ ws ++ "JOIN" ++ rest) with ((q0 ++ ws) ++ "JOIN" ++ rest)
        by (by rewrite !sapp_assoc).
      pose proof (count_here_suffix (Spec.word_here "JOIN") prev (q0 ++ ws)
                    ("JOIN" ++ rest)) as H1.
      pose proof (count_here_suffix (Spec.word_here "JOIN") (Some "J"%char) "OIN" rest)
        as H2.
      cbn [last_char] in H2.
      assert (Spec.word_here "JOIN" (last_char prev (q0 ++ ws)) ("JOIN" ++ rest) = true)
        as Hw.
      { unfold Spec.word_here. rewrite startswith_app, drop_app, Hrest, last_char_app.
        by rewrite (space_opt_not_word _ (last_space _ ws Hne Hws)). }
      change ("JOIN" ++ rest) with (String "J" ("OIN" ++ rest)) in H1 at 1.
      cbn [Shape.count_here] in H1.
      change (String "J" ("OIN" ++ rest)) with ("JOIN" ++ rest) in H1.
      rewrite Hw in H1. cbn [Spec.flag] in H1. lia.
    + assert (forall q, In q Spec.qualifiers ->
                Shape.phrase_here q "JOIN" prev (String a s) = false) as Hno.
      { intros q Hq.
        destruct (Shape.phrase_here q "JOIN" prev (String a s)) eqn:E; [|reflexivity].
        assert (existsb (fun q => Shape.phrase_here q "JOIN" prev (String a s))
                  Spec.qualifiers = true) as Hex'
          by (apply existsb_exists; by exists q).
        congruence. }
      rewrite (qualified_from_tail prev a s Hno).
      cbn [Shape.count_here]. specialize (IH s (Some a)). simpl in Hlen.
      assert (String.length s <= n) as Hl by lia. specialize (IH Hl). lia.
Qed.

(** X7.  For every statement the join count is the number of words JOIN
    in the upper-cased text plus the number of those preceded by one of
    the qualifiers INNER, LEFT, RIGHT, FULL, CROSS and whitespace; the
    second number is at most the first, so the count lies between the
    number of joins and twice that number. *)
Theorem count_joins_formula (statement : token) :
  let sql_str := upper (str statement) in
  let joins := Shape.count_here (Spec.word_here "JOIN") None sql_str in
  count_joins statement = joins + Shape.qualified_joins sql_str /\
  Shape.qualified_joins sql_str <= joins.
Proof.
  cbn zeta. split.
  - unfold count_joins. apply count_joins_sum.
  - apply (qualified_le_joins (String.length (upper (str statement)))). lia.
Qed.

Example count_joins_formula_example :
  Shape.count_here (Spec.word_here "JOIN") None
    "SELECT * FROM A LEFT JOIN B ON X JOIN C ON Y" = 2 /\
  Shape.qualified_joins "SELECT * FROM A LEFT JOIN B ON X JOIN C ON Y" = 1.
Proof. split; reflexivity. Qed.

(** *** The texts that pass the dangerous pattern check *)

Lemma danger_fold_nil (sql_upper : string) (l : list (regex * string))
    (errors : list string) :
  fold_left
    (fun errors pm =>
       match search false (fst pm) sql_upper with
       | Some _ => append errors (snd pm)
       | None => errors
       end) l errors = [] <->
  errors = [] /\ Forall (fun pm => search false (fst pm) sql_upper = None) l.
Proof.
  revert errors. induction l as [|pm l IH]; intros errors; cbn [fold_left].
  - split; [intros ->; by split | by intros [-> _]].
  - rewrite IH. destruct (search false (fst pm) sql_upper) eqn:E.
    + split.
      * intros [H _]. unfold append in H. by destruct errors.
      * intros [_ H]. inversion H as [|? ? Hpm _]; subst. congruence.
    + split; intros [-> H]; (split; [reflexivity|]).
      * by constructor.
      * by inversion H.
Qed.

Lemma check_dangerous_patterns_harmless (sql_query : string) :
  check_dangerous_patterns sql_query = [] <-> Shape.harmless sql_query = true.
Proof.
  unfold check_dangerous_patterns. rewrite danger_fold_nil.
  unfold dangerous_patterns, Shape.harmless, Spec.semicolon_before_last.
  rewrite !Forall_cons, Forall_nil. cbn [fst snd].
  rewrite (search_literal "--"), (search_literal "/*").
  rewrite !contains_upper_not_letter by reflexivity.
  rewrite (search_word "EXEC"), (search_word "EXECUTE"), (search_word "LOAD_FILE")
    by (discriminate || reflexivity).
  change (WordB :: lits "INTO" ++ [Rep1 Space false] ++ lits "OUTFILE" ++ [WordB])%list
    with (Shape.phrase_pattern "INTO" "OUTFILE").
  rewrite (search_phrase "INTO" "OUTFILE") by (discriminate || reflexivity).
  rewrite !andb_true_iff, !negb_true_iff.
  destruct (contains ";" (drop_last sql_query)); intuition congruence.
Qed.

(** *** The texts that validate accepts *)

Lemma check_complexity_nil (max_joins max_subquery_depth : Z) (statement : token) :
  check_complexity max_joins max_subquery_depth statement = [] <->
  (Z.of_nat (count_joins statement) <= max_joins)%Z /\
  (Z.of_nat (count_subquery_depth statement 0) <= max_subquery_depth)%Z.
Proof.
  unfold check_complexity, append. cbn [app].
  destruct (Z.gtb_spec (Z.of_nat (count_joins statement)) max_joins);
    destruct (Z.gtb_spec (Z.of_nat (count_subquery_depth statement 0))
                max_subquery_depth); cbn [app];
    split; try discriminate; try (intros [? ?]; lia); try done.
Qed.

(** X8.  [validate] returns [True] (then with no error) exactly when the
    parser yields at least one statement and the first one starts with
    SELECT, has at most [max_joins] counted joins and at most
    [max_subquery_depth] counted levels, raises no schema error, and the
    text as given holds no semicolon before its last character, no
    comment marker, none of the words EXEC, EXECUTE, LOAD_FILE and no
    INTO followed by OUTFILE.  Statements after the first are not
    looked at. *)
Theorem validate_accepts_iff
    (sqlparse_parse : string -> outcome (list token))
    (get_real_name : token -> outcome (option string))
    (schema_info : gmap string table_info) (max_joins max_subquery_depth : Z)
    (sql_query : string) :
  (exists errors,
     validate sqlparse_parse get_real_name schema_info max_joins max_subquery_depth
       sql_query = Ret (true, errors)) <->
  (exists statement rest,
     sqlparse_parse sql_query = Ret (statement :: rest) /\
     is_select_only statement = true /\
     (Z.of_nat (count_joins statement) <= max_joins)%Z /\
     (Z.of_nat (count_subquery_depth statement 0) <= max_subquery_depth)%Z /\
     validate_schema get_real_name schema_info statement = [] /\
     Shape.harmless sql_query = true).
Proof.
  destruct (sqlparse_parse sql_query) as [[|statement rest]|e] eqn:Hp.
  - rewrite (validate_on_nothing _ _ _ _ _ _ Hp).
    split; [intros [? H]; discriminate H | intros (? & ? & H & _); discriminate H].
  - rewrite (validate_on_statement _ _ _ _ _ _ _ _ Hp).
    set (errors := (Spec.kind_errors statement ++ _)%list).
    assert (errors = [] <->
            is_select_only statement = true /\
            (Z.of_nat (count_joins statement) <= max_joins)%Z /\
            (Z.of_nat (count_subquery_depth statement 0) <= max_subquery_depth)%Z /\
            validate_schema get_real_name schema_info statement = [] /\
            Shape.harmless sql_query = true) as Hnil.
    { unfold errors. rewrite !app_nil.
      rewrite check_complexity_nil, check_dangerous_patterns_harmless.
      unfold Spec.kind_errors. destruct (is_select_only statement); [tauto|].
      split; [intros [H _]; discriminate H | intros [H _]; discriminate H]. }
    split.
    + intros [errs H]. injection H as Hv _. apply is_valid_iff_empty in Hv.
      exists statement, rest. split; [reflexivity|]. by apply Hnil.
    + intros (st & rs & Hst & H). injection Hst as <- <-.
      apply Hnil in H. exists []. by rewrite H.
  - rewrite (validate_on_raise _ _ _ _ _ _ _ Hp).
    split; [intros [? H]; discriminate H | intros (? & ? & H & _); discriminate H].
Qed.

(** A text is accepted when its table name is also the name of a column:
    the name after FROM is looked up among the columns. *)
Example validate_accepts_example :
  validate Trees.parse_known Trees.real_name
    {[ "t" := {| Validator.columns := ["a"; "t"]; primary_key := None;
                 foreign_keys := ∅ |} ]} 3 3 "SELECT a FROM t;" = Ret (true, []) /\
  validate Trees.parse_known Trees.real_name
    {[ "t" := {| Validator.columns := ["a"]; primary_key := None;
                 foreign_keys := ∅ |} ]} 3 3 "SELECT a FROM t;" =
    Ret (false, ["Column 't' not found in any table"]).
Proof. split; vm_compute; reflexivity. Qed.

(** *** The dangerous pattern check and letter case *)

(** X9.  Two texts that differ in the case of ASCII letters only get the
    same list of dangerous pattern errors. *)
Theorem check_dangerous_patterns_case_invariant (sql_query sql_query' : string) :
  Spec.case_variant sql_query sql_query' = true ->
  check_dangerous_patterns sql_query = check_dangerous_patterns sql_query'.
Proof.
  intros H. apply case_variant_upper in H. unfold check_dangerous_patterns.
  rewrite H. do 2 f_equal.
  rewrite <- (contains_upper_not_letter ";" (drop_last sql_query)) by reflexivity.
  rewrite <- (contains_upper_not_letter ";" (drop_last sql_query')) by reflexivity.
  by rewrite !upper_drop_last, H.
Qed.

Lemma check_dangerous_patterns_case_invariant_witness :
  check_dangerous_patterns "SELECT 1; exec xp_cmdshell" =
  check_dangerous_patterns "select 1; EXEC XP_CmdShell".
Proof.
  apply (check_dangerous_patterns_case_invariant
           "SELECT 1; exec xp_cmdshell" "select 1; EXEC XP_CmdShell").
  reflexivity.
Defined.

(** *** A zero score *)

(** X10.  [estimate_cost] always returns a dictionary with the key
    [estimated_complexity]; its value is 0 exactly when the parser
    raises or yields no statement, and at least 1 for every statement,
    whatever it holds. *)
Theorem estimate_cost_zero_iff_failure
    (sqlparse_parse : string -> outcome (list token)) (sql_query : string) :
  exists (d : gmap string pyval) (score : nat),
    estimate_cost sqlparse_parse sql_query = Ret d /\
    d !! "estimated_complexity" = Some (PInt (Z.of_nat score)) /\
    (score = 0 <->
     ~ exists parsed rest, sqlparse_parse sql_query = Ret (parsed :: rest)).
Proof.
  destruct (sqlparse_parse sql_query) as [[|parsed rest]|e] eqn:Hp.
  - exists (<["estimated_complexity" := PInt 0]> ∅), 0.
    split; [apply estimate_cost_on_failure; by left|].
    split; [by rewrite lookup_insert_eq|].
    split; [intros _ (? & ? & H); discriminate H | reflexivity].
  - eexists _, (calculate_complexity_score parsed).
    split; [eapply estimate_cost_on_statement; exact Hp|].
    split; [do 4 (rewrite lookup_insert_ne; [|done]); by rewrite lookup_insert_eq|].
    rewrite calculate_complexity_score_sum. split; [lia|].
    intros H. exfalso. apply H. by exists parsed, rest.
  - exists (<["estimated_complexity" := PInt 0]> ∅), 0.
    split; [apply estimate_cost_on_failure; right; by exists e|].
    split; [by rewrite lookup_insert_eq|].
    split; [intros _ (? & ? & H); discriminate H | reflexivity].
Qed.



(** *** Tables are looked for right after the keyword *)

Lemma extract_tables_loop_none (get_real_name : token -> outcome (option string))
    (toks : list token) :
  forall (from_seen : bool) (tables : list string),
    (from_seen = true ->
     match toks with
     | [] => True
     | t :: _ => Shape.names_table t = false
     end) ->
    Shape.table_follows toks = false ->
    extract_tables_loop get_real_name toks from_seen tables = Ret tables.
Proof.
  induction toks as [|t rest IH]; intros from_seen tables Hseen Hf; [reflexivity|].
  cbn [extract_tables_loop].
  assert ((if from_seen
           then if isinstance t IdentifierList
                then tables_of_identifiers get_real_name (get_identifiers t) tables
                else if isinstance t Identifier
                     then get_table_name get_real_name t ≫=
                          (fun table_name => Ret (append_table tables table_name))
                     else Ret tables
           else Ret tables) = Ret tables) as ->.
  { destruct from_seen; [|reflexivity]. specialize (Hseen eq_refl).
    unfold Shape.names_table in Hseen. apply orb_false_iff in Hseen as [-> ->].
    reflexivity. }
  cbn [mbind outcome_bind Exc.bind].
  cbn [Shape.table_follows] in Hf. apply orb_false_iff in Hf as [Hhead Hrest].
  apply IH; [|exact Hrest].
  intros Hs. destruct rest as [|t' rest']; [exact I|].
  destruct (Shape.names_table t'); [|reflexivity].
  rewrite andb_true_r in Hhead. unfold Shape.table_keyword in Hhead.
  destruct (ttype_is t Keyword); cbn [andb] in *; [|by destruct from_seen].
  apply orb_false_iff in Hhead as [H1 H2]. rewrite H1, H2 in Hs.
  by destruct from_seen.
Qed.

(** X11.  [_extract_tables] takes a table only from the token that comes
    right after FROM or a JOIN keyword.  In a statement where no
    identifier or identifier list is the very next token after such a
    keyword (as when a whitespace token stands between them) no table is
    found and no exception is raised, so no table is looked up in the
    schema and every column is checked against an empty table list. *)
Theorem extract_tables_adjacent_only
    (get_real_name : token -> outcome (option string))
    (schema_info : gmap string table_info) (statement : token) :
  Shape.table_follows (tokens_of statement) = false ->
  extract_tables get_real_name statement = Ret [] /\
  validate_schema get_real_name schema_info statement =
    flat_map (check_column schema_info []) (extract_columns statement).
Proof.
  intros H.
  assert (extract_tables get_real_name statement = Ret []) as Ht.
  { unfold extract_tables. apply extract_tables_loop_none; [discriminate | exact H]. }
  split; [exact Ht|].
  unfold validate_schema. rewrite Ht. cbn [mbind outcome_bind Exc.bind].
  cbn [check_tables fold_left]. by rewrite check_columns_flat_map.
Qed.

Lemma extract_tables_adjacent_only_witness :
  extract_tables Trees.real_name (Trees.stmt_join "LEFT JOIN") = Ret [] /\
  validate_schema Trees.real_name Trees.customers_schema (Trees.stmt_join "LEFT JOIN") =
    flat_map (check_column Trees.customers_schema [])
      (extract_columns (Trees.stmt_join "LEFT JOIN")).
Proof.
  apply (extract_tables_adjacent_only Trees.real_name Trees.customers_schema
           (Trees.stmt_join "LEFT JOIN")).
  reflexivity.
Defined.

(** Without the whitespace token the table is found. *)
Example extract_tables_adjacent :
  extract_tables Trees.real_name
    (Group Statement [Trees.select; Trees.sp; Trees.star; Trees.sp; Trees.kw "FROM";
                      Trees.ident "t"]) = Ret ["t"].
Proof. reflexivity. Qed.

(** *** Every identifier of the statement is looked up as a column *)

Lemma extract_columns_loop_mono (toks : list token)
    (acc : list (option string * string)) (col : option string * string) :
  In col acc ->
  In col
    (fold_left
       (fun columns token =>
          if isinstance token IdentifierList then
            fold_left
              (fun columns identifier =>
                 match parse_identifier identifier with
                 | Some col => append columns col
                 | None => columns
                 end)
              (get_identifiers token) columns
          else if isinstance token Identifier then
            match parse_identifier token with
            | Some col => append columns col
            | None => columns
            end
          else columns)
       toks acc).
Proof.
  revert acc. induction toks as [|t toks IH]; intros acc H; [exact H|].
  cbn [fold_left]. apply IH.
  destruct (isinstance t IdentifierList).
  - generalize (get_identifiers t). intros ids. revert acc H.
    induction ids as [|i ids IHi]; intros acc H; [exact H|].
    cbn [fold_left]. apply IHi. destruct (parse_identifier i); [|exact H].
    unfold append. apply in_or_app. by left.
  - destruct (isinstance t Identifier); [|exact H].
    destruct (parse_identifier t); [|exact H].
    unfold append. apply in_or_app. by left.
Qed.

Lemma extract_columns_top_level (statement tok : token) (col : option string * string) :
  In tok (tokens_of statement) -> isinstance tok Identifier = true ->
  parse_identifier tok = Some col ->
  In col (extract_columns statement).
Proof.
  unfold extract_columns. generalize (tokens_of statement) as toks.
  generalize (@nil (option string * string)) as acc.
  intros acc toks. revert acc.
  induction toks as [|t toks IH]; intros acc Hin Hid Hp; [destruct Hin|].
  cbn [fold_left]. destruct Hin as [-> | Hin].
  - apply extract_columns_loop_mono.
    assert (isinstance tok IdentifierList = false) as ->
      by (destruct tok as [|[] ?]; done).
    rewrite Hid, Hp. unfold append. apply in_or_app. right. by left.
  - by apply IH.
Qed.

(** X12.  Every identifier that is a direct child of the statement and has
    no dot is checked as a column, the name after FROM included: if no
    table of the schema has a column of that name, the error
    [Column '<name>' not found in any table] is reported. *)
Theorem top_level_identifier_checked
    (get_real_name : token -> outcome (option string))
    (schema_info : gmap string table_info) (statement : token) (tables : list string)
    (tok : token) (column : string) :
  extract_tables get_real_name statement = Ret tables ->
  In tok (tokens_of statement) -> isinstance tok Identifier = true ->
  parse_identifier tok = Some (None, column) ->
  ~ Spec.in_some_table schema_info column ->
  In (Spec.msg_any_table column) (validate_schema get_real_name schema_info statement).
Proof.
  intros Ht Hin Hid Hp Hno.
  unfold validate_schema. rewrite Ht. cbn [mbind outcome_bind Exc.bind].
  rewrite check_columns_flat_map. apply in_or_app. right.
  apply in_flat_map. exists (None, column).
  split; [by apply (extract_columns_top_level statement tok)|].
  destruct (check_column_unqualified schema_info None column eq_refl) as [[-> _] | [_ H]].
  - by left.
  - contradiction.
Qed.

Lemma top_level_identifier_checked_witness :
  In (Spec.msg_any_table "t")
     (validate_schema Trees.real_name Trees.customers_schema Trees.stmt_a).
Proof.
  apply (top_level_identifier_checked Trees.real_name Trees.customers_schema
           Trees.stmt_a [] (Trees.ident "t") "t").
  - reflexivity.
  - simpl. tauto.
  - reflexivity.
  - reflexivity.
  - intros (tbl & info & Hl & Hc).
    unfold Trees.customers_schema in Hl. apply lookup_singleton_Some in Hl as [_ <-].
    simpl in Hc. destruct Hc as [H|[H|[H|[]]]]; discriminate H.
Defined.

(** *** Names with dots *)

Lemma count_char_app (c : ascii) (x y : string) :
  Shape.count_char c (x ++ y) = Shape.count_char c x + Shape.count_char c y.
Proof.
  induction x as [|a x IH]; [reflexivity|].
  cbn [String.append Shape.count_char]. rewrite IH. lia.
Qed.

Lemma contains_char_count (c : ascii) (s : string) :
  contains (String c "") s = negb (Shape.count_char c s =? 0)%nat.
Proof.
  induction s as [|a s IH]; [reflexivity|].
  rewrite contains_char_cons, IH. cbn [Shape.count_char].
  destruct (Ascii.eqb a c); [reflexivity|]. reflexivity.
Qed.

Lemma count_char_strip (f : ascii -> bool) (c : ascii) (s : string) :
  Shape.count_char c s = 0 -> Shape.count_char c (strip_by f s) = 0.
Proof.
  unfold strip_by. intros H.
  destruct (lstrip_suffix f s) as [l Hl].
  destruct (rstrip_prefix f (lstrip_by f s)) as [r Hr].
  rewrite Hl, Hr, !count_char_app in H. lia.
Qed.

Lemma split_on_length (sep : ascii) (s : string) :
  length (split_on sep s) = S (Shape.count_char sep s).
Proof.
  induction s as [|a s IH]; [reflexivity|].
  cbn [split_on Shape.count_char]. destruct (Ascii.eqb a sep).
  - cbn [length Spec.flag]. by rewrite IH.
  - destruct (split_on sep s) as [|p ps]; [discriminate IH|]. exact IH.
Qed.

(** A text without the separator is its own single part; a text with one
    separator has the two parts around it. *)
Lemma split_on_none (sep : ascii) (s : string) :
  Shape.count_char sep s = 0 -> split_on sep s = [s].
Proof.
  induction s as [|a s IH]; [reflexivity|].
  cbn [split_on Shape.count_char]. destruct (Ascii.eqb a sep); [discriminate|].
  intros H. by rewrite (IH H).
Qed.

Lemma split_on_one (sep : ascii) (t c : string) :
  Shape.count_char sep t = 0 -> Shape.count_char sep c = 0 ->
  split_on sep (t ++ String sep c) = [t; c].
Proof.
  intros Ht Hc. induction t as [|a t IH].
  - cbn [String.append split_on]. by rewrite Ascii.eqb_refl, (split_on_none sep c Hc).
  - cbn [String.append split_on Shape.count_char] in *.
    destruct (Ascii.eqb a sep); [discriminate Ht|]. by rewrite (IH Ht).
Qed.

Lemma split_on_parts (sep : ascii) (s : string) :
  Forall (fun p => Shape.count_char sep p = 0) (split_on sep s).
Proof.
  induction s as [|a s IH]; [by repeat constructor|].
  cbn [split_on]. destruct (Ascii.eqb a sep) eqn:Ea.
  - by constructor.
  - destruct (split_on sep s) as [|p ps].
    + constructor; [|constructor]. cbn [Shape.count_char]. by rewrite Ea.
    + inversion IH as [|? ? Hp Hps]; subst. constructor; [|exact Hps].
      cbn [Shape.count_char]. by rewrite Ea.
Qed.

(** X13.  [_parse_identifier] on the text of an identifier: with exactly
    one dot, it returns the parts before and after the dot, each
    stripped of its quotes; with two or more dots (a name with its
    database, say) it returns nothing, so the identifier is not checked;
    whatever it returns holds no dot. *)
Theorem parse_identifier_dots (identifier : token) :
  (forall t c : string,
     str identifier = t ++ "." ++ c ->
     Shape.count_char "." t = 0 -> Shape.count_char "." c = 0 ->
     parse_identifier identifier = Some (Some (strip_quotes t), strip_quotes c)) /\
  (2 <= Shape.count_char "." (str identifier) -> parse_identifier identifier = None) /\
  (forall (table : option string) (column : string),
     parse_identifier identifier = Some (table, column) ->
     Shape.count_char "." column = 0 /\ Shape.count_char "." (default "" table) = 0).
Proof.
  unfold parse_identifier. split; [|split].
  - intros t c E Ht Hc. rewrite E.
    rewrite contains_char_count, count_char_app. cbn [String.append Shape.count_char].
    rewrite Ht, Hc. cbn. by rewrite (split_on_one "." t c Ht Hc).
  - intros H. rewrite contains_char_count.
    destruct (Shape.count_char "." (str identifier)) as [|[|n]] eqn:E; [lia | lia |].
    cbn [Nat.eqb negb].
    pose proof (split_on_length "." (str identifier)) as Hl. rewrite E in Hl.
    by destruct (split_on "." (str identifier)) as [|p0 [|p1 [|p2 ps]]].
  - intros table column. rewrite contains_char_count.
    destruct (Shape.count_char "." (str identifier) =? 0)%nat eqn:E; cbn [negb].
    + apply Nat.eqb_eq in E.
      destruct (negb _); [|discriminate]. intros H. injection H as <- <-.
      split; [by apply count_char_strip | reflexivity].
    + pose proof (split_on_length "." (str identifier)) as Hl.
      destruct (split_on "." (str identifier)) as [|p0 [|p1 [|p2 ps]]] eqn:Es;
        try discriminate.
      intros H. injection H as <- <-.
      assert (Shape.count_char "." (str identifier) = 1) as H1
        by (simpl in Hl; lia).
      pose proof (split_on_parts "." (str identifier)) as Hparts. rewrite Es in Hparts.
      inversion Hparts as [|? ? H0 Hrest]; subst.
      inversion Hrest as [|? ? H1' _]; subst.
      split; by apply count_char_strip.
Qed.

Lemma parse_identifier_dots_witness :
  parse_identifier (Trees.dotted "customers" "country") =
    Some (Some "customers", "country") /\
  parse_identifier
    (Group Identifier [Leaf Name "db"; Leaf Punctuation "."; Leaf Name "t";
                       Leaf Punctuation "."; Leaf Name "c"]) = None.
Proof.
  split.
  - apply (proj1 (parse_identifier_dots (Trees.dotted "customers" "country"))
             "customers" "country"); reflexivity.
  - apply (proj1 (proj2 (parse_identifier_dots
                           (Group Identifier [Leaf Name "db"; Leaf Punctuation ".";
                                              Leaf Name "t"; Leaf Punctuation ".";
                                              Leaf Name "c"])))).
    simpl. lia.
Defined.

(** *** Depth and parentheses *)

Lemma str_child (cls : group_class) (ts : list token) (c : token) (w : string) :
  In c ts -> contains w (upper (str c)) = true ->
  contains w (upper (str (Group cls ts))) = true.
Proof.
  cbn [str]. induction ts as [|t ts IH]; intros Hin Hc; [destruct Hin|].
  cbn [fold_right]. rewrite upper_app. destruct Hin as [-> | Hin].
  - by apply contains_app_l.
  - apply contains_app_r. by apply IH.
Qed.

Lemma list_max_pos (l : list nat) :
  0 < list_max l -> exists x, In x l /\ 0 < x.
Proof.
  induction l as [|x l IH]; [simpl; lia|]. rewrite list_max_cons. intros H.
  destruct x as [|x].
  - destruct IH as (y & Hy & Hpos); [simpl in H; lia|]. exists y. split; [by right | exact Hpos].
  - exists (S x). split; [by left | lia].
Qed.

Lemma nesting_pos (t : token) :
  0 < Spec.nesting t ->
  contains "(" (upper (str t)) = true /\ contains "SELECT" (upper (str t)) = true.
Proof.
  induction t as [ty v | cls ts IH] using token_induction; [simpl; lia|].
  cbn [Spec.nesting]. intros H. apply list_max_pos in H as (x & Hin & Hpos).
  apply in_map_iff in Hin as (c & <- & Hc).
  rewrite Forall_forall in IH.
  assert (contains "(" (upper (str c)) = true /\
          contains "SELECT" (upper (str c)) = true) as [H1 H2].
  { destruct (Spec.counted_group c) eqn:Hcg.
    - unfold Spec.counted_group, subquery_test in Hcg.
      apply andb_true_iff in Hcg as [_ Hcg]. apply andb_true_iff in Hcg as [Hs Hsel].
      rewrite upper_strip in Hsel. split; [|by apply contains_strip_inv].
      rewrite (contains_upper_not_letter "(") by reflexivity.
      apply contains_strip_inv. apply startswith_inv in Hs as [s' Hs].
      rewrite Hs. apply (contains_here "(").
    - apply IH; [by apply list_elem_of_In|]. simpl in Hpos. lia. }
  split; by apply (str_child cls ts c).
Qed.

(** X14.  A statement with a positive subquery depth holds an opening
    parenthesis and the letters SELECT (in any case) in its text: a text
    without parenthesis never fails the depth limit. *)
Theorem subquery_depth_needs_parenthesis (statement : token) :
  0 < count_subquery_depth statement 0 ->
  contains "(" (str statement) = true /\
  contains "SELECT" (upper (str statement)) = true.
Proof.
  rewrite count_subquery_depth_nesting. cbn [plus]. intros H.
  apply nesting_pos in H as [H1 H2]. split; [|exact H2].
  by rewrite (contains_upper_not_letter "(") in H1.
Qed.

Lemma subquery_depth_needs_parenthesis_witness :
  contains "(" (str Trees.stmt_sub1) = true /\
  contains "SELECT" (upper (str Trees.stmt_sub1)) = true.
Proof.
  apply (subquery_depth_needs_parenthesis Trees.stmt_sub1). simpl. lia.
Defined.

(* ===================================================================== *)
(** ** Results on schema_service.py *)
(* ===================================================================== *)

Lemma add_foreign_keys_fields (cols : list SchemaService.column_info)
    (entry : SchemaService.validation_entry) :
  SchemaService.v_columns (SchemaService.add_foreign_keys cols entry) =
    SchemaService.v_columns entry /\
  SchemaService.v_primary_key (SchemaService.add_foreign_keys cols entry) =
    SchemaService.v_primary_key entry /\
  (forall c,
     is_Some (SchemaService.v_foreign_keys (SchemaService.add_foreign_keys cols entry) !! c)
     <-> is_Some (SchemaService.v_foreign_keys entry !! c) \/
         exists col, In col cols /\ SchemaService.name col = c /\
                     SchemaService.is_foreign_key col = true).
Proof.
  unfold SchemaService.add_foreign_keys. revert entry.
  induction cols as [|col cols IH]; intros entry; cbn [fold_left].
  - repeat split; try tauto. intros [H | (col & [] & _)]. exact H.
  - destruct (IH (if SchemaService.is_foreign_key col
                  then {| SchemaService.v_columns := SchemaService.v_columns entry;
                          SchemaService.v_primary_key := SchemaService.v_primary_key entry;
                          SchemaService.v_foreign_keys :=
                            <[SchemaService.name col := SchemaService.foreign_key_ref col]>
                              (SchemaService.v_foreign_keys entry) |}
                  else entry)) as (H1 & H2 & H3).
    rewrite H1, H2. split; [by destruct (SchemaService.is_foreign_key col)|].
    split; [by destruct (SchemaService.is_foreign_key col)|].
    intros c. rewrite H3. clear IH H1 H2 H3.
    destruct (SchemaService.is_foreign_key col) eqn:Hfk; cbn.
    + rewrite lookup_insert_is_Some. split.
      * intros [[E | [_ H]] | (col' & Hin & Hn & Hk)].
        -- right. exists col. by repeat split; [left|..].
        -- by left.
        -- right. exists col'. by repeat split; [right|..].
      * intros [H | (col' & [<- | Hin] & Hn & Hk)].
        -- left. destruct (decide (SchemaService.name col = c)); [by left | by right].
        -- left. by left.
        -- right. by exists col'.
    + split.
      * intros [H | (col' & Hin & Hn & Hk)]; [by left|].
        right. exists col'. by repeat split; [right|..].
      * intros [H | (col' & [<- | Hin] & Hn & Hk)]; [by left | congruence |].
        right. by exists col'.
Qed.

Lemma get_schema_for_validation_lookup (schema : SchemaService.schema) (t : string) :
  SchemaService.get_schema_for_validation schema !! t =
    (fun info =>
       SchemaService.add_foreign_keys (SchemaService.columns info)
         {| SchemaService.v_columns :=
              map SchemaService.name (SchemaService.columns info);
            SchemaService.v_primary_key := SchemaService.primary_key info;
            SchemaService.v_foreign_keys := ∅ |})
    <$> SchemaService.tables schema !! t.
Proof.
  unfold SchemaService.get_schema_for_validation.
  apply (map_fold_weak_ind
           (fun (r : gmap string SchemaService.validation_entry)
                (m : gmap string SchemaService.table_schema) =>
              r !! t = _ <$> m !! t)).
  - by rewrite !lookup_empty.
  - intros i x m r Hi IH. destruct (decide (i = t)) as [->|Hne].
    + by rewrite !lookup_insert_eq.
    + by rewrite !lookup_insert_ne.
Qed.

(** X15.  The dictionary built for the validator has exactly the tables
    of the schema; the entry of a table lists the names of its columns
    in order, has its primary key, and has a foreign key entry exactly
    for the columns marked [is_foreign_key].  Hence a column name is
    found in some table by the validator exactly when a table of the
    schema has a column of that name. *)
Theorem get_schema_for_validation_entries (schema : SchemaService.schema) :
  (forall t,
     SchemaService.get_schema_for_validation schema !! t = None <->
     SchemaService.tables schema !! t = None) /\
  (forall t info,
     SchemaService.tables schema !! t = Some info ->
     exists entry,
       SchemaService.get_schema_for_validation schema !! t = Some entry /\
       SchemaService.v_columns entry =
         map SchemaService.name (SchemaService.columns info) /\
       SchemaService.v_primary_key entry = SchemaService.primary_key info /\
       (forall c,
          is_Some (SchemaService.v_foreign_keys entry !! c) <->
          exists col, In col (SchemaService.columns info) /\
                      SchemaService.name col = c /\
                      SchemaService.is_foreign_key col = true)) /\
  (forall column,
     Spec.in_some_table
       (SchemaService.schema_info_of (SchemaService.get_schema_for_validation schema))
       column <->
     exists t info col,
       SchemaService.tables schema !! t = Some info /\
       In col (SchemaService.columns info) /\ SchemaService.name col = column).
Proof.
  split; [|split].
  - intros t. rewrite get_schema_for_validation_lookup. apply fmap_None.
  - intros t info Ht. rewrite get_schema_for_validation_lookup, Ht. cbn.
    eexists. split; [reflexivity|].
    destruct (add_foreign_keys_fields (SchemaService.columns info)
                {| SchemaService.v_columns :=
                     map SchemaService.name (SchemaService.columns info);
                   SchemaService.v_primary_key := SchemaService.primary_key info;
                   SchemaService.v_foreign_keys := ∅ |}) as (H1 & H2 & H3).
    split; [exact H1|]. split; [exact H2|].
    intros c. rewrite H3. cbn. rewrite lookup_empty. split.
    + intros [[? H] | H]; [discriminate H | exact H].
    + intros H. by right.
  - intros column. unfold Spec.in_some_table, SchemaService.schema_info_of. split.
    + intros (t & vinfo & Hl & Hin).
      rewrite lookup_fmap, get_schema_for_validation_lookup in Hl.
      destruct (SchemaService.tables schema !! t) as [info|] eqn:Ht; [|discriminate Hl].
      cbn in Hl. injection Hl as <-. cbn in Hin.
      rewrite (proj1 (add_foreign_keys_fields _ _)) in Hin. cbn in Hin.
      apply in_map_iff in Hin as (col & Hn & Hin). by exists t, info, col.
    + intros (t & info & col & Ht & Hin & Hn).
      exists t. eexists. rewrite lookup_fmap, get_schema_for_validation_lookup, Ht.
      split; [reflexivity|]. cbn.
      rewrite (proj1 (add_foreign_keys_fields _ _)). cbn.
      apply in_map_iff. by exists col.
Qed.

Lemma get_schema_for_validation_entries_witness :
  let customers :=
    {| SchemaService.columns :=
         [ {| SchemaService.name := "customerNumber"; SchemaService.type := "int";
              SchemaService.nullable := false; SchemaService.default_value := None;
              SchemaService.is_primary_key := true;
              SchemaService.is_foreign_key := false;
              SchemaService.foreign_key_ref := None |};
           {| SchemaService.name := "salesRepEmployeeNumber"; SchemaService.type := "int";
              SchemaService.nullable := true; SchemaService.default_value := None;
              SchemaService.is_primary_key := false;
              SchemaService.is_foreign_key := true;
              SchemaService.foreign_key_ref := Some "employees.employeeNumber" |} ];
       SchemaService.primary_key := Some "customerNumber";
       SchemaService.row_count := 122; SchemaService.size_bytes := 16384;
       SchemaService.comment := "" |} in
  let schema :=
    {| SchemaService.database_name := "classicmodels";
       SchemaService.tables := {[ "customers" := customers ]};
       SchemaService.extracted_at := "2024-01-01T00:00:00" |} in
  exists entry,
    SchemaService.get_schema_for_validation schema !! "customers" = Some entry /\
    SchemaService.v_columns entry = ["customerNumber"; "salesRepEmployeeNumber"] /\
    SchemaService.v_primary_key entry = Some "customerNumber" /\
    (forall c,
       is_Some (SchemaService.v_foreign_keys entry !! c) <->
       exists col, In col (SchemaService.columns customers) /\
                   SchemaService.name col = c /\
                   SchemaService.is_foreign_key col = true).
Proof.
  intros customers schema.
  apply (proj1 (proj2 (get_schema_for_validation_entries schema)) "customers" customers).
  reflexivity.
Defined.

(* ===================================================================== *)
(** ** Results on app.py *)
(* ===================================================================== *)

Lemma strip_empty_iff (s : string) : strip s = "" <-> all_chars isspace s = true.
Proof.
  unfold strip, strip_by. split.
  - intros H. destruct (lstrip_suffix_class isspace s) as (l & Hl & Hsp).
    destruct (rstrip_prefix_class isspace (lstrip_by isspace s)) as (r & Hr & Hsr).
    rewrite H in Hr. cbn [String.append] in Hr. rewrite Hl, Hr, all_chars_app.
    by rewrite Hsp, Hsr.
  - intros H. replace (lstrip_by isspace s) with ""; [reflexivity|].
    induction s as [|a s IH]; [reflexivity|]. simpl in *.
    apply andb_true_iff in H as [-> H]. by apply IH.
Qed.


Section Routes.

Variable extract_schema : App.connection_params -> outcome SchemaService.schema.
Variable env_connection_params : outcome App.connection_params.
Variable sqlparse_parse : string -> outcome (list token).
Variable get_real_name : token -> outcome (option string).
Variables max_joins max_subquery_depth max_rows query_timeout : Z.
Variable server : App.connection_params -> database.
Variable elapsed_ms : Z.
Variable load_index : Z -> outcome bool.
Variable get_schema_context : string -> outcome string.
Variable get_business_context : string -> outcome string.
Variable generate_sql : string -> string -> string -> outcome string.

Local Abbreviation execute_sql' :=
  (App.execute_sql extract_schema env_connection_params sqlparse_parse get_real_name
     max_joins max_subquery_depth max_rows query_timeout server elapsed_ms).

Local Abbreviation process_query' :=
  (App.process_query extract_schema env_connection_params sqlparse_parse get_real_name
     max_joins max_subquery_depth max_rows query_timeout server elapsed_ms
     load_index get_schema_context get_business_context generate_sql).

Local Abbreviation validate_against' :=
  (App.validate_against sqlparse_parse get_real_name max_joins max_subquery_depth).

Local Abbreviation ensure_schema_loaded' :=
  (App.ensure_schema_loaded extract_schema env_connection_params).





(** X18.  A request object whose field ([sql] for [/api/execute-sql],
    [query] for [/api/query]) is missing or is a text of whitespace only
    is answered with status 400 and the message of the route; the schema
    is not loaded, the state is unchanged and the database is not
    reached. *)
Theorem routes_refuse_blank (st : App.app_state) (fields : gmap string App.json)
    (key : string) :
  fields !! key = None \/
  (exists raw, fields !! key = Some (App.JString raw) /\ all_chars isspace raw = true) ->
  (key = "sql" ->
   execute_sql' st (Ret (App.Object fields)) =
     ({| App.status := 400; App.payload := [("error", App.VStr "SQL cannot be empty")] |},
      [], st)) /\
  (key = "query" ->
   process_query' st (Ret (App.Object fields)) =
     ({| App.status := 400;
         App.payload := [("error", App.VStr "Query cannot be empty")] |}, [], st)).
Proof.
  intros H.
  assert (App.get_stripped (App.Object fields) key = Ret "") as Hg.
  { unfold App.get_stripped. destruct H as [-> | (raw & -> & Hraw)]; [reflexivity|].
    f_equal. by apply strip_empty_iff. }
  split; intros ->; unfold App.execute_sql, App.process_query;
    cbn [mbind outcome_bind Exc.bind]; by rewrite Hg.
Qed.

End Routes.



Lemma routes_refuse_blank_witness :
  Demo.execute_sql Demo.state (Ret (App.Object {[ "sql" := App.JString "  " ]})) =
    ({| App.status := 400; App.payload := [("error", App.VStr "SQL cannot be empty")] |},
     [], Demo.state) /\
  Demo.process_query Demo.state (Ret (App.Object ∅)) =
    ({| App.status := 400; App.payload := [("error", App.VStr "Query cannot be empty")] |},
     [], Demo.state).
Proof.
  split.
  - apply (routes_refuse_blank (fun _ => Ret Demo.schema) (Ret Demo.params)
             Trees.parse_known Trees.real_name 3 3 1000 30 Demo.server 5
             (fun _ => Ret true) (fun _ => Ret "Table: t") (fun _ => Ret "")
             (fun _ _ _ => Ret "SELECT a FROM t;") Demo.state
             {[ "sql" := App.JString "  " ]} "sql"); [|reflexivity].
    right. exists "  ". split; reflexivity.
  - apply (routes_refuse_blank (fun _ => Ret Demo.schema) (Ret Demo.params)
             Trees.parse_known Trees.real_name 3 3 1000 30 Demo.server 5
             (fun _ => Ret true) (fun _ => Ret "Table: t") (fun _ => Ret "")
             (fun _ _ _ => Ret "SELECT a FROM t;") Demo.state ∅ "query"); [|reflexivity].
    left. reflexivity.
Defined.



(** *** The schema is extracted once *)

(** X19.  When [ensure_schema_loaded] returns a schema, that schema is
    stored in the state; if none was stored before, it is the one
    extracted with the connection parameters of the state (or of the
    environment).  A later call on the state left returns the same
    schema and the same state, whatever the extraction and the
    environment would give then. *)
Theorem ensure_schema_loaded_cached
    (extract_schema extract_schema' : App.connection_params -> outcome SchemaService.schema)
    (env_connection_params env_connection_params' : outcome App.connection_params)
    (st st' : App.app_state) (schema : SchemaService.schema) :
  App.ensure_schema_loaded extract_schema env_connection_params st = Ret (schema, st') ->
  App.st_schema st' = Some schema /\
  (App.st_schema st = None ->
   exists connection_params,
     App.get_connection_params env_connection_params st = Ret connection_params /\
     extract_schema connection_params = Ret schema) /\
  App.ensure_schema_loaded extract_schema' env_connection_params' st' = Ret (schema, st').
Proof.
  unfold App.ensure_schema_loaded.
  destruct (App.st_schema st) as [s|] eqn:Hs.
  - intros H. injection H as <- <-. rewrite Hs. by repeat split.
  - destruct (App.get_connection_params env_connection_params st) as [cp|e];
      cbn [mbind outcome_bind Exc.bind]; [|discriminate].
    destruct (extract_schema cp) as [s|e] eqn:He;
      cbn [mbind outcome_bind Exc.bind]; [|discriminate].
    intros H. injection H as <- <-. cbn. repeat split. intros _. by exists cp.
Qed.

Lemma ensure_schema_loaded_cached_witness :
  App.st_schema
    {| App.st_connection_params := Some Demo.params; App.st_schema := Some Demo.schema;
       App.st_rag_loaded := true; App.st_connection_id := 1 |} = Some Demo.schema /\
  (App.st_schema Demo.state = None ->
   exists connection_params,
     App.get_connection_params (Ret Demo.params) Demo.state = Ret connection_params /\
     Ret Demo.schema = Ret Demo.schema) /\
  App.ensure_schema_loaded (fun _ => Raise "Can't connect to MySQL server")
    (Raise "invalid literal for int() with base 10: 'x'")
    {| App.st_connection_params := Some Demo.params; App.st_schema := Some Demo.schema;
       App.st_rag_loaded := true; App.st_connection_id := 1 |} =
    Ret (Demo.schema,
         {| App.st_connection_params := Some Demo.params; App.st_schema := Some Demo.schema;
            App.st_rag_loaded := true; App.st_connection_id := 1 |}).
Proof.
  apply (ensure_schema_loaded_cached (fun _ => Ret Demo.schema)
           (fun _ => Raise "Can't connect to MySQL server")
           (Ret Demo.params) (Raise "invalid literal for int() with base 10: 'x'")
           Demo.state).
  reflexivity.
Defined.

(** *** What a request leaves of the state *)

Lemma keeps_refl (st : App.app_state) : Shape.keeps st st.
Proof. by repeat split. Qed.

Lemma keeps_trans (st1 st2 st3 : App.app_state) :
  Shape.keeps st1 st2 -> Shape.keeps st2 st3 -> Shape.keeps st1 st3.
Proof.
  intros (A1 & A2 & A3 & A4) (B1 & B2 & B3 & B4).
  repeat split; [congruence | congruence | auto | auto].
Qed.

Lemma ensure_schema_loaded_keeps
    (extract_schema : App.connection_params -> outcome SchemaService.schema)
    (env_connection_params : outcome App.connection_params)
    (st st' : App.app_state) (schema : SchemaService.schema) :
  App.ensure_schema_loaded extract_schema env_connection_params st = Ret (schema, st') ->
  Shape.keeps st st'.
Proof.
  unfold App.ensure_schema_loaded.
  destruct (App.st_schema st) as [s|] eqn:Hs.
  - intros H. injection H as _ <-. apply keeps_refl.
  - destruct (App.get_connection_params env_connection_params st) as [cp|e];
      cbn [mbind outcome_bind Exc.bind]; [|discriminate].
    destruct (extract_schema cp) as [s|e];
      cbn [mbind outcome_bind Exc.bind]; [|discriminate].
    intros H. injection H as _ <-. repeat split; cbn; try done. congruence.
Qed.

Lemma ensure_rag_loaded_keeps (load_index : Z -> outcome bool)
    (st st' : App.app_state) (loaded : bool) :
  App.ensure_rag_loaded load_index st = Ret (loaded, st') -> Shape.keeps st st'.
Proof.
  unfold App.ensure_rag_loaded. destruct (App.st_rag_loaded st); cbn [negb].
  - intros H. injection H as _ <-. apply keeps_refl.
  - destruct (load_index _) as [[|]|e]; [| |discriminate];
      intros H; injection H as _ <-; [|apply keeps_refl].
    by repeat split.
Qed.

Section Frame.

Variable extract_schema : App.connection_params -> outcome SchemaService.schema.
Variable env_connection_params : outcome App.connection_params.
Variable sqlparse_parse : string -> outcome (list token).
Variable get_real_name : token -> outcome (option string).
Variables max_joins max_subquery_depth max_rows query_timeout : Z.
Variable server : App.connection_params -> database.
Variable elapsed_ms : Z.
Variable load_index : Z -> outcome bool.
Variable get_schema_context : string -> outcome string.
Variable get_business_context : string -> outcome string.
Variable generate_sql : string -> string -> string -> outcome string.

(** X20.  Whatever the request and the services do, the routes
    [/api/execute-sql] and [/api/query] leave the connection parameters
    and the connection id as they were, never drop or replace a stored
    schema, and never unset [rag_loaded]. *)
Theorem routes_keep_state (st : App.app_state) (request_json : outcome App.body) :
  Shape.keeps st
    (snd (App.execute_sql extract_schema env_connection_params sqlparse_parse
            get_real_name max_joins max_subquery_depth max_rows query_timeout server
            elapsed_ms st request_json)) /\
  Shape.keeps st
    (snd (App.process_query extract_schema env_connection_params sqlparse_parse
            get_real_name max_joins max_subquery_depth max_rows query_timeout server
            elapsed_ms load_index get_schema_context get_business_context generate_sql
            st request_json)).
Proof.
  split.
  - unfold App.execute_sql.
    destruct (_ ≫= _) as [sql|e]; [|apply keeps_refl].
    destruct (String.eqb sql ""); [apply keeps_refl|].
    destruct (App.ensure_schema_loaded _ _ st) as [[schema st1]|e] eqn:Hs;
      [|apply keeps_refl].
    apply ensure_schema_loaded_keeps in Hs.
    destruct (App.validate_against _ _ _ _ _ _) as [[[|] errors]|e]; cbn [negb];
      try exact Hs.
    destruct (App.get_connection_params _ st1) as [cp|e]; [|exact Hs].
    destruct (execute_query _ _ _ _ _) as [result effects].
    by destruct (success result).
  - unfold App.process_query.
    destruct (_ ≫= _) as [q|e]; [|apply keeps_refl].
    destruct (String.eqb q ""); [apply keeps_refl|].
    destruct (App.ensure_schema_loaded _ _ st) as [[schema st1]|e] eqn:Hs;
      [|apply keeps_refl].
    apply ensure_schema_loaded_keeps in Hs.
    destruct (App.ensure_rag_loaded _ st1) as [[loaded st2]|e] eqn:Hr; [|exact Hs].
    apply ensure_rag_loaded_keeps in Hr.
    pose proof (keeps_trans _ _ _ Hs Hr) as H.
    destruct loaded; [|exact H].
    destruct (_ ≫= _) as [[generated_sql [[|] errors]]|e]; cbn [negb]; try exact H.
    destruct (App.get_connection_params _ st2) as [cp|e]; [|exact H].
    destruct (execute_query _ _ _ _ _) as [result effects].
    by destruct (success result).
Qed.

End Frame.

(** *** An accepted text is executed as one statement *)

Lemma count_char_sub_go (c : ascii) (ic : bool) (p : regex) (repl : string) (s : string) :
  Shape.count_char c repl = 0 -> Shape.count_char c s = 0 ->
  forall prev skip, Shape.count_char c (sub_go ic p repl prev skip s) = 0.
Proof.
  intros Hr. induction s as [|a s IH]; intros Hs prev skip.
  - destruct skip; cbn [sub_go]; [|reflexivity].
    destruct (match_here ic p prev "") as [[n g]|]; [|reflexivity].
    by rewrite count_char_app, Hr.
  - cbn [Shape.count_char] in Hs.
    assert (Spec.flag (Ascii.eqb a c) = 0) as Ha by lia.
    assert (Shape.count_char c s = 0) as Hs' by lia.
    destruct skip as [|k]; cbn [sub_go]; [|by apply IH].
    destruct (match_here ic p prev (String a s)) as [[[|n] g]|].
    + rewrite count_char_app, Hr. cbn [Shape.count_char]. rewrite Ha. by rewrite IH.
    + rewrite count_char_app, Hr. by rewrite IH.
    + cbn [Shape.count_char]. rewrite Ha. by rewrite IH.
Qed.

Lemma count_char_digits (c : ascii) (ds : string) :
  isdigit c = false -> all_chars isdigit ds = true -> Shape.count_char c ds = 0.
Proof.
  intros Hc. induction ds as [|a ds IH]; [reflexivity|]. simpl. intros H.
  apply andb_true_iff in H as [Ha Hs]. rewrite (IH Hs).
  destruct (Ascii.eqb_spec a c) as [->|_]; [congruence | reflexivity].
Qed.

(** [str(n)] holds digits and, for a negative number, the sign. *)
Lemma count_char_str_of_Z (c : ascii) (z : Z) :
  isdigit c = false -> c <> "-"%char -> Shape.count_char c (str_of_Z z) = 0.
Proof.
  intros Hc Hm. unfold str_of_Z.
  assert (forall u, Shape.count_char c (NilZero.string_of_uint u) = 0) as Hu.
  { intros u. unfold NilZero.string_of_uint.
    destruct u; try (apply count_char_digits; [exact Hc | apply string_of_uint_digits]).
    cbn [NilEmpty.string_of_uint Shape.count_char].
    destruct (Ascii.eqb_spec "0" c) as [E|_]; [|reflexivity].
    rewrite <- E in Hc. discriminate Hc. }
  destruct (Z.to_int z) as [u|u]; cbn [NilZero.string_of_int]; [apply Hu|].
  cbn [Shape.count_char]. rewrite Hu.
  destruct (Ascii.eqb_spec "-" c) as [E|_]; [|reflexivity].
  by destruct Hm.
Qed.

Lemma count_char_drop_last (c : ascii) (s : string) :
  endswith s (String c "") = false -> Shape.count_char c (drop_last s) = 0 ->
  Shape.count_char c s = 0.
Proof.
  induction s as [|a s IH]; [reflexivity|]. cbn [endswith]. intros He.
  apply orb_false_iff in He as [Ha He]. destruct s as [|b s].
  - intros _. cbn. apply String.eqb_neq in Ha.
    destruct (Ascii.eqb_spec a c) as [->|_]; [congruence | reflexivity].
  - change (drop_last (String a (String b s))) with (String a (drop_last (String b s))).
    cbn [Shape.count_char] in *. intros H.
    assert (Shape.count_char c (drop_last (String b s)) = 0) as H' by lia.
    specialize (IH He H'). cbn [Shape.count_char] in IH. lia.
Qed.

Lemma add_limit_clause_no_semicolon (max_rows : Z) (sql_query : string) :
  contains ";" (drop_last sql_query) = false ->
  contains ";" (add_limit_clause max_rows sql_query) = false.
Proof.
  rewrite !contains_char_count, !negb_false_iff, !Nat.eqb_eq. intros H.
  assert (Shape.count_char ";"
            (if endswith sql_query ";" then strip (drop_last sql_query) else sql_query) = 0)
    as Hx.
  { destruct (endswith sql_query ";") eqn:He.
    - by apply count_char_strip.
    - by apply count_char_drop_last. }
  assert (Shape.count_char ";" ("LIMIT " ++ str_of_Z max_rows) = 0) as Hrepl.
  { rewrite count_char_app, count_char_str_of_Z; [reflexivity | reflexivity | discriminate]. }
  unfold add_limit_clause.
  destruct (negb _).
  - rewrite count_char_app, Hx. exact Hrepl.
  - destruct (search false limit_search_re _) as [[[i n] g]|]; [|exact Hx].
    destruct (_ >? _)%Z; [|exact Hx].
    unfold sub. by apply count_char_sub_go.
Qed.

(** X21.  A text that [validate] accepts is executed as one statement: the
    query that [_add_limit_clause] makes of it, which is what
    [execute_query] sends to the database, holds no semicolon, whatever
    the row cap is. *)
Theorem accepted_query_one_statement
    (sqlparse_parse : string -> outcome (list token))
    (get_real_name : token -> outcome (option string))
    (schema_info : gmap string table_info) (max_joins max_subquery_depth max_rows : Z)
    (sql_query : string) (errors : list string) :
  validate sqlparse_parse get_real_name schema_info max_joins max_subquery_depth
    sql_query = Ret (true, errors) ->
  contains ";" (add_limit_clause max_rows sql_query) = false.
Proof.
  intros Hv. apply add_limit_clause_no_semicolon.
  destruct (sqlparse_parse sql_query) as [[|statement rest]|e] eqn:Hp.
  - rewrite (validate_on_nothing _ _ _ _ _ _ Hp) in Hv. discriminate Hv.
  - rewrite (validate_on_statement _ _ _ _ _ _ _ _ Hp) in Hv.
    injection Hv as Hv _. apply is_valid_iff_empty in Hv.
    apply app_nil in Hv as [_ Hv]. apply app_nil in Hv as [_ Hv].
    apply app_nil in Hv as [_ Hv].
    apply check_dangerous_patterns_harmless in Hv. unfold Shape.harmless in Hv.
    repeat (apply andb_true_iff in Hv as [Hv _]).
    by apply negb_true_iff in Hv.
  - rewrite (validate_on_raise _ _ _ _ _ _ _ Hp) in Hv. discriminate Hv.
Qed.

Lemma accepted_query_one_statement_witness :
  contains ";" (add_limit_clause 1000 "SELECT a FROM t;") = false.
Proof.
  apply (accepted_query_one_statement Trees.parse_known Trees.real_name
           (SchemaService.schema_info_of (SchemaService.get_schema_for_validation Demo.schema))
           3 3 1000 "SELECT a FROM t;" []).
  vm_compute. reflexivity.
Defined.
